(** * svn-scm: process executor, error classifier and repository dispatch

    A shallow embedding of the command core of the extension:
    - [src/svn.ts]: [svnErrorCodes], [getSvnErrorCode] and [Svn.exec];
    - the command layer ([SvnCommands]): [runByRepository],
      [commitWithMessage], [commit], [getLeftResource], [getRightResource]
      and [getTitle].

    JavaScript strings are sequences of UTF-16 code units, buffers are
    sequences of bytes, and the pieces of the platform the code calls
    (iconv-lite, is-utf8, jschardet, the configuration store, the event
    emitters of a child process) are explicit arguments or small state
    machines. *)

From Stdlib Require Import String Ascii.
From Stdlib Require Import List NArith ZArith QArith Bool Lia.
From Stdlib Require Import Permutation.
Import ListNotations.
Close Scope Q_scope.

(* ================================================================== *)
(** ** JavaScript strings *)
(* ================================================================== *)

Module JsString.

(** A UTF-16 code unit. *)
Definition char16 := N.

Definition jsstring := list char16.

(** An ASCII literal of the source as a [jsstring]. *)
Definition lit (s : string) : jsstring :=
  map N_of_ascii (list_ascii_of_string s).

Definition jsstring_dec : forall a b : jsstring, {a = b} + {a <> b} :=
  list_eq_dec N.eq_dec.

Definition eqb (a b : jsstring) : bool :=
  if jsstring_dec a b then true else false.

(** [s.startsWith(p)]. *)
Fixpoint starts_with (p s : jsstring) : bool :=
  match p, s with
  | [], _ => true
  | _ :: _, [] => false
  | a :: p', b :: s' => N.eqb a b && starts_with p' s'
  end.

(** [new RegExp(p).test(s)] for a pattern [p] without metacharacters: [p]
    occurs somewhere in [s]. *)
Fixpoint includes (p s : jsstring) : bool :=
  starts_with p s
  || match s with
     | [] => false
     | _ :: s' => includes p s'
     end.

(** A JavaScript string used as a condition: [""] is falsy. *)
Definition truthy (s : jsstring) : bool :=
  match s with
  | [] => false
  | _ :: _ => true
  end.

(** An optional string property used as a condition: [undefined] and [""]
    are falsy. *)
Definition truthy_opt (o : option jsstring) : option jsstring :=
  match o with
  | Some (c :: s) => Some (c :: s)
  | _ => None
  end.

(** [parts.join(sep)]. *)
Fixpoint join (sep : jsstring) (parts : list jsstring) : jsstring :=
  match parts with
  | [] => []
  | [p] => p
  | p :: rest => p ++ sep ++ join sep rest
  end.

Definition is_line_terminator (c : char16) : bool :=
  (c =? 10)%N || (c =? 13)%N || (c =? 8232)%N || (c =? 8233)%N.

Definition is_digit (c : char16) : bool := (48 <=? c)%N && (c <=? 57)%N.

Definition is_space (c : char16) : bool := (c =? 32)%N.

Fixpoint take_while (f : char16 -> bool) (s : jsstring) : jsstring :=
  match s with
  | [] => []
  | c :: s' => if f c then c :: take_while f s' else []
  end.

Fixpoint drop_while (f : char16 -> bool) (s : jsstring) : jsstring :=
  match s with
  | [] => []
  | c :: s' => if f c then drop_while f s' else s
  end.

End JsString.

Import JsString.

(* ================================================================== *)
(** ** Error classifier ([svnErrorCodes], [getSvnErrorCode]) *)
(* ================================================================== *)

Module Classifier.

(** The object literal [svnErrorCodes]: its own string keys are visited by
    [for ... in] in insertion order. *)
Definition svnErrorCodes : list (jsstring * jsstring) :=
  [ (lit "AuthorizationFailed", lit "E170001");
    (lit "RepositoryIsLocked", lit "E155004");
    (lit "NotASvnRepository", lit "E155007");
    (lit "NotShareCommonAncestry", lit "E195012");
    (lit "WorkingCopyIsTooOld", lit "E155036") ].

(** The property read [svnErrorCodes.<name>]. *)
Fixpoint property (name : jsstring) (table : list (jsstring * jsstring))
  : option jsstring :=
  match table with
  | [] => None
  | (k, v) :: rest => if eqb k name then Some v else property name rest
  end.

(** The pattern built by [new RegExp(`svn: ${code}`)]. *)
Definition token (code : jsstring) : jsstring := lit "svn: " ++ code.

(** The [for ... in] loop of [getSvnErrorCode], leaving at the first entry
    whose token occurs in [stderr]. *)
Fixpoint scan (table : list (jsstring * jsstring)) (stderr : jsstring)
  : option jsstring :=
  match table with
  | [] => None
  | (_, code) :: rest =>
      if includes (token code) stderr then Some code else scan rest stderr
  end.

Definition credentials_phrase : jsstring :=
  lit "No more credentials or we tried too many times".

Definition getSvnErrorCode (stderr : jsstring) : option jsstring :=
  match scan svnErrorCodes stderr with
  | Some code => Some code
  | None =>
      if includes credentials_phrase stderr
      then property (lit "AuthorizationFailed") svnErrorCodes
      else None
  end.

(** No entry of [table] has its token in [stderr]. *)
Definition no_token (table : list (jsstring * jsstring)) (stderr : jsstring)
  : Prop :=
  Forall (fun e => includes (token (snd e)) stderr = false) table.

End Classifier.

(* ================================================================== *)
(** ** Process executor ([Svn.exec]) *)
(* ================================================================== *)

Module Exec.

Definition bytes := list Byte.byte.

(** The fields of the [Svn] object. *)
Record Svn := {
  svnPath : jsstring;
  version : jsstring;
  lastCwd : jsstring
}.

(** [ICpOptions]: every property is optional. *)
Record ICpOptions := {
  o_cwd : option jsstring;
  o_username : option jsstring;
  o_password : option jsstring;
  o_log : option bool;
  o_encoding : option jsstring
}.

(** What [jschardet.detect] returns; [g_encoding] is [null] when nothing was
    recognised.  A confidence is a double, and every double is a rational. *)
Record Guess := {
  g_encoding : option jsstring;
  g_confidence : Q
}.

(** The collaborators of [exec] outside this repository's sources:
    [configuration.get("default.encoding")], [iconv.encodingExists],
    [isUtf8], [jschardet.detect] (which reads the global
    [MacCyrillicModel.mTypicalPositiveRatio], here the number of times [exec]
    has raised it), [iconv.decode] and [Buffer.prototype.toString].
    [iconv.decode] looks the codec of the encoding up as
    [iconv.encodingExists] does and throws when there is none: [decode] is
    the text it returns for an encoding iconv knows.  iconv knows
    ["utf8"]. *)
Record Platform := {
  default_encoding : option jsstring;
  encodingExists : jsstring -> bool;
  isUtf8 : bytes -> bool;
  detect : nat -> bytes -> Guess;
  decode : bytes -> jsstring -> jsstring;
  toString : bytes -> jsstring;
  utf8_exists : encodingExists (lit "utf8") = true
}.

(** [iconv.decode(stdout, encoding)]: [None] when it throws, which it does
    for an encoding iconv does not know. *)
Definition iconv_decode (p : Platform) (stdout : bytes)
           (encoding : jsstring) : option jsstring :=
  if encodingExists p encoding
  then Some (decode p stdout encoding)
  else None.

(** *** The diagnostic echo *)

Definition is_separator (c : char16) : bool := (c =? 92)%N || (c =? 47)%N.

(** [s.split(/[\\\/]+/)]: [cur] holds the piece being read, reversed, and
    [in_sep] tells that the previous code unit belonged to a separator run. *)
Fixpoint split_separators (cur : jsstring) (in_sep : bool) (s : jsstring)
  : list jsstring :=
  match s with
  | [] => [rev cur]
  | c :: s' =>
      if is_separator c
      then if in_sep
           then split_separators [] true s'
           else rev cur :: split_separators [] true s'
      else split_separators (c :: cur) false s'
  end.

(** [parts.pop()] read as a template substitution. *)
Definition pop (parts : list jsstring) : jsstring := last parts [].

(** [arg => (/ |^$/.test(arg) ? `'${arg}'` : arg)]. *)
Definition quote_arg (arg : jsstring) : jsstring :=
  if includes (lit " ") arg || negb (truthy arg)
  then lit "'" ++ arg ++ lit "'"
  else arg.

(** The line handed to [logOutput] before the process is spawned. *)
Definition echo_line (cwd : jsstring) (args : list jsstring) : jsstring :=
  let argsOut := map quote_arg args in
  lit "[" ++ pop (split_separators [] false cwd) ++ lit "]$ svn "
      ++ join (lit " ") argsOut ++ [10%N].

(** [options.log !== false]. *)
Definition log_enabled (options : ICpOptions) : bool :=
  match o_log options with
  | Some false => false
  | _ => true
  end.

(** [if (value) { args.push(flag, value); }]. *)
Definition push_option (flag : jsstring) (value : option jsstring)
           (args : list jsstring) : list jsstring :=
  match truthy_opt value with
  | Some v => args ++ [flag; v]
  | None => args
  end.

(** *** Listeners on the child process and its streams *)

Inductive Emitter := Process | Stdout | Stderr.

Inductive EventName := Error | Exit | Data | Close.

(** The six functions [exec] registers, by what they do. *)
Inductive Callback :=
| Reject            (* [reject] of the exit promise *)
| Resolve           (* [resolve] of the exit promise *)
| PushStdout        (* [b => buffers.push(b)], stdout *)
| ResolveStdout     (* [() => resolve(Buffer.concat(buffers))] *)
| PushStderr        (* [b => buffers.push(b)], stderr *)
| ResolveStderr.    (* [() => resolve(Buffer.concat(buffers).toString())] *)

Record Listener := {
  l_emitter : Emitter;
  l_name : EventName;
  l_fn : Callback;
  l_once : bool
}.

(** What the child process and its streams emit.  ['exit'] carries the exit
    code, [null] when a signal ended the process. *)
Inductive Event :=
| ProcessError (message : jsstring)
| ProcessExit (code : option Z)
| StreamData (ee : Emitter) (chunk : bytes)
| StreamClose (ee : Emitter).

Definition Emitter_eqb (a b : Emitter) : bool :=
  match a, b with
  | Process, Process | Stdout, Stdout | Stderr, Stderr => true
  | _, _ => false
  end.

Definition EventName_eqb (a b : EventName) : bool :=
  match a, b with
  | Error, Error | Exit, Exit | Data, Data | Close, Close => true
  | _, _ => false
  end.

Definition Callback_eqb (a b : Callback) : bool :=
  match a, b with
  | Reject, Reject | Resolve, Resolve | PushStdout, PushStdout
  | ResolveStdout, ResolveStdout | PushStderr, PushStderr
  | ResolveStderr, ResolveStderr => true
  | _, _ => false
  end.

Definition event_emitter (ev : Event) : Emitter :=
  match ev with
  | ProcessError _ | ProcessExit _ => Process
  | StreamData ee _ | StreamClose ee => ee
  end.

Definition event_name (ev : Event) : EventName :=
  match ev with
  | ProcessError _ => Error
  | ProcessExit _ => Exit
  | StreamData _ _ => Data
  | StreamClose _ => Close
  end.

(** The state of the exit promise. *)
Inductive ExitPromise :=
| ExitPending
| ExitResolved (code : option Z)
| ExitRejected (message : jsstring).

(** The state between [cp.spawn] and the end of [exec]: the listeners
    registered on the three emitters, the [disposables] array, the two
    [buffers] arrays, the three promises given to [Promise.all], and whether
    the function has gone past its [await]. *)
Record Await := {
  listeners : list Listener;
  disposables : list Listener;
  stdout_buffers : list bytes;
  stderr_buffers : list bytes;
  exit_promise : ExitPromise;
  stdout_promise : option bytes;
  stderr_promise : option jsstring;
  resumed : bool
}.

Definition same_listener (a b : Listener) : bool :=
  Emitter_eqb (l_emitter a) (l_emitter b)
  && EventName_eqb (l_name a) (l_name b)
  && Callback_eqb (l_fn a) (l_fn b).

(** The local helper [once]: [ee.once(name, fn)] and one more disposable. *)
Definition once (ee : Emitter) (name : EventName) (fn : Callback) (a : Await)
  : Await :=
  let l := {| l_emitter := ee; l_name := name; l_fn := fn; l_once := true |} in
  {| listeners := listeners a ++ [l];
     disposables := disposables a ++ [l];
     stdout_buffers := stdout_buffers a;
     stderr_buffers := stderr_buffers a;
     exit_promise := exit_promise a;
     stdout_promise := stdout_promise a;
     stderr_promise := stderr_promise a;
     resumed := resumed a |}.

(** The local helper [on]: [ee.on(name, fn)] and one more disposable. *)
Definition on (ee : Emitter) (name : EventName) (fn : Callback) (a : Await)
  : Await :=
  let l := {| l_emitter := ee; l_name := name; l_fn := fn; l_once := false |} in
  {| listeners := listeners a ++ [l];
     disposables := disposables a ++ [l];
     stdout_buffers := stdout_buffers a;
     stderr_buffers := stderr_buffers a;
     exit_promise := exit_promise a;
     stdout_promise := stdout_promise a;
     stderr_promise := stderr_promise a;
     resumed := resumed a |}.

(** Right after [cp.spawn]: nothing registered, the promises pending. *)
Definition spawned : Await :=
  {| listeners := [];
     disposables := [];
     stdout_buffers := [];
     stderr_buffers := [];
     exit_promise := ExitPending;
     stdout_promise := None;
     stderr_promise := None;
     resumed := false |}.

(** The three executors given to [Promise.all], run in order. *)
Definition listen : Await :=
  once Stderr Close ResolveStderr
    (on Stderr Data PushStderr
      (once Stdout Close ResolveStdout
        (on Stdout Data PushStdout
          (once Process Exit Resolve
            (once Process Error Reject spawned))))).

(** [ee.removeListener(name, fn)]: the listener added last for [name] with
    [fn] on [ee], if there is one, is taken out. *)
Fixpoint removeListener (l : Listener) (ls : list Listener) : list Listener :=
  match ls with
  | [] => []
  | l' :: rest =>
      if existsb (same_listener l) rest then l' :: removeListener l rest
      else if same_listener l l' then rest
      else l' :: rest
  end.

(** [dispose(disposables)]. *)
Definition dispose (ds : list Listener) (ls : list Listener) : list Listener :=
  fold_left (fun acc d => removeListener d acc) ds ls.

(** One callback run with the event it was registered for.  A promise that is
    settled stays as it is. *)
Definition run_callback (p : Platform) (ev : Event) (a : Await) (fn : Callback)
  : Await :=
  match fn, ev with
  | Reject, ProcessError message =>
      {| listeners := listeners a; disposables := disposables a;
         stdout_buffers := stdout_buffers a;
         stderr_buffers := stderr_buffers a;
         exit_promise := match exit_promise a with
                         | ExitPending => ExitRejected message
                         | settled => settled
                         end;
         stdout_promise := stdout_promise a;
         stderr_promise := stderr_promise a;
         resumed := resumed a |}
  | Resolve, ProcessExit code =>
      {| listeners := listeners a; disposables := disposables a;
         stdout_buffers := stdout_buffers a;
         stderr_buffers := stderr_buffers a;
         exit_promise := match exit_promise a with
                         | ExitPending => ExitResolved code
                         | settled => settled
                         end;
         stdout_promise := stdout_promise a;
         stderr_promise := stderr_promise a;
         resumed := resumed a |}
  | PushStdout, StreamData _ chunk =>
      {| listeners := listeners a; disposables := disposables a;
         stdout_buffers := stdout_buffers a ++ [chunk];
         stderr_buffers := stderr_buffers a;
         exit_promise := exit_promise a;
         stdout_promise := stdout_promise a;
         stderr_promise := stderr_promise a;
         resumed := resumed a |}
  | ResolveStdout, StreamClose _ =>
      {| listeners := listeners a; disposables := disposables a;
         stdout_buffers := stdout_buffers a;
         stderr_buffers := stderr_buffers a;
         exit_promise := exit_promise a;
         stdout_promise := match stdout_promise a with
                           | None => Some (concat (stdout_buffers a))
                           | settled => settled
                           end;
         stderr_promise := stderr_promise a;
         resumed := resumed a |}
  | PushStderr, StreamData _ chunk =>
      {| listeners := listeners a; disposables := disposables a;
         stdout_buffers := stdout_buffers a;
         stderr_buffers := stderr_buffers a ++ [chunk];
         exit_promise := exit_promise a;
         stdout_promise := stdout_promise a;
         stderr_promise := stderr_promise a;
         resumed := resumed a |}
  | ResolveStderr, StreamClose _ =>
      {| listeners := listeners a; disposables := disposables a;
         stdout_buffers := stdout_buffers a;
         stderr_buffers := stderr_buffers a;
         exit_promise := exit_promise a;
         stdout_promise := stdout_promise a;
         stderr_promise := match stderr_promise a with
                           | None =>
                               Some (toString p (concat (stderr_buffers a)))
                           | settled => settled
                           end;
         resumed := resumed a |}
  | _, _ => a
  end.

Definition listens_to (ev : Event) (l : Listener) : bool :=
  Emitter_eqb (l_emitter l) (event_emitter ev)
  && EventName_eqb (l_name l) (event_name ev).

(** [ee.emit(name, ...)]: the listeners registered for the event are called
    in registration order, those added with [once] leaving the emitter as
    they are called. *)
Definition emit (p : Platform) (ev : Event) (a : Await) : Await :=
  let called := filter (listens_to ev) (listeners a) in
  let kept :=
    filter (fun l => negb (listens_to ev l && l_once l)) (listeners a) in
  fold_left (fun acc l => run_callback p ev acc (l_fn l)) called
    {| listeners := kept; disposables := disposables a;
       stdout_buffers := stdout_buffers a;
       stderr_buffers := stderr_buffers a;
       exit_promise := exit_promise a;
       stdout_promise := stdout_promise a;
       stderr_promise := stderr_promise a;
       resumed := resumed a |}.

(** The promise of [Promise.all([exit, stdout, stderr])].  Only the exit
    promise can be rejected, so the combined promise is rejected exactly when
    it is, and fulfilled exactly when the three are. *)
Inductive Awaited :=
| StillPending
| Threw (message : jsstring)
| Got (exitCode : option Z) (stdout : bytes) (stderr : jsstring).

Definition awaited (a : Await) : Awaited :=
  match exit_promise a, stdout_promise a, stderr_promise a with
  | ExitRejected message, _, _ => Threw message
  | ExitResolved code, Some out, Some err => Got code out err
  | _, _, _ => StillPending
  end.

(** [exec] going past its [await]: when [Promise.all] is fulfilled the
    function goes on with [dispose(disposables)]; when it is rejected the
    [await] throws and the function is left at once. *)
Definition resume (a : Await) : Await :=
  if resumed a then a
  else match awaited a with
       | StillPending => a
       | Threw _ =>
           {| listeners := listeners a; disposables := disposables a;
              stdout_buffers := stdout_buffers a;
              stderr_buffers := stderr_buffers a;
              exit_promise := exit_promise a;
              stdout_promise := stdout_promise a;
              stderr_promise := stderr_promise a;
              resumed := true |}
       | Got _ _ _ =>
           {| listeners := dispose (disposables a) (listeners a);
              disposables := disposables a;
              stdout_buffers := stdout_buffers a;
              stderr_buffers := stderr_buffers a;
              exit_promise := exit_promise a;
              stdout_promise := stdout_promise a;
              stderr_promise := stderr_promise a;
              resumed := true |}
       end.

(** One event of the child process, then the pending continuation. *)
Definition step (p : Platform) (a : Await) (ev : Event) : Await :=
  resume (emit p ev a).

(** Everything the child process emits, in order. *)
Definition run_events (p : Platform) (trace : list Event) : Await :=
  fold_left (step p) trace listen.

(** *** The child process by what it emits *)

(** The six listeners of [listen], in registration order. *)
Definition on_error : Listener :=
  {| l_emitter := Process; l_name := Error; l_fn := Reject;
     l_once := true |}.
Definition on_exit : Listener :=
  {| l_emitter := Process; l_name := Exit; l_fn := Resolve;
     l_once := true |}.
Definition on_stdout_data : Listener :=
  {| l_emitter := Stdout; l_name := Data; l_fn := PushStdout;
     l_once := false |}.
Definition on_stdout_close : Listener :=
  {| l_emitter := Stdout; l_name := Close; l_fn := ResolveStdout;
     l_once := true |}.
Definition on_stderr_data : Listener :=
  {| l_emitter := Stderr; l_name := Data; l_fn := PushStderr;
     l_once := false |}.
Definition on_stderr_close : Listener :=
  {| l_emitter := Stderr; l_name := Close; l_fn := ResolveStderr;
     l_once := true |}.

Definition registered : list Listener :=
  [on_error; on_exit; on_stdout_data; on_stdout_close; on_stderr_data;
   on_stderr_close].

(** How the child process ended, read off what it emitted: its first
    ['error'] or ['exit'] event. *)
Fixpoint exit_verdict (trace : list Event) : ExitPromise :=
  match trace with
  | [] => ExitPending
  | ProcessError message :: _ => ExitRejected message
  | ProcessExit code :: _ => ExitResolved code
  | _ :: rest => exit_verdict rest
  end.

(** What stream [ee] delivered: the chunks emitted after [chunks] up to its
    first ['close'], concatenated; [None] when it is never closed. *)
Fixpoint collected (ee : Emitter) (chunks : list bytes) (trace : list Event)
  : option bytes :=
  match trace with
  | [] => None
  | StreamData ee' chunk :: rest =>
      if Emitter_eqb ee' ee
      then collected ee (chunks ++ [chunk]) rest
      else collected ee chunks rest
  | StreamClose ee' :: rest =>
      if Emitter_eqb ee' ee
      then Some (concat chunks)
      else collected ee chunks rest
  | _ :: rest => collected ee chunks rest
  end.

(** The process could not be launched: ['error'] came before any ['exit']. *)
Definition fails_to_launch (trace : list Event) : Prop :=
  exists message, exit_verdict trace = ExitRejected message.

(** The process ended with [code], and both its streams were closed, with
    [out] and [err] read from them. *)
Definition exits_with (p : Platform) (trace : list Event) (code : option Z)
           (out : bytes) (err : jsstring) : Prop :=
  exit_verdict trace = ExitResolved code
  /\ collected Stdout [] trace = Some out
  /\ option_map (toString p) (collected Stderr [] trace) = Some err.

(** The invariant of the states [step] reaches from [listen]: the listeners
    are some of the registered ones, [keep] telling which; a pending promise
    still has its listeners; the function has gone past its [await] exactly
    when [Promise.all] is settled; after a fulfilled [await] no listener is
    left, and until then the ['data'] listeners are. *)
Record Reachable (keep : Listener -> bool) (a : Await) : Prop := {
  inv_listeners : listeners a = filter keep registered;
  inv_disposables : disposables a = registered;
  inv_exit : exit_promise a = ExitPending ->
             keep on_error = true /\ keep on_exit = true;
  inv_stdout : stdout_promise a = None -> keep on_stdout_close = true;
  inv_stderr : stderr_promise a = None -> keep on_stderr_close = true;
  inv_resumed : resumed a = match awaited a with
                            | StillPending => false
                            | _ => true
                            end;
  inv_await : match awaited a with
              | Got _ _ _ => listeners a = []
              | _ => keep on_stdout_data = true
                     /\ keep on_stderr_data = true
              end
}.

(** One event on the three promises and the buffers of a pending one. *)
Definition exit_next (cur : ExitPromise) (ev : Event) : ExitPromise :=
  match cur, ev with
  | ExitPending, ProcessError message => ExitRejected message
  | ExitPending, ProcessExit code => ExitResolved code
  | _, _ => cur
  end.

Definition closes (ee : Emitter) (ev : Event) : bool :=
  match ev with
  | StreamClose ee' => Emitter_eqb ee' ee
  | _ => false
  end.

Definition chunk_of (ee : Emitter) (ev : Event) : list bytes :=
  match ev with
  | StreamData ee' chunk => if Emitter_eqb ee' ee then [chunk] else []
  | _ => []
  end.

(** *** Decoding and the result *)

(** The double nearest to [0.8], as the rational it is. *)
Definition confidence_threshold : Q :=
  (3602879701896397 # 4503599627370496)%Q.

(** [confidence > 0.8]. *)
Definition confident (confidence : Q) : bool :=
  negb (Qle_bool confidence confidence_threshold).

(** What lines 145-172 of [exec] leave behind: the encoding handed to
    [iconv.decode], the lines logged on the way, and how often the detector's
    ratio has been raised. *)
Record Resolution := {
  r_encoding : jsstring;
  r_output : list jsstring;
  r_ratio : nat
}.

(** The last branch, lines 160-171: the detector's ratio is raised, the bytes
    are given to [jschardet.detect], and the guess replaces [encoding] when
    its confidence is above 0.8 and iconv knows it. *)
Definition detect_encoding (p : Platform) (ratio : nat)
           (encoding : jsstring) (stdout : bytes) : Resolution :=
  let encodingGuess := detect p (S ratio) stdout in
  match g_encoding encodingGuess with
  | Some guessed =>
      if confident (g_confidence encodingGuess) && encodingExists p guessed
      then {| r_encoding := guessed; r_output := []; r_ratio := S ratio |}
      else {| r_encoding := encoding; r_output := []; r_ratio := S ratio |}
  | None =>
      (* [iconv.encodingExists(null)] is false *)
      {| r_encoding := encoding; r_output := []; r_ratio := S ratio |}
  end.

(** The line logged for a configured encoding iconv does not know. *)
Definition invalid_encoding_line (defaultEncoding : jsstring) : jsstring :=
  lit "svn.default.encoding: Invalid Parameter: '"
    ++ defaultEncoding ++ lit "'." ++ [10%N].

Definition resolve_encoding (p : Platform) (ratio : nat)
           (args : list jsstring) (encoding : jsstring) (stdout : bytes)
  : Resolution :=
  if existsb (eqb (lit "--xml")) args
  then {| r_encoding := lit "utf8"; r_output := []; r_ratio := ratio |}
  else
    match truthy_opt (default_encoding p) with
    | Some defaultEncoding =>
        if negb (encodingExists p defaultEncoding)
        then {| r_encoding := encoding;
                r_output := [invalid_encoding_line defaultEncoding];
                r_ratio := ratio |}
        else if negb (isUtf8 p stdout)
        then {| r_encoding := defaultEncoding; r_output := [];
                r_ratio := ratio |}
        else {| r_encoding := encoding; r_output := []; r_ratio := ratio |}
    | None => detect_encoding p ratio encoding stdout
    end.

(** The length of the match of [/svn: E\d+: +/] at the head of [s].  [\d+]
    and [ +] are greedy and what may follow them is not a digit, resp. is
    anything, so the longest runs are the match. *)
Definition match_error_prefix (s : jsstring) : option nat :=
  if starts_with (lit "svn: E") s then
    let r := skipn 6 s in
    let digits := take_while is_digit r in
    match digits, drop_while is_digit r with
    | _ :: _, c :: r' =>
        if (c =? 58)%N then
          match take_while is_space r' with
          | [] => None
          | spaces => Some (6 + length digits + 1 + length spaces)
          end
        else None
    | _, _ => None
    end
  else None.

(** [stderr.replace(/^svn: E\d+: +/gm, "")], read from left to right:
    [skip] code units of a match are still to be dropped, and [bol] tells that
    the position is the start of the input or follows a line terminator,
    where [^] holds under the [m] flag.  After a match the search goes on
    behind it. *)
Fixpoint replace_prefixes (skip : nat) (bol : bool) (s : jsstring)
  : jsstring :=
  match s with
  | [] => []
  | c :: s' =>
      match skip with
      | S k => replace_prefixes k (is_line_terminator c) s'
      | O =>
          match (if bol then match_error_prefix s else None) with
          | Some (S k) => replace_prefixes k (is_line_terminator c) s'
          | _ => c :: replace_prefixes 0 (is_line_terminator c) s'
          end
      end
  end.

Definition stderrFormated_of (stderr : jsstring) : jsstring :=
  replace_prefixes 0 true stderr.



Definition strip_line (line : jsstring) : jsstring :=
  match match_error_prefix line with
  | Some n => skipn n line
  | None => line
  end.


(** [IExecutionResult]. *)
Record IExecutionResult := {
  exitCode : option Z;
  stdout : jsstring;
  stderr : jsstring
}.

(** The options [exec] gives to [new SvnError]. *)
Record SvnError := {
  err_message : jsstring;
  err_stdout : jsstring;
  err_stderr : jsstring;
  err_stderrFormated : jsstring;
  err_exitCode : option Z;
  err_svnErrorCode : option jsstring;
  err_svnCommand : option jsstring
}.

(** What [exec] is rejected with: what [cp.spawn] threw, the argument of
    the ['error'] event as it came, the error [iconv.decode] throws for an
    encoding it does not know, or the [SvnError] built after a non-zero
    exit. *)
Inductive Failure :=
| SpawnThrown (error : jsstring)
| SpawnFailure (message : jsstring)
| DecodeFailure (encoding : jsstring)
| CommandFailure (e : SvnError).

(** What [cp.spawn] comes to: it throws, or it returns a child process,
    given by what the process and its streams emit. *)
Inductive Spawned :=
| SpawnThrows (error : jsstring)
| ChildProcess (trace : list Event).

Inductive Settlement :=
| Unsettled
| Fulfilled (r : IExecutionResult)
| Rejected (f : Failure).

(** An exit code used as a condition: [null] and [0] are falsy. *)
Definition truthy_code (code : option Z) : bool :=
  match code with
  | Some c => negb (c =? 0)%Z
  | None => false
  end.

(** One call of [exec], with everything it changes: the [Svn] object, the
    caller's [args] array and [options] object, the lines emitted on
    [onOutput], the listeners left on the child process and its streams, the
    detector's ratio, and the promise it returned. *)
Record Run := {
  run_this : Svn;
  run_args : list jsstring;
  run_options : ICpOptions;
  run_output : list jsstring;
  run_listeners : list Listener;
  run_ratio : nat;
  run_result : Settlement
}.

(** [options.encoding || "utf8"]. *)
Definition encoding_hint (options : ICpOptions) : jsstring :=
  match truthy_opt (o_encoding options) with
  | Some e => e
  | None => lit "utf8"
  end.

(** The encoding [exec] gives to [iconv.decode] with the bytes [out] of
    stdout: what lines 145-172 make of the encoding hint, the arguments
    being those after the pushes. *)
Definition resolved_encoding (p : Platform) (ratio : nat)
           (args : list jsstring) (options : ICpOptions) (out : bytes)
  : jsstring :=
  r_encoding
    (resolve_encoding p ratio
       (push_option (lit "--password") (o_password options)
          (push_option (lit "--username") (o_username options) args))
       (encoding_hint options) out).

Definition exec (p : Platform) (spawned : Spawned) (ratio : nat)
           (this : Svn) (cwd : jsstring) (args : list jsstring)
           (options : ICpOptions) : Run :=
  let this1 :=
    if truthy cwd
    then {| svnPath := svnPath this; version := version this;
            lastCwd := cwd |}
    else this in
  let options1 :=
    if truthy cwd
    then {| o_cwd := Some cwd; o_username := o_username options;
            o_password := o_password options; o_log := o_log options;
            o_encoding := o_encoding options |}
    else options in
  let output1 :=
    if log_enabled options1 then [echo_line (lastCwd this1) args] else [] in
  let args1 := push_option (lit "--username") (o_username options1) args in
  let args2 := push_option (lit "--password") (o_password options1) args1 in
  let encoding := encoding_hint options1 in
  let options2 :=
    {| o_cwd := o_cwd options1; o_username := o_username options1;
       o_password := o_password options1; o_log := o_log options1;
       o_encoding := None |} in
  match spawned with
  | SpawnThrows error =>
      {| run_this := this1; run_args := args2; run_options := options2;
         run_output := output1; run_listeners := [];
         run_ratio := ratio;
         run_result := Rejected (SpawnThrown error) |}
  | ChildProcess trace =>
      let a := run_events p trace in
      match awaited a with
      | StillPending =>
          {| run_this := this1; run_args := args2; run_options := options2;
             run_output := output1; run_listeners := listeners a;
             run_ratio := ratio; run_result := Unsettled |}
      | Threw message =>
          {| run_this := this1; run_args := args2; run_options := options2;
             run_output := output1; run_listeners := listeners a;
             run_ratio := ratio;
             run_result := Rejected (SpawnFailure message) |}
      | Got code out err =>
          let r := resolve_encoding p ratio args2 encoding out in
          match iconv_decode p out (r_encoding r) with
          | None =>
              {| run_this := this1; run_args := args2;
                 run_options := options2;
                 run_output := output1 ++ r_output r;
                 run_listeners := listeners a;
                 run_ratio := r_ratio r;
                 run_result := Rejected (DecodeFailure (r_encoding r)) |}
          | Some decodedStdout =>
              let output2 :=
                output1 ++ r_output r
                  ++ (if log_enabled options2 && truthy err
                      then [err ++ [10%N]] else []) in
              {| run_this := this1; run_args := args2;
                 run_options := options2;
                 run_output := output2; run_listeners := listeners a;
                 run_ratio := r_ratio r;
                 run_result :=
                   if truthy_code code
                   then Rejected (CommandFailure
                          {| err_message := lit "Failed to execute svn";
                             err_stdout := decodedStdout;
                             err_stderr := err;
                             err_stderrFormated := stderrFormated_of err;
                             err_exitCode := code;
                             err_svnErrorCode :=
                               Classifier.getSvnErrorCode err;
                             err_svnCommand := nth_error args2 0 |})
                   else Fulfilled {| exitCode := code;
                                     stdout := decodedStdout;
                                     stderr := err |} |}
          end
      end
  end.

(** The decoded standard output a settled call carries, in its result or in
    its [SvnError]. *)
Definition decoded_stdout (s : Settlement) : option jsstring :=
  match s with
  | Fulfilled r => Some (stdout r)
  | Rejected (CommandFailure e) => Some (err_stdout e)
  | _ => None
  end.

(** [options] with other credentials, all else equal. *)
Definition with_credentials (options : ICpOptions)
           (username password : option jsstring) : ICpOptions :=
  {| o_cwd := o_cwd options; o_username := username;
     o_password := password; o_log := o_log options;
     o_encoding := o_encoding options |}.

End Exec.

(* ================================================================== *)
(** ** [Promise.all] *)
(* ================================================================== *)

Module PromiseAll.

Section Combinator.

Variables T E : Type.

(** How a promise ends. *)
Inductive Settled :=
| Resolved (value : T)
| Failed (reason : E).

(** A promise by its fate: [None] for one that stays pending. *)
Definition Promise := option Settled.

(** The state of the promise [Promise.all(promises)] returns: the [values]
    array with the slots filled so far, and its own settlement once it has
    one. *)
Record All := {
  values : list (option T);
  result : option (list T + E)
}.

Fixpoint fill (index : nat) (value : T) (slots : list (option T))
  : list (option T) :=
  match slots, index with
  | [], _ => []
  | _ :: rest, O => Some value :: rest
  | slot :: rest, S i => slot :: fill i value rest
  end.

(** The [values] array when no slot is left empty. *)
Fixpoint complete (slots : list (option T)) : option (list T) :=
  match slots with
  | [] => Some []
  | None :: _ => None
  | Some v :: rest =>
      match complete rest with
      | Some vs => Some (v :: vs)
      | None => None
      end
  end.

(** Every slot is empty or holds the value of its promise. *)
Definition fits (slots : list (option T)) (vals : list T) : Prop :=
  Forall2 (fun slot v => slot = None \/ slot = Some v) slots vals.

(** [Promise.all] of [n] promises: of none, it is fulfilled with [[]]. *)
Definition start (n : nat) : All :=
  {| values := repeat None n;
     result := match n with O => Some (inl []) | S _ => None end |}.

(** Member [index] is fulfilled: its value takes its slot, and the last
    missing value fulfils the whole. *)
Definition on_fulfilled (index : nat) (value : T) (a : All) : All :=
  let slots := fill index value (values a) in
  {| values := slots;
     result := match result a with
               | Some r => Some r
               | None =>
                   match complete slots with
                   | Some vs => Some (inl vs)
                   | None => None
                   end
               end |}.

(** A member is rejected: so is the whole, unless it is settled. *)
Definition on_rejected (reason : E) (a : All) : All :=
  {| values := values a;
     result := match result a with
               | Some r => Some r
               | None => Some (inr reason)
               end |}.

(** The promises settle in the order [schedule] lists their indices. *)
Definition settle (promises : list Promise) (a : All) (index : nat) : All :=
  match nth_error promises index with
  | Some (Some (Resolved v)) => on_fulfilled index v a
  | Some (Some (Failed e)) => on_rejected e a
  | _ => a
  end.

Definition all (promises : list Promise) (schedule : list nat)
  : option (list T + E) :=
  result (fold_left (settle promises) schedule (start (length promises))).

End Combinator.

Arguments Resolved {T E} value.
Arguments Failed {T E} reason.
Arguments values {T E} a.
Arguments result {T E} a.
Arguments fill {T} index value slots.
Arguments complete {T} slots.
Arguments fits {T} slots vals.
Arguments start {T E} n.
Arguments on_fulfilled {T E} index value a.
Arguments on_rejected {T E} reason a.
Arguments settle {T E} promises a index.
Arguments all {T E} promises schedule.

End PromiseAll.

(* ================================================================== *)
(** ** Commands ([SvnCommands]) *)
(* ================================================================== *)

Module Commands.

(** Modelled from the spec: the [Status] enumeration is declared in a file
    that is not among the sources; these are the members the command layer
    names, and [OTHER] stands for any member it does not name. *)
Inductive Status :=
| ADDED | CONFLICTED | DELETED | IGNORED | MISSING | MODIFIED | REPLACED
| UNVERSIONED
| OTHER (name : jsstring).

Inductive SvnUriAction := LOG | PATCH | SHOW.

(** Modelled from the spec: [toSvnUri] (helpers/uri) is not among the
    sources; the reference it synthesizes is kept as the record of its
    arguments, next to plain [Uri]s with their scheme and [fsPath]. *)
Inductive Uri :=
| PlainUri (scheme fsPath : jsstring)
| SvnUri (target : Uri) (action : SvnUriAction) (ref : jsstring).

Definition toSvnUri (uri : Uri) (action : SvnUriAction) (ref : jsstring)
  : Uri :=
  SvnUri uri action ref.

Fixpoint fsPath (uri : Uri) : jsstring :=
  match uri with
  | PlainUri _ path => path
  | SvnUri target _ _ => fsPath target
  end.

(** The fields of [Resource] the commands read. *)
Record Resource := {
  resourceUri : Uri;
  type : Status;
  renameResourceUri : option Uri
}.

(** A [SourceControlResourceState]: a [Resource] of this extension, or a
    state of another kind. *)
Inductive SourceControlResourceState :=
| OfResource (r : Resource)
| Foreign (uri : Uri).

Definition state_uri (state : SourceControlResourceState) : Uri :=
  match state with
  | OfResource r => resourceUri r
  | Foreign uri => uri
  end.

Definition is_ADDED (s : Status) : bool :=
  match s with
  | ADDED => true
  | _ => false
  end.

(** [resource.type === Status.ADDED && resource.renameResourceUri], with the
    rename source when the condition holds. *)
Definition rename_source (r : Resource) : option Uri :=
  if is_ADDED (type r) then renameResourceUri r else None.

(** *** [commitWithMessage] *)

(** What [commitWithMessage] asks of the repository. *)
Inductive CommitRequest :=
| NoCommit
| CommitFiles (message : jsstring) (filePaths : list jsstring).

(** The [forEach] over the chosen group's states: the rename source of every
    added-with-rename [Resource] is pushed. *)
Fixpoint push_rename_paths (states : list SourceControlResourceState)
         (filePaths : list jsstring) : list jsstring :=
  match states with
  | [] => filePaths
  | OfResource r :: rest =>
      match rename_source r with
      | Some old => push_rename_paths rest (filePaths ++ [fsPath old])
      | None => push_rename_paths rest filePaths
      end
  | Foreign _ :: rest => push_rename_paths rest filePaths
  end.

(** [message] is [repository.inputBox.value]; [choice] is what
    [inputCommitChangelist] resolved to, given by the states of its resource
    group. *)
Definition commitWithMessage (message : jsstring)
           (choice : option (list SourceControlResourceState))
  : CommitRequest :=
  if negb (truthy message) then NoCommit
  else match choice with
       | None => NoCommit
       | Some resourceStates =>
           let filePaths :=
             map (fun state => fsPath (state_uri state)) resourceStates in
           CommitFiles message (push_rename_paths resourceStates filePaths)
       end.

(** *** [commit] *)

(** An argument a command is called with: a resource state, or a value whose
    [resourceUri] is not a [Uri]. *)
Inductive CommandArg :=
| State (s : SourceControlResourceState)
| NotAState.

(** [resources.filter(s => s instanceof Resource)]. *)
Fixpoint resources_of (args : list CommandArg) : list Resource :=
  match args with
  | [] => []
  | State (OfResource r) :: rest => r :: resources_of rest
  | _ :: rest => resources_of rest
  end.

(** The [forEach] over the selection: the rename source of every
    added-with-rename resource is pushed. *)
Fixpoint push_rename_uris (selection : list Resource) (uris : list Uri)
  : list Uri :=
  match selection with
  | [] => uris
  | resource :: rest =>
      match rename_source resource with
      | Some old => push_rename_uris rest (uris ++ [old])
      | None => push_rename_uris rest uris
      end
  end.

(** The selection of [commit], or [None] when it returns before having
    one; [scmResource] is what [getSCMResource()] finds. *)
Definition commit_selection (scmResource : option Resource)
           (resources : list CommandArg) : option (list Resource) :=
  match resources with
  | [] | NotAState :: _ =>
      match scmResource with
      | Some resource => Some (resources_of [State (OfResource resource)])
      | None => None
      end
  | State _ :: _ => Some (resources_of resources)
  end.

(** The [Uri]s [commit] hands to [runByRepository]. *)
Definition commit_uris (scmResource : option Resource)
           (resources : list CommandArg) : option (list Uri) :=
  match commit_selection scmResource resources with
  | None => None
  | Some selection =>
      Some (push_rename_uris selection (map resourceUri selection))
  end.

(** *** [runByRepository] *)

Section Dispatch.

(** Repository handles are compared with [===]; [getRepository] is
    [this.model.getRepository]. *)
Variable Repository : Type.
Hypothesis Repository_eq_dec : forall a b : Repository, {a = b} + {a <> b}.
Variable getRepository : Uri -> option Repository.

Record Group := {
  repository : Repository;
  resources : list Uri
}.

(** The two branches on [tuple]: [resource] is pushed onto the first group of
    its repository, or a new group is pushed onto [result]. *)
Fixpoint add_to_groups (repo : Repository) (resource : Uri)
         (result : list Group) : list Group :=
  match result with
  | [] => [{| repository := repo; resources := [resource] |}]
  | p :: rest =>
      if Repository_eq_dec (repository p) repo
      then {| repository := repository p;
              resources := resources p ++ [resource] |} :: rest
      else p :: add_to_groups repo resource rest
  end.

(** The accumulator of the [reduce], with the resources [console.warn] was
    called for. *)
Record Grouping := {
  groups : list Group;
  warned : list Uri
}.

(** The callback of the [reduce]. *)
Definition group_step (acc : Grouping) (resource : Uri) : Grouping :=
  match getRepository resource with
  | None => {| groups := groups acc; warned := warned acc ++ [resource] |}
  | Some repo =>
      {| groups := add_to_groups repo resource (groups acc);
         warned := warned acc |}
  end.

Definition group_resources (resources : list Uri) : Grouping :=
  fold_left group_step resources {| groups := []; warned := [] |}.

(** The grouping in the words of the specification.  [owners] lists the
    repository of every resource that has one, [first_seen] keeps of a list
    the first occurrence of each member, and [owned_by] picks the resources
    of one repository, in the order they came. *)
Fixpoint owners (resources : list Uri) : list Repository :=
  match resources with
  | [] => []
  | resource :: rest =>
      match getRepository resource with
      | Some repo => repo :: owners rest
      | None => owners rest
      end
  end.

Fixpoint first_seen (repos : list Repository) : list Repository :=
  match repos with
  | [] => []
  | repo :: rest => repo :: remove Repository_eq_dec repo (first_seen rest)
  end.

Definition owner_is (repo : Repository) (resource : Uri) : bool :=
  match getRepository resource with
  | Some repo' => if Repository_eq_dec repo' repo then true else false
  | None => false
  end.

Definition owned_by (repo : Repository) (resources : list Uri) : list Uri :=
  filter (owner_is repo) resources.

Definition resolvable (resource : Uri) : bool :=
  match getRepository resource with
  | Some _ => true
  | None => false
  end.

(** The groups of the repositories [repos], each with the resources [f]
    gives it. *)
Definition groups_of (f : Repository -> list Uri) (repos : list Repository)
  : list Group :=
  map (fun repo => {| repository := repo; resources := f repo |}) repos.

(** Every resource of every group, group after group. *)
Definition grouped (gs : list Group) : list Uri :=
  concat (map resources gs).

(** What [fn] receives besides the repository: [resources[0]] when
    [runByRepository] was given one [Uri], the group's array otherwise. *)
Inductive Target :=
| Single (resource : option Uri)
| Several (resources : list Uri).

Variables T E : Type.

(** [fn] by the fate of the promise it returns. *)
Variable fn : Repository -> Target -> PromiseAll.Promise T E.

(** The calls [groups.map] makes, in order. *)
Definition calls (isSingleResource : bool) (gs : list Group)
  : list (Repository * Target) :=
  map (fun g =>
         (repository g,
          if isSingleResource then Single (hd_error (resources g))
          else Several (resources g))) gs.

(** [runByRepository(arg, fn)]: the warnings, the calls of [fn], and what the
    returned [Promise.all] comes to when the promises settle in the order of
    [schedule]. *)
Record Dispatched := {
  d_warned : list Uri;
  d_calls : list (Repository * Target);
  d_result : option (list T + E)
}.

Definition runByRepository (arg : Uri + list Uri) (schedule : list nat)
  : Dispatched :=
  let resources := match arg with inl uri => [uri] | inr uris => uris end in
  let isSingleResource := match arg with inl _ => true | inr _ => false end in
  let grouping := group_resources resources in
  let cs := calls isSingleResource (groups grouping) in
  let promises := map (fun c => fn (fst c) (snd c)) cs in
  {| d_warned := warned grouping;
     d_calls := cs;
     d_result := PromiseAll.all promises schedule |}.

End Dispatch.

Arguments repository {Repository} g.
Arguments resources {Repository} g.
Arguments groups {Repository} g.
Arguments warned {Repository} g.
Arguments add_to_groups {Repository} Repository_eq_dec repo resource result.
Arguments group_step {Repository} Repository_eq_dec getRepository acc resource.
Arguments group_resources {Repository} Repository_eq_dec getRepository
  resources.
Arguments owners {Repository} getRepository resources.
Arguments first_seen {Repository} Repository_eq_dec repos.
Arguments owner_is {Repository} Repository_eq_dec getRepository repo resource.
Arguments owned_by {Repository} Repository_eq_dec getRepository repo resources.
Arguments resolvable {Repository} getRepository resource.
Arguments runByRepository {Repository} Repository_eq_dec getRepository {T E}
  fn arg schedule.
Arguments groups_of {Repository} f repos.
Arguments grouped {Repository} gs.
Arguments calls {Repository} isSingleResource gs.
Arguments d_warned {Repository T E} d.
Arguments d_calls {Repository T E} d.
Arguments d_result {Repository T E} d.

(** *** Diff endpoints and title *)

(** The functions of Node's [path] module [getTitle] calls. *)
Record PathModule := {
  basename : jsstring -> jsstring;
  dirname : jsstring -> jsstring;
  relative : jsstring -> jsstring -> jsstring
}.

(** A parameter [against: string = ""]: the default stands in for
    [undefined]. *)
Definition or_empty (against : option jsstring) : jsstring :=
  match against with
  | Some ref => ref
  | None => []
  end.

Definition getLeftResource (resource : Resource) (against : option jsstring)
  : option Uri :=
  match rename_source resource with
  | Some old => Some (toSvnUri old SHOW (or_empty against))
  | None =>
      match type resource with
      | CONFLICTED | MODIFIED | REPLACED =>
          Some (toSvnUri (resourceUri resource) SHOW (or_empty against))
      | _ => None
      end
  end.

Definition getRightResource (resource : Resource) (against : option jsstring)
  : option Uri :=
  match type resource with
  | ADDED | CONFLICTED | IGNORED | MODIFIED | UNVERSIONED | REPLACED =>
      Some (resourceUri resource)
  | DELETED | MISSING =>
      Some (toSvnUri (resourceUri resource) SHOW (or_empty against))
  | OTHER _ => None
  end.

Definition getTitle (path : PathModule) (resource : Resource)
           (against : option jsstring) : jsstring :=
  match rename_source resource with
  | Some old =>
      let basename := basename path (fsPath old) in
      let newname :=
        relative path (dirname path (fsPath old))
                 (fsPath (resourceUri resource)) in
      match truthy_opt against with
      | Some ref =>
          basename ++ lit " -> " ++ newname ++ lit " (" ++ ref ++ lit ")"
      | None => basename ++ lit " -> " ++ newname
      end
  | None =>
      let basename := basename path (fsPath (resourceUri resource)) in
      match truthy_opt against with
      | Some ref => basename ++ lit " (" ++ ref ++ lit ")"
      | None => []
      end
  end.

End Commands.

(* ================================================================== *)
(** ** Sample inputs *)
(* ================================================================== *)

Module Samples.

Import Exec.

Definition ascii_bytes (s : string) : bytes :=
  map byte_of_ascii (list_ascii_of_string s).

(** A platform whose configured default encoding is not an encoding, and
    whose detector is sure of windows-1252. *)
Definition misconfigured : Platform :=
  {| default_encoding := Some (lit "latin-42");
     encodingExists :=
       fun e => eqb e (lit "windows-1252") || eqb e (lit "utf8");
     isUtf8 := fun _ => false;
     detect := fun _ _ => {| g_encoding := Some (lit "windows-1252");
                             g_confidence := (95 # 100)%Q |};
     decode := fun b _ => map Byte.to_N b;
     toString := fun b => map Byte.to_N b;
     utf8_exists := eq_refl |}.

Definition svn : Svn :=
  {| svnPath := lit "/usr/bin/svn"; version := lit "1.9.7"; lastCwd := [] |}.

Definition no_options : ICpOptions :=
  {| o_cwd := None; o_username := None; o_password := None; o_log := None;
     o_encoding := None |}.

(** Options with an encoding hint that is no encoding. *)
Definition unknown_hint : ICpOptions :=
  {| o_cwd := None; o_username := None; o_password := None; o_log := None;
     o_encoding := Some (lit "bogus") |}.

(** A process that could not be started. *)
Definition launch_failure : list Event :=
  [ProcessError (lit "spawn /usr/bin/svn ENOENT")].

(** A process that prints an authorization failure and exits with 1. *)
Definition denied : list Event :=
  [StreamData Stderr (ascii_bytes "svn: E170001: Authorization failed");
   ProcessExit (Some 1%Z);
   StreamClose Stdout;
   StreamClose Stderr].

(** A process that prints a revision and exits with 0. *)
Definition succeeded : list Event :=
  [StreamData Stdout (ascii_bytes "At revision 7.");
   StreamClose Stdout;
   StreamClose Stderr;
   ProcessExit (Some 0%Z)].

(** Two working copies, [/a] and [/b], told apart by the second code unit
    of a path; anything else belongs to none. *)
Definition two_repositories (uri : Commands.Uri) : option nat :=
  match Commands.fsPath uri with
  | _ :: 97%N :: _ => Some 1
  | _ :: 98%N :: _ => Some 2
  | _ => None
  end.

Definition file (path : string) : Commands.Uri :=
  Commands.PlainUri (lit "file") (lit path).

(** An operation that succeeds in the first working copy and fails in the
    second. *)
Definition fails_in_second (repo : nat) (target : Commands.Target)
  : PromiseAll.Promise nat jsstring :=
  match repo with
  | 1 => Some (PromiseAll.Resolved 10)
  | _ => Some (PromiseAll.Failed (lit "E155004"))
  end.

(** A file deleted in the working copy, and a file added under a new name. *)
Definition deleted_file : Commands.Resource :=
  {| Commands.resourceUri := file "/a/old.txt";
     Commands.type := Commands.DELETED;
     Commands.renameResourceUri := None |}.

Definition renamed_file : Commands.Resource :=
  {| Commands.resourceUri := file "/a/new.txt";
     Commands.type := Commands.ADDED;
     Commands.renameResourceUri := Some (file "/a/old.txt") |}.

(** A [path] module for paths with forward slashes, enough for the samples:
    the base name is what follows the last slash. *)
Definition posix : Commands.PathModule :=
  {| Commands.basename :=
       fun path => Exec.pop (Exec.split_separators [] false path);
     Commands.dirname := fun path => path;
     Commands.relative := fun _ to => to |}.

End Samples.

(* ================================================================== *)
(** ** More of [svn.ts]: what a trace delivers, [cpErrorHandler],
       [getRepositoryRoot] *)
(* ================================================================== *)

Module Launch.

Import Exec.

(** The events of a trace that one emitter emits, in order. *)
Definition emitted_by (ee : Emitter) (trace : list Event) : list Event :=
  filter (fun ev => Emitter_eqb (event_emitter ev) ee) trace.

(** The chunks stream [ee] emits in a trace, in order. *)
Definition chunks_of (ee : Emitter) (trace : list Event) : list bytes :=
  flat_map (chunk_of ee) trace.

(** No ['close'] of stream [ee] in the trace. *)
Definition stays_open (ee : Emitter) (trace : list Event) : Prop :=
  Forall (fun ev => closes ee ev = false) trace.

(** A text without slash and backslash. *)
Definition no_separator (s : jsstring) : Prop :=
  Forall (fun c => is_separator c = false) s.

(** The options of a call that gives none: [options: ICpOptions = {}]. *)
Definition default_options : ICpOptions :=
  {| o_cwd := None; o_username := None; o_password := None; o_log := None;
     o_encoding := None |}.

(** The values of [svnErrorCodes]. *)
Definition known_codes : list jsstring := map snd Classifier.svnErrorCodes.

(** What [cpErrorHandler] hands to its callback: the error as it came, or the
    [SvnError] built around it from [{ error, message, svnErrorCode }]. *)
Inductive Reason :=
| AsItCame (message : jsstring)
| Wrapped (error : jsstring) (message : jsstring) (svnErrorCode : jsstring).

(** [cpErrorHandler(cb)(err)], an error given by its [message]. *)
Definition cpErrorHandler {A : Type} (cb : Reason -> A) (err : jsstring) : A :=
  if includes (lit "ENOENT") err
  then cb (Wrapped err (lit "Failed to execute svn (ENOENT)")
                   (lit "NotASvnRepository"))
  else cb (AsItCame err).

(** What [parseInfoXml] comes to: rejected, or an info whose
    [wcInfo.wcrootAbspath] is there or not. *)
Inductive InfoXml :=
| ParseRejected
| Parsed (wcrootAbspath : option jsstring).

(** How [getRepositoryRoot] ends: with a path, with the [SvnError] of [exec]
    thrown on, or with [new Error("Unable to find repository root path")]. *)
Inductive RootResult :=
| RootPending
| Root (path : jsstring)
| RootSvnError (e : SvnError)
| RootError (message : jsstring).

Definition getRepositoryRoot (p : Platform)
           (parseInfoXml : jsstring -> InfoXml) (spawned : Spawned)
           (ratio : nat) (this : Svn) (path : jsstring) : RootResult :=
  match run_result (exec p spawned ratio this path [lit "info"; lit "--xml"]
                         default_options) with
  | Unsettled => RootPending
  | Fulfilled result =>
      match parseInfoXml (stdout result) with
      | Parsed wcrootAbspath =>
          match truthy_opt wcrootAbspath with
          | Some root => Root root
          | None => Root path
          end
      | ParseRejected => RootError (lit "Unable to find repository root path")
      end
  | Rejected (CommandFailure e) => RootSvnError e
  | Rejected _ => RootError (lit "Unable to find repository root path")
  end.

End Launch.

(* ================================================================== *)
(** ** More of the command layer *)
(* ================================================================== *)

Module Workflows.

Import Commands.

(** *** [_openResource], [openHEADFile] *)

Section Opening.

(** A selection of the active editor; [toString] is [Uri.prototype.toString]
    and [isDirectory] is [fs.statSync(path).isDirectory()], [None] when
    [statSync] throws. *)
Variable Selection : Type.
Variable toString : Uri -> jsstring.
Variable isDirectory : jsstring -> option bool.

(** [TextDocumentShowOptions]; [viewColumn] is always [ViewColumn.Active]. *)
Record TextDocumentShowOptions := {
  preserveFocus : option bool;
  preview : option bool;
  selection : option Selection
}.

(** How [_openResource] ends. *)
Inductive Opened :=
| NoRightResource                        (* [console.error("oh no")] *)
| StatThrew
| RightIsDirectory
| ShowTextDocument (uri : Uri) (opts : TextDocumentShowOptions)
| VscodeDiff (left right : Uri) (title : jsstring)
             (opts : TextDocumentShowOptions).

Definition _openResource (path : PathModule)
           (activeTextEditor : option (Uri * Selection))
           (resource : Resource) (against : option jsstring)
           (preview preserveFocus preserveSelection : option bool) : Opened :=
  let left := getLeftResource resource against in
  let right := getRightResource resource against in
  let title := getTitle path resource against in
  match right with
  | None => NoRightResource
  | Some rightUri =>
      match isDirectory (fsPath rightUri) with
      | None => StatThrew
      | Some true => RightIsDirectory
      | Some false =>
          let opts :=
            {| preserveFocus := preserveFocus;
               preview := preview;
               selection :=
                 match preserveSelection, activeTextEditor with
                 | Some true, Some (uri, sel) =>
                     if eqb (toString uri) (toString rightUri)
                     then Some sel else None
                 | _, _ => None
                 end |} in
          match left with
          | None => ShowTextDocument rightUri opts
          | Some leftUri => VscodeDiff leftUri rightUri title opts
          end
      end
  end.

(** [openResourceBase] and [openResourceHead]. *)
Definition openResourceBase (path : PathModule)
           (activeTextEditor : option (Uri * Selection))
           (resource : Resource) : Opened :=
  _openResource path activeTextEditor resource (Some (lit "BASE")) None
                (Some true) (Some false).

Definition openResourceHead (path : PathModule)
           (activeTextEditor : option (Uri * Selection))
           (resource : Resource) : Opened :=
  _openResource path activeTextEditor resource (Some (lit "HEAD")) None
                (Some true) (Some false).

End Opening.

Arguments NoRightResource {Selection}.
Arguments StatThrew {Selection}.
Arguments RightIsDirectory {Selection}.
Arguments ShowTextDocument {Selection} uri opts.
Arguments VscodeDiff {Selection} left right title opts.
Arguments _openResource {Selection} toString isDirectory path
  activeTextEditor resource against preview preserveFocus preserveSelection.
Arguments openResourceBase {Selection} toString isDirectory path
  activeTextEditor resource.
Arguments openResourceHead {Selection} toString isDirectory path
  activeTextEditor resource.

(** A resource with something to compare against: added with a rename
    source, conflicted, modified or replaced. *)
Definition has_left (resource : Resource) : bool :=
  match rename_source resource, type resource with
  | Some _, _ => true
  | None, (CONFLICTED | MODIFIED | REPLACED) => true
  | None, _ => false
  end.

(** How [openHEADFile] ends, its argument resolved to a resource or not. *)
Inductive HeadOpened :=
| NoResource
| NotAvailable (warning : jsstring)
| VscodeOpen (HEAD : Uri) (path : jsstring).

(** [join] is [path.join]. *)
Definition openHEADFile (path : PathModule)
           (join : jsstring -> jsstring -> jsstring)
           (resource : option Resource) : HeadOpened :=
  match resource with
  | None => NoResource
  | Some resource =>
      let HEAD := getLeftResource resource (Some (lit "HEAD")) in
      let basename := basename path (fsPath (resourceUri resource)) in
      match HEAD with
      | None =>
          NotAvailable ([34%N] ++ lit "HEAD version of '" ++ basename
                                ++ lit "' is not available." ++ [34%N])
      | Some HEAD =>
          let basedir := dirname path (fsPath (resourceUri resource)) in
          VscodeOpen HEAD (join basedir (lit "(HEAD) " ++ basename))
      end
  end.

(** *** [resolveAll] *)

(** What the user and the repository see of [resolveAll]. *)
Inductive ResolveEffect :=
| ShowInformationMessage (message : jsstring)
| ShowQuickPick (placeHolder : jsstring)
| Resolve (files : list jsstring) (action : jsstring)
| ShowErrorMessage (stderr : jsstring).

(** The [for ... of] loop over the conflicts, each given by its
    [resourceUri.path].  [answer n] is the label of the pick chosen at the
    [n]-th prompt, [None] when the prompt is dismissed; [resolve] is
    [repository.resolve], giving its response or the [stderr] of the error it
    throws. *)
Fixpoint resolve_each (answer : nat -> option jsstring)
         (resolve : list jsstring -> jsstring -> jsstring + jsstring)
         (n : nat) (conflicts : list jsstring) : list ResolveEffect :=
  match conflicts with
  | [] => []
  | conflict :: rest =>
      ShowQuickPick (lit "Select conflict option for " ++ conflict)
      :: match answer n with
         | None => []
         | Some label =>
             Resolve [conflict] label
             :: match resolve [conflict] label with
                | inl response => ShowInformationMessage response
                | inr stderr => ShowErrorMessage stderr
                end
             :: resolve_each answer resolve (S n) rest
         end
  end.

Definition resolveAll (answer : nat -> option jsstring)
           (resolve : list jsstring -> jsstring -> jsstring + jsstring)
           (conflicts : list jsstring) : list ResolveEffect :=
  match conflicts with
  | [] => [ShowInformationMessage (lit "No Conflicts")]
  | _ :: _ => []
  end ++ resolve_each answer resolve 0 conflicts.

(** The calls of [repository.resolve] among the effects. *)
Fixpoint resolve_calls (effects : list ResolveEffect)
  : list (list jsstring * jsstring) :=
  match effects with
  | [] => []
  | Resolve files action :: rest => (files, action) :: resolve_calls rest
  | _ :: rest => resolve_calls rest
  end.

(** *** [commitWithMessage], with what it asks and shows *)

Inductive CommitEffect :=
| InputCommitChangelist
| CommitFilesCall (message : jsstring) (filePaths : list jsstring)
| ShowInformation (result : jsstring)
| ShowError (error : jsstring).

(** The input box after the command, and what happened on the way. *)
Record CommitRun := {
  inputBox : jsstring;
  effects : list CommitEffect
}.

(** [commitFiles] is [repository.commitFiles], giving its result or the
    error it throws. *)
Definition commitWithMessage_run (message : jsstring)
           (choice : option (list SourceControlResourceState))
           (commitFiles : jsstring -> list jsstring -> jsstring + jsstring)
  : CommitRun :=
  if negb (truthy message)
  then {| inputBox := message; effects := [] |}
  else
    match commitWithMessage message choice with
    | NoCommit => {| inputBox := message; effects := [InputCommitChangelist] |}
    | CommitFiles message' filePaths =>
        match commitFiles message' filePaths with
        | inl result =>
            {| inputBox := [];
               effects := [InputCommitChangelist;
                           CommitFilesCall message' filePaths;
                           ShowInformation result] |}
        | inr error =>
            {| inputBox := message;
               effects := [InputCommitChangelist;
                           CommitFilesCall message' filePaths;
                           ShowError error] |}
        end
    end.

(** The rename sources a selection brings along, in selection order. *)
Definition rename_paths (states : list SourceControlResourceState)
  : list jsstring :=
  flat_map (fun state =>
              match state with
              | OfResource r =>
                  match rename_source r with
                  | Some old => [fsPath old]
                  | None => []
                  end
              | Foreign _ => []
              end) states.

Definition rename_uris (selection : list Resource) : list Uri :=
  flat_map (fun r => match rename_source r with
                     | Some old => [old]
                     | None => []
                     end) selection.

(** *** [revertChange] *)

(** A relative index of [Array.prototype.slice]: counted from the end when
    negative, and kept within the array. *)
Definition relative_index (k : Z) (len : nat) : nat :=
  if (k <? 0)%Z
  then Z.to_nat (Z.max (Z.of_nat len + k) 0)
  else Nat.min (Z.to_nat k) len.

(** [array.slice(start, end)]. *)
Definition slice {A : Type} (l : list A) (start finish : Z) : list A :=
  let k := relative_index start (length l) in
  let final := relative_index finish (length l) in
  firstn (final - k) (skipn k l).

(** [array.slice(start)]. *)
Definition slice_from {A : Type} (l : list A) (start : Z) : list A :=
  skipn (relative_index start (length l)) l.

(** The changes [revertChange] gives to [revertChanges], or [None] when no
    visible editor shows [uri]; editors are given by the string of their
    document's [Uri]. *)
Definition revertChange {A : Type} (visibleTextEditors : list jsstring)
           (uri : jsstring) (changes : list A) (index : Z)
  : option (list A) :=
  match filter (eqb uri) visibleTextEditors with
  | [] => None
  | _ :: _ => Some (slice changes 0 index ++ slice_from changes (index + 1))
  end.

(** *** [branch] *)

(** [\s]. *)
Definition is_whitespace (c : char16) : bool :=
  ((9 <=? c) && (c <=? 13))%N || (c =? 32)%N || (c =? 160)%N
  || (c =? 5760)%N || ((8192 <=? c) && (c <=? 8202))%N
  || (c =? 8232)%N || (c =? 8233)%N || (c =? 8239)%N || (c =? 8287)%N
  || (c =? 12288)%N || (c =? 65279)%N.

Definition head_is (c : char16) (s : jsstring) : bool :=
  match s with
  | c' :: _ => (c' =? c)%N
  | [] => false
  end.

(** The length of the match of
    [/^\.|\/\.|\.\.|~|\^|:|\/$|\.lock$|\.lock\/|\\|\*|\s|^\s*$|\.$/] at the
    head of [s], the alternatives tried in their order; [at_start] tells that
    the position is the start of the input. *)
Definition match_unsafe (at_start : bool) (s : jsstring) : option nat :=
  if at_start && head_is 46%N s then Some 1
  else if starts_with (lit "/.") s then Some 2
  else if starts_with (lit "..") s then Some 2
  else if head_is 126%N s then Some 1
  else if head_is 94%N s then Some 1
  else if head_is 58%N s then Some 1
  else if eqb s (lit "/") then Some 1
  else if eqb s (lit ".lock") then Some 5
  else if starts_with (lit ".lock/") s then Some 6
  else if head_is 92%N s then Some 1
  else if head_is 42%N s then Some 1
  else if match s with c :: _ => is_whitespace c | [] => false end
  then Some 1
  else if at_start && forallb is_whitespace s then Some (length s)
  else if eqb s (lit ".") then Some 1
  else None.

(** The global replace by ["-"], read from left to right: [skip] code units
    of a match are still to be dropped. *)
Fixpoint replace_unsafe (skip : nat) (at_start : bool) (s : jsstring)
  : jsstring :=
  match s with
  | [] => []
  | c :: s' =>
      match skip with
      | S k => replace_unsafe k false s'
      | O =>
          match match_unsafe at_start s with
          | Some (S k) => 45%N :: replace_unsafe k false s'
          | _ => c :: replace_unsafe 0 false s'
          end
      end
  end.

(** The name [branch] gives to [repository.branch], [None] when the input
    box is dismissed or left empty. *)
Definition branch (result : option jsstring) : option jsstring :=
  match truthy_opt result with
  | None => None
  | Some result => Some (replace_unsafe 0 true result)
  end.

(** The code units the pattern replaces wherever they stand. *)
Definition is_unsafe (c : char16) : bool :=
  (c =? 126)%N || (c =? 94)%N || (c =? 58)%N || (c =? 92)%N || (c =? 42)%N
  || is_whitespace c.

(** *** [SwitchBranchItem] *)

(** [s.split(sep)] for a separator of one code unit; [cur] holds the part
    being read, reversed. *)
Fixpoint split_on (sep : char16) (cur : jsstring) (s : jsstring)
  : list jsstring :=
  match s with
  | [] => [rev cur]
  | c :: s' =>
      if (c =? sep)%N then rev cur :: split_on sep [] s'
      else split_on sep (c :: cur) s'
  end.

Record SwitchBranchItem := {
  ref : jsstring;
  tree : jsstring;
  name : jsstring
}.

(** The constructor. *)
Definition newSwitchBranchItem (ref : jsstring) : SwitchBranchItem :=
  let parts := split_on 47%N [] ref in
  match truthy_opt (nth_error parts 1) with
  | Some second =>
      {| ref := ref; tree := nth 0 parts []; name := second |}
  | None =>
      {| ref := ref; tree := nth 0 parts []; name := nth 0 parts [] |}
  end.

Definition label (item : SwitchBranchItem) : jsstring := name item.

Definition description (item : SwitchBranchItem) : jsstring := tree item.

(** *** [addFile] *)

(** [getResourceStates]: the [Resource]s among the states a command is
    called with, or the resource [getSCMResource()] finds when it is called
    with none. *)
Definition getResourceStates (scmResource : option Resource)
           (resourceStates : list CommandArg) : list Resource :=
  match resourceStates with
  | [] | NotAState :: _ =>
      match scmResource with
      | Some resource => resources_of [State (OfResource resource)]
      | None => []
      end
  | State _ :: _ => resources_of resourceStates
  end.

Section AddFile.

Variable Repository : Type.
Hypothesis Repository_eq_dec : forall a b : Repository, {a = b} + {a <> b}.
Variable getRepository : Uri -> option Repository.

(** [repository.addFiles(paths)] by its fate: [None] while it is pending,
    else its result or the error it throws. *)
Variable addFiles :
  Repository -> list jsstring -> option (jsstring + jsstring).

(** The callback of [addFile]: the error of [addFiles] is caught and shown,
    so that the promise is fulfilled with [undefined] either way.  Given a
    [Uri] that is no array, [resources.map] throws. *)
Definition addFile_fn (repository : Repository) (resources : Target)
  : PromiseAll.Promise unit jsstring :=
  match resources with
  | Several resources =>
      let paths := map fsPath resources in
      match addFiles repository paths with
      | None => None
      | Some _ => Some (PromiseAll.Resolved tt)
      end
  | Single _ =>
      Some (PromiseAll.Failed
              (lit "TypeError: resources.map is not a function"))
  end.

(** [addFile(...resourceStates)]: [None] when it returns for want of a
    selection. *)
Definition addFile (scmResource : option Resource)
           (resourceStates : list CommandArg) (schedule : list nat)
  : option (Dispatched Repository unit jsstring) :=
  let selection := getResourceStates scmResource resourceStates in
  match selection with
  | [] => None
  | _ :: _ =>
      let uris := map resourceUri selection in
      Some (runByRepository Repository_eq_dec getRepository addFile_fn
                            (inr uris) schedule)
  end.

End AddFile.

Arguments addFile_fn {Repository} addFiles repository resources.
Arguments addFile {Repository} Repository_eq_dec getRepository addFiles
  scmResource resourceStates schedule.

(** *** [createCommand] *)

Section CreateCommand.

(** Repositories, the arguments of a command, what a method gives and what
    is thrown. *)
Variables Repository Arg Value Err : Type.

(** A promise by its fate: it stays pending, or it settles. *)
Inductive Settled (A : Type) :=
| Pending
| Fulfilled (value : A)
| Rejected (reason : Err).

(** What a call comes to: it throws, or it returns what [Promise.resolve]
    makes a promise of. *)
Inductive Applied (A : Type) :=
| Throws (err : Err)
| Returns (promise : Settled A).

Arguments Pending {A}.
Arguments Fulfilled {A} value.
Arguments Rejected {A} reason.
Arguments Throws {A} err.
Arguments Returns {A} promise.

(** [promise.then(onFulfilled)]. *)
Definition then_ {A B : Type} (promise : Settled A)
           (onFulfilled : A -> Applied B) : Settled B :=
  match promise with
  | Pending => Pending
  | Fulfilled value =>
      match onFulfilled value with
      | Throws err => Rejected err
      | Returns next => next
      end
  | Rejected reason => Rejected reason
  end.

(** [promise.catch(onRejected)]. *)
Definition catch_ {A : Type} (promise : Settled A)
           (onRejected : Err -> Applied A) : Settled A :=
  match promise with
  | Pending => Pending
  | Fulfilled value => Fulfilled value
  | Rejected reason =>
      match onRejected reason with
      | Throws err => Rejected err
      | Returns next => next
      end
  end.

(** A call of a created command that returns: its promise, and what it
    wrote with [console.error]. *)
Record Called := {
  promise : Settled (option Value);
  console : list Err
}.

(** [result.catch(err => { console.error(err); })]. *)
Definition caught (result : Settled (option Value)) : Called :=
  {| promise := catch_ result (fun err => Returns (Fulfilled None));
     console := match result with
                | Rejected err => [err]
                | _ => []
                end |}.

(** The promise of the repository a command runs with: that of the first
    argument, else the only open one, else what the user picks.
    [getRepository] is [model.getRepository], given [args[0]];
    [repositories] is [model.repositories]; [pickRepository] is the promise
    of [model.pickRepository()]. *)
Definition repositoryPromise
           (getRepository : option Arg -> option Repository)
           (repositories : list Repository)
           (pickRepository : Settled (option Repository))
           (args : list Arg) : Settled (option Repository) :=
  match getRepository (hd_error args) with
  | Some repository => Fulfilled (Some repository)
  | None =>
      match repositories with
      | [only] => Fulfilled (Some only)
      | _ => pickRepository
      end
  end.

(** A call of the function [createCommand] returns, with [args]; [inl] when
    the call throws.  [method] is [method.apply(this, ...)], and
    [of_repository] makes a repository an argument. *)
Definition createCommand
           (getRepository : option Arg -> option Repository)
           (repositories : list Repository)
           (pickRepository : Settled (option Repository))
           (of_repository : Repository -> Arg)
           (method : list Arg -> Applied (option Value))
           (options_repository : bool) (args : list Arg)
  : Err + Called :=
  if negb options_repository
  then
    match method args with
    | Throws err => inl err
    | Returns result => inr (caught result)
    end
  else
    inr (caught
           (then_ (repositoryPromise getRepository repositories
                                     pickRepository args)
                  (fun repository =>
                     match repository with
                     | None => Returns (Fulfilled None)
                     | Some repository =>
                         method (of_repository repository :: args)
                     end))).

End CreateCommand.

Arguments Pending {Err A}.
Arguments Fulfilled {Err A} value.
Arguments Rejected {Err A} reason.
Arguments Throws {Err A} err.
Arguments Returns {Err A} promise.
Arguments then_ {Err A B} promise onFulfilled.
Arguments catch_ {Err A} promise onRejected.
Arguments promise {Value Err} c.
Arguments console {Value Err} c.
Arguments createCommand {Repository Arg Value Err} getRepository repositories
  pickRepository of_repository method options_repository args.
Arguments caught {Value Err} result.
Arguments repositoryPromise {Repository Arg Err} getRepository repositories
  pickRepository args.

End Workflows.

(* ================================================================== *)
(** ** The property picks ([pickList/propertyPickList.ts]) *)
(* ================================================================== *)

Module PropertyPickList.

Import Commands.

Inductive PropertyPick :=
| PropertyExecutablePick
| PropertyIgnorePick
| PropertyMimeTypePick
| PropertyEOLStylePick.

Definition label (pick : PropertyPick) : jsstring :=
  match pick with
  | PropertyExecutablePick => lit "executable"
  | PropertyIgnorePick => lit "ignore"
  | PropertyMimeTypePick => lit "mime-type"
  | PropertyEOLStylePick => lit "eol-style"
  end.

Definition description (pick : PropertyPick) : jsstring :=
  match pick with
  | PropertyExecutablePick => []
  | PropertyIgnorePick => []
  | PropertyMimeTypePick => lit "Set the mime-type for file"
  | PropertyEOLStylePick => lit "Select the line-ending for this file"
  end.

Definition getPropertyPicks : list PropertyPick :=
  [PropertyExecutablePick; PropertyIgnorePick; PropertyMimeTypePick;
   PropertyEOLStylePick].

(** The items of the line-ending quick pick. *)
Inductive EOLItem := CRLF | LF.

Definition eol_label (item : EOLItem) : jsstring :=
  match item with
  | CRLF => lit "CRLF"
  | LF => lit "LF"
  end.

(** What a pick's [run] asks of the repository, or how it ends before. *)
Inductive PickRun :=
| Returned                      (* nothing entered, nothing chosen *)
| NotValid (message : jsstring) (* [window.showErrorMessage] *)
| Propset (name : jsstring) (args : list jsstring)
| Ignore (directory filename : jsstring).

(** [run(repository, fsPath)]: [getType] is [Mime.getType], [inputBox] what
    [window.showInputBox] resolves to and [quickPick] what
    [window.showQuickPick] does. *)
Definition run (path : PathModule) (getType : jsstring -> option jsstring)
           (inputBox : option jsstring) (quickPick : option EOLItem)
           (pick : PropertyPick) (fsPath : jsstring) : PickRun :=
  match pick with
  | PropertyExecutablePick => Propset (label pick) [lit "ON"; fsPath]
  | PropertyIgnorePick => Ignore (dirname path fsPath) (basename path fsPath)
  | PropertyMimeTypePick =>
      match truthy_opt inputBox with
      | None => Returned
      | Some mimeType =>
          match truthy_opt (getType mimeType) with
          | None => NotValid (lit "mime-type is not valid")
          | Some _ => Propset (label pick) [mimeType; fsPath]
          end
      end
  | PropertyEOLStylePick =>
      match quickPick with
      | None => Returned
      | Some choice => Propset (label pick) [eol_label choice; fsPath]
      end
  end.

End PropertyPickList.
(* ================================================================== *)
(** * Properties *)
(* ================================================================== *)

(** ** Strings *)

Lemma eqb_eq (a b : jsstring) : eqb a b = true <-> a = b.
Proof.
  unfold eqb. destruct (jsstring_dec a b); split; congruence.
Qed.

Lemma starts_with_app (p s : jsstring) : starts_with p (p ++ s) = true.
Proof.
  induction p as [|a p IH]; simpl; [reflexivity|].
  now rewrite N.eqb_refl, IH.
Qed.

Lemma starts_with_prefix (p s : jsstring) :
  starts_with p s = true -> exists t, s = p ++ t.
Proof.
  revert s. induction p as [|a p IH]; intros s H.
  - now exists s.
  - destruct s as [|b s]; simpl in H; [discriminate|].
    apply andb_true_iff in H. destruct H as [Hab Hp].
    apply N.eqb_eq in Hab. subst b.
    destruct (IH _ Hp) as [t ->]. now exists t.
Qed.

Lemma includes_head (p s : jsstring) :
  starts_with p s = true -> includes p s = true.
Proof.
  intros H. destruct s; simpl; rewrite H; reflexivity.
Qed.

(** [includes] is the substring relation. *)
Lemma includes_iff (p s : jsstring) :
  includes p s = true <-> exists pre post, s = pre ++ p ++ post.
Proof.
  split.
  - induction s as [|c s IH]; simpl; intros H.
    + rewrite orb_false_r in H.
      destruct (starts_with_prefix _ _ H) as [t Ht]. now exists [], t.
    + apply orb_true_iff in H. destruct H as [H|H].
      * destruct (starts_with_prefix _ _ H) as [t Ht]. now exists [], t.
      * destruct (IH H) as (pre & post & ->). now exists (c :: pre), post.
  - intros (pre & post & ->). induction pre as [|c pre IH].
    + apply (includes_head p (p ++ post)), starts_with_app.
    + change (includes p (c :: (pre ++ p ++ post)) = true).
      simpl. rewrite IH. apply orb_true_r.
Qed.

(** ** Classifier *)

Import Classifier.

Lemma scan_first (pre post : list (jsstring * jsstring))
      (name code stderr : jsstring) :
  no_token pre stderr ->
  includes (token code) stderr = true ->
  scan (pre ++ (name, code) :: post) stderr = Some code.
Proof.
  induction 1 as [|[k v] pre Hkv _ IH]; intros Hin; simpl.
  - now rewrite Hin.
  - simpl in Hkv. rewrite Hkv. auto.
Qed.

Lemma scan_none (table : list (jsstring * jsstring)) (stderr : jsstring) :
  no_token table stderr -> scan table stderr = None.
Proof.
  induction 1 as [|[k v] table Hkv _ IH]; simpl; [reflexivity|].
  simpl in Hkv. now rewrite Hkv.
Qed.


(** C5.  [getSvnErrorCode] returns the code of the first entry of
    [svnErrorCodes], in insertion order, whose token [svn: <code>] occurs in
    stderr, whatever else stderr holds; when no token occurs and the
    credential-exhaustion phrase does, it returns the code bound to
    [AuthorizationFailed]; when neither occurs it returns [undefined]. *)
Theorem getSvnErrorCode_first_match (stderr : jsstring) :
  (forall pre name code post,
      svnErrorCodes = pre ++ (name, code) :: post ->
      no_token pre stderr ->
      includes (token code) stderr = true ->
      getSvnErrorCode stderr = Some code)
  /\ (no_token svnErrorCodes stderr ->
      includes credentials_phrase stderr = true ->
      getSvnErrorCode stderr
        = property (lit "AuthorizationFailed") svnErrorCodes
      /\ getSvnErrorCode stderr = Some (lit "E170001"))
  /\ (no_token svnErrorCodes stderr ->
      includes credentials_phrase stderr = false ->
      getSvnErrorCode stderr = None).
Proof.
  unfold getSvnErrorCode. split; [|split].
  - intros pre name code post Htable Hpre Hcode.
    rewrite Htable.
    now rewrite (scan_first pre post name code stderr Hpre Hcode).
  - intros Hnone Hphrase. rewrite (scan_none _ _ Hnone), Hphrase.
    split; reflexivity.
  - intros Hnone Hphrase. now rewrite (scan_none _ _ Hnone), Hphrase.
Qed.

Lemma getSvnErrorCode_first_match_witness :
  getSvnErrorCode
    (lit "svn: E155004: locked. No more credentials or we tried too many times")
    = Some (lit "E155004")
  /\ getSvnErrorCode (lit "No more credentials or we tried too many times")
     = Some (lit "E170001")
  /\ getSvnErrorCode (lit "svn: warning: W155010") = None.
Proof.
  split; [|split].
  - apply (proj1 (getSvnErrorCode_first_match _)
             [(lit "AuthorizationFailed", lit "E170001")]
             (lit "RepositoryIsLocked") (lit "E155004")
             [(lit "NotASvnRepository", lit "E155007");
              (lit "NotShareCommonAncestry", lit "E195012");
              (lit "WorkingCopyIsTooOld", lit "E155036")]).
    + reflexivity.
    + repeat constructor.
    + vm_compute. reflexivity.
  - apply (proj1 (proj2 (getSvnErrorCode_first_match _))).
    + repeat constructor.
    + vm_compute. reflexivity.
  - apply (proj2 (proj2 (getSvnErrorCode_first_match _))).
    + repeat constructor.
    + vm_compute. reflexivity.
Defined.

(** ** Executor: arguments, echo and encoding *)

Import Exec.

Lemma existsb_eqb_In (x : jsstring) (l : list jsstring) :
  In x l -> existsb (eqb x) l = true.
Proof.
  intros H. apply existsb_exists. exists x. split; [exact H|].
  now apply eqb_eq.
Qed.

Lemma push_option_keeps (flag : jsstring) (value : option jsstring)
      (args : list jsstring) (x : jsstring) :
  In x args -> In x (push_option flag value args).
Proof.
  unfold push_option. destruct (truthy_opt value); [|auto].
  intros H. apply in_or_app. now left.
Qed.

Lemma resolve_encoding_xml (p : Platform) (ratio : nat)
      (args : list jsstring) (encoding : jsstring) (out : bytes) :
  In (lit "--xml") args ->
  resolve_encoding p ratio args encoding out
  = {| r_encoding := lit "utf8"; r_output := []; r_ratio := ratio |}.
Proof.
  intros H. unfold resolve_encoding. now rewrite (existsb_eqb_In _ _ H).
Qed.

(** What a call comes to once the process has ended and both streams are
    closed. *)
Lemma exec_got (p : Platform) (trace : list Event) (ratio : nat)
      (this : Svn) (cwd : jsstring) (args : list jsstring)
      (options : ICpOptions) (code : option Z) (out : bytes)
      (err : jsstring) :
  awaited (run_events p trace) = Got code out err ->
  let args2 :=
    push_option (lit "--password") (o_password options)
      (push_option (lit "--username") (o_username options) args) in
  let r := resolve_encoding p ratio args2 (encoding_hint options) out in
  let echo :=
    if log_enabled options
    then [echo_line (if truthy cwd then cwd else lastCwd this) args]
    else [] in
  run_result (exec p (ChildProcess trace) ratio this cwd args options)
  = match iconv_decode p out (r_encoding r) with
    | None => Rejected (DecodeFailure (r_encoding r))
    | Some decodedStdout =>
        if truthy_code code
        then Rejected (CommandFailure
               {| err_message := lit "Failed to execute svn";
                  err_stdout := decodedStdout;
                  err_stderr := err;
                  err_stderrFormated := stderrFormated_of err;
                  err_exitCode := code;
                  err_svnErrorCode := Classifier.getSvnErrorCode err;
                  err_svnCommand := nth_error args2 0 |})
        else Fulfilled {| exitCode := code; stdout := decodedStdout;
                          stderr := err |}
    end
  /\ run_output (exec p (ChildProcess trace) ratio this cwd args options)
     = echo ++ r_output r
         ++ match iconv_decode p out (r_encoding r) with
            | None => []
            | Some _ =>
                if log_enabled options && truthy err
                then [err ++ [10%N]] else []
            end
  /\ run_ratio (exec p (ChildProcess trace) ratio this cwd args options)
     = r_ratio r.
Proof.
  intros Hgot. cbv zeta. unfold exec. rewrite Hgot. cbv zeta.
  destruct (truthy cwd); cbn [o_username o_password o_encoding o_log];
    unfold encoding_hint, log_enabled;
    cbn [o_username o_password o_encoding o_log];
    destruct (iconv_decode p out _);
    cbn [run_result run_output run_ratio];
    rewrite ?app_nil_r; repeat split; reflexivity.
Qed.

Lemma exec_xml_decoded_as_utf8
      (p : Platform) (trace : list Event) (ratio : nat) (this : Svn)
      (cwd : jsstring) (args : list jsstring) (options : ICpOptions)
      (code : option Z) (out : bytes) (err : jsstring) :
  In (lit "--xml") args ->
  awaited (run_events p trace) = Got code out err ->
  decoded_stdout (run_result (exec p (ChildProcess trace)
                                   ratio this cwd args options))
  = Some (decode p out (lit "utf8")).
Proof.
  intros Hxml Hgot.
  rewrite (proj1 (exec_got p trace ratio this cwd args options
                           code out err Hgot)).
  rewrite resolve_encoding_xml by (now do 2 apply push_option_keeps).
  cbn [r_encoding]. unfold iconv_decode. rewrite utf8_exists.
  now destruct (truthy_code code).
Qed.

Lemma log_enabled_with_credentials (options : ICpOptions)
      (u pw : option jsstring) :
  log_enabled (with_credentials options u pw) = log_enabled options.
Proof. reflexivity. Qed.

(** The first line [exec] emits on [onOutput] when logging is on: settled or
    not, it is the echo of the arguments as the caller gave them. *)
Lemma exec_echo_first (p : Platform) (spawned : Spawned) (ratio : nat)
      (this : Svn) (cwd : jsstring) (args : list jsstring)
      (options : ICpOptions) :
  log_enabled options = true ->
  hd_error (run_output (exec p spawned ratio this cwd args options))
  = Some (echo_line (if truthy cwd then cwd else lastCwd this) args).
Proof.
  intros Hlog. unfold exec.
  assert (Hlog' :
            log_enabled
              (if truthy cwd
               then {| o_cwd := Some cwd; o_username := o_username options;
                       o_password := o_password options;
                       o_log := o_log options;
                       o_encoding := o_encoding options |}
               else options) = true)
    by (destruct (truthy cwd); exact Hlog).
  rewrite Hlog'.
  destruct spawned as [error|trace]; [now destruct (truthy cwd)|].
  destruct (awaited (run_events p trace)) as [| |code out err];
    destruct (truthy cwd); try reflexivity;
    destruct (iconv_decode p out _); reflexivity.
Qed.

Lemma exec_args (p : Platform) (spawned : Spawned) (ratio : nat)
      (this : Svn) (cwd : jsstring) (args : list jsstring)
      (options : ICpOptions) :
  run_args (exec p spawned ratio this cwd args options)
  = push_option (lit "--password") (o_password options)
      (push_option (lit "--username") (o_username options) args).
Proof.
  unfold exec.
  destruct spawned as [error|trace]; [now destruct (truthy cwd)|].
  destruct (awaited (run_events p trace)) as [| |code out err];
    destruct (truthy cwd); try reflexivity;
    destruct (iconv_decode p out _); reflexivity.
Qed.

(** C10.  With logging on, the echo line of a call of [exec] is the same
    whatever user name and password its options carry, supplied or not, and
    whatever [cp.spawn] and the process then do: it is built from the
    working directory and the arguments as the caller gave them, and the
    credentials are pushed onto the argument vector afterwards. *)
Theorem echo_line_hides_credentials
        (p1 p2 : Platform) (spawned1 spawned2 : Spawned)
        (ratio1 ratio2 : nat)
        (this : Svn) (cwd : jsstring) (args : list jsstring)
        (options : ICpOptions) (u1 pw1 u2 pw2 : option jsstring) :
  log_enabled options = true ->
  let run1 := exec p1 spawned1 ratio1 this cwd args
                   (with_credentials options u1 pw1) in
  let run2 := exec p2 spawned2 ratio2 this cwd args
                   (with_credentials options u2 pw2) in
  hd_error (run_output run1) = hd_error (run_output run2)
  /\ hd_error (run_output run1)
     = Some (echo_line (if truthy cwd then cwd else lastCwd this) args)
  /\ run_args run1
     = push_option (lit "--password") pw1
         (push_option (lit "--username") u1 args).
Proof.
  intros Hlog run1 run2. subst run1 run2.
  rewrite !exec_echo_first by exact Hlog.
  repeat split. apply exec_args.
Qed.

Lemma echo_line_hides_credentials_witness :
  hd_error
    (run_output
       (exec Samples.misconfigured (ChildProcess Samples.denied) 0 Samples.svn
             (lit "/home/me/wc") [lit "update"]
             (with_credentials Samples.no_options
                (Some (lit "me")) (Some (lit "secret")))))
  = hd_error
      (run_output
         (exec Samples.misconfigured (ChildProcess Samples.succeeded)
               0 Samples.svn
               (lit "/home/me/wc") [lit "update"]
               (with_credentials Samples.no_options None None)))
  /\ hd_error
       (run_output
          (exec Samples.misconfigured (ChildProcess Samples.denied)
                0 Samples.svn
                (lit "/home/me/wc") [lit "update"]
                (with_credentials Samples.no_options
                   (Some (lit "me")) (Some (lit "secret")))))
     = Some (lit "[wc]$ svn update" ++ [10%N]).
Proof.
  pose proof (echo_line_hides_credentials
                Samples.misconfigured Samples.misconfigured
                (ChildProcess Samples.denied)
                (ChildProcess Samples.succeeded) 0 0 Samples.svn
                (lit "/home/me/wc") [lit "update"] Samples.no_options
                (Some (lit "me")) (Some (lit "secret")) None None
                eq_refl) as H.
  cbv zeta in H. destruct H as (H1 & H2 & _).
  split; [exact H1|]. rewrite H2. vm_compute. reflexivity.
Defined.

Lemma existsb_eqb_not_In (x : jsstring) (l : list jsstring) :
  ~ In x l -> existsb (eqb x) l = false.
Proof.
  intros H. destruct (existsb (eqb x) l) eqn:E; [|reflexivity].
  apply existsb_exists in E. destruct E as (y & Hy & Hxy).
  apply eqb_eq in Hxy. subst y. contradiction.
Qed.

(** C3, as the code has it.  Without ["--xml"] among the arguments, a
    configured default encoding that iconv does not know makes [exec] log one
    line naming it and decode stdout with the encoding hint of the options,
    ["utf8"] when there is none; the detector is not consulted (its ratio
    stays as it was). *)
Theorem invalid_default_encoding_keeps_hint
        (p : Platform) (ratio : nat) (args : list jsstring)
        (options : ICpOptions) (out : bytes) (defaultEncoding : jsstring) :
  ~ In (lit "--xml") args ->
  truthy_opt (default_encoding p) = Some defaultEncoding ->
  encodingExists p defaultEncoding = false ->
  resolve_encoding p ratio args (encoding_hint options) out
  = {| r_encoding := encoding_hint options;
       r_output := [invalid_encoding_line defaultEncoding];
       r_ratio := ratio |}
  /\ (truthy_opt (o_encoding options) = None ->
      encoding_hint options = lit "utf8").
Proof.
  intros Hxml Hcfg Hbad. split.
  - unfold resolve_encoding.
    now rewrite (existsb_eqb_not_In _ _ Hxml), Hcfg, Hbad.
  - intros Hhint. unfold encoding_hint. now rewrite Hhint.
Qed.

Lemma invalid_default_encoding_keeps_hint_witness :
  resolve_encoding Samples.misconfigured 0 [lit "log"]
    (encoding_hint Samples.no_options) (Samples.ascii_bytes "r7")
  = {| r_encoding := lit "utf8";
       r_output := [invalid_encoding_line (lit "latin-42")];
       r_ratio := 0 |}.
Proof.
  refine (proj1 (invalid_default_encoding_keeps_hint
                   Samples.misconfigured 0 [lit "log"] Samples.no_options
                   (Samples.ascii_bytes "r7") (lit "latin-42") _ _ _)).
  - intros [H|[]]. vm_compute in H. discriminate.
  - reflexivity.
  - vm_compute. reflexivity.
Defined.

(** C3, as the claim has it, at a sample: there the configured encoding is
    unknown to iconv and the detector is sure of windows-1252, yet [exec]
    decodes with ["utf8"], not with what detection comes to. *)
Lemma invalid_default_encoding_no_detection :
  let hint := encoding_hint Samples.no_options in
  let out := Samples.ascii_bytes "r7" in
  truthy_opt (default_encoding Samples.misconfigured) = Some (lit "latin-42")
  /\ encodingExists Samples.misconfigured (lit "latin-42") = false
  /\ r_encoding (detect_encoding Samples.misconfigured 0 hint out)
     = lit "windows-1252"
  /\ r_encoding (resolve_encoding Samples.misconfigured 0 [lit "log"] hint out)
     = lit "utf8"
  /\ r_encoding (resolve_encoding Samples.misconfigured 0 [lit "log"] hint out)
     <> r_encoding (detect_encoding Samples.misconfigured 0 hint out).
Proof.
  vm_compute. repeat split; discriminate.
Qed.

(** ** Executor: listeners and promises *)

Lemma filter_filter_and {A : Type} (f g : A -> bool) (l : list A) :
  filter f (filter g l) = filter (fun x => f x && g x) l.
Proof.
  induction l as [|x l IH]; simpl; [reflexivity|].
  destruct (g x); simpl; rewrite IH, ?andb_true_r, ?andb_false_r;
    reflexivity.
Qed.

Lemma dispose_registered (keep : Listener -> bool) :
  dispose registered (filter keep registered) = [].
Proof.
  unfold registered. simpl filter.
  destruct (keep on_error), (keep on_exit), (keep on_stdout_data),
    (keep on_stdout_close), (keep on_stderr_data), (keep on_stderr_close);
    reflexivity.
Qed.

Lemma listen_reachable : Reachable (fun _ => true) listen.
Proof.
  constructor; cbn; try reflexivity; intros; try split; reflexivity.
Qed.

Lemma called_listeners (keep : Listener -> bool) (ev : Event) :
  filter (fun l => listens_to ev l && keep l) registered
  = match ev with
    | ProcessError _ => if keep on_error then [on_error] else []
    | ProcessExit _ => if keep on_exit then [on_exit] else []
    | StreamData Stdout _ =>
        if keep on_stdout_data then [on_stdout_data] else []
    | StreamData Stderr _ =>
        if keep on_stderr_data then [on_stderr_data] else []
    | StreamClose Stdout =>
        if keep on_stdout_close then [on_stdout_close] else []
    | StreamClose Stderr =>
        if keep on_stderr_close then [on_stderr_close] else []
    | _ => []
    end.
Proof.
  destruct ev as [m|c|ee b|ee]; try destruct ee; reflexivity.
Qed.

Ltac use_invariants :=
  repeat match goal with
         | H : ?x = ?x -> _ |- _ => specialize (H eq_refl)
         | H : _ /\ _ |- _ => destruct H
         end.

Ltac rewrite_kept :=
  repeat match goal with
         | H : ?k ?l = true |- context [?k ?l] => rewrite H
         | H : ?k ?l = false |- context [?k ?l] => rewrite H
         end.

(** What one event does to the promises and the buffers, and that the
    invariant is kept. *)
Lemma step_reachable (p : Platform) (keep : Listener -> bool) (a : Await)
      (ev : Event) :
  Reachable keep a ->
  (exists keep', Reachable keep' (step p a ev))
  /\ exit_promise (step p a ev) = exit_next (exit_promise a) ev
  /\ stdout_promise (step p a ev)
     = match stdout_promise a with
       | Some out => Some out
       | None => if closes Stdout ev
                 then Some (concat (stdout_buffers a)) else None
       end
  /\ stderr_promise (step p a ev)
     = match stderr_promise a with
       | Some err => Some err
       | None => if closes Stderr ev
                 then Some (toString p (concat (stderr_buffers a)))
                 else None
       end
  /\ (stdout_promise a = None ->
      stdout_buffers (step p a ev) = stdout_buffers a ++ chunk_of Stdout ev)
  /\ (stderr_promise a = None ->
      stderr_buffers (step p a ev) = stderr_buffers a ++ chunk_of Stderr ev).
Proof.
  intros [Hl Hd Hex Hout Herr Hres Haw].
  destruct a as [ls ds ob eb ex po pe rs].
  cbn [listeners disposables stdout_buffers stderr_buffers exit_promise
       stdout_promise stderr_promise resumed] in *.
  subst ds.
  pose (keep' := fun l => negb (listens_to ev l && l_once l) && keep l).
  assert (Hkept : filter (fun l => negb (listens_to ev l && l_once l)) ls
                  = filter keep' registered)
    by (rewrite Hl; apply filter_filter_and).
  assert (Hcalled : filter (listens_to ev) ls
                    = filter (fun l => listens_to ev l && keep l) registered)
    by (rewrite Hl; apply filter_filter_and).
  unfold step, emit.
  cbn [listeners disposables stdout_buffers stderr_buffers exit_promise
       stdout_promise stderr_promise resumed].
  rewrite Hcalled, called_listeners.
  destruct ev as [m|c|ee b|ee]; try destruct ee.
  all: destruct ex, po, pe.
  all: unfold awaited in Hres, Haw; cbn in Hres, Haw; subst rs.
  all: use_invariants.
  all: repeat match goal with
              | |- context [if ?k ?l then _ else _] =>
                  destruct (k l) eqn:?
              end.
  all: try discriminate.
  all: unfold resume;
    cbn -[dispose filter registered keep' concat app].
  all: try match type of Haw with
           | ?x = [] =>
               is_var x;
               rewrite Haw; cbn [filter]; clear Hkept
           end.
  all: rewrite ?Hkept, ?dispose_registered.
  all: (split;
        [ | repeat split; intros; rewrite ?app_nil_r;
            try reflexivity; try discriminate ]).
  all: lazymatch goal with
       | |- exists _, Reachable _ ?s =>
           let l := eval cbn [listeners] in (listeners s) in
           lazymatch l with
           | [] => exists (fun _ => false)
           | filter ?k registered => exists k
           end
       | _ => idtac
       end.
  all: try (constructor;
            cbn [listeners disposables stdout_buffers stderr_buffers
                 exit_promise stdout_promise stderr_promise resumed awaited];
            intros; try discriminate; try reflexivity;
            unfold keep'; cbn -[registered]; rewrite_kept;
            repeat split; reflexivity).
Qed.

(** The promises after a whole trace, from any reachable state. *)
Lemma run_from_reachable (p : Platform) (trace : list Event) :
  forall (keep : Listener -> bool) (a : Await),
    Reachable keep a ->
    (exists keep', Reachable keep' (fold_left (step p) trace a))
    /\ exit_promise (fold_left (step p) trace a)
       = match exit_promise a with
         | ExitPending => exit_verdict trace
         | settled => settled
         end
    /\ stdout_promise (fold_left (step p) trace a)
       = match stdout_promise a with
         | Some out => Some out
         | None => collected Stdout (stdout_buffers a) trace
         end
    /\ stderr_promise (fold_left (step p) trace a)
       = match stderr_promise a with
         | Some err => Some err
         | None =>
             option_map (toString p)
                        (collected Stderr (stderr_buffers a) trace)
         end.
Proof.
  induction trace as [|ev rest IH]; intros keep a Ha.
  - cbn [fold_left exit_verdict collected option_map]. split; [eauto|].
    destruct (exit_promise a), (stdout_promise a), (stderr_promise a);
      repeat split; reflexivity.
  - cbn [fold_left].
    destruct (step_reachable p keep a ev Ha)
      as ([keep1 H1] & Hexit & Hout & Herr & Hob & Heb).
    destruct (IH keep1 _ H1) as (Hreach & IHexit & IHout & IHerr).
    split; [exact Hreach|].
    rewrite IHexit, IHout, IHerr, Hexit, Hout, Herr. clear IH.
    repeat split.
    + destruct (exit_promise a), ev; reflexivity.
    + destruct (stdout_promise a) eqn:E; [reflexivity|].
      rewrite (Hob eq_refl).
      destruct ev as [m|c|ee b|ee]; try destruct ee;
        cbn [closes chunk_of collected Emitter_eqb];
        rewrite ?app_nil_r; reflexivity.
    + destruct (stderr_promise a) eqn:E; [reflexivity|].
      rewrite (Heb eq_refl).
      destruct ev as [m|c|ee b|ee]; try destruct ee;
        cbn [closes chunk_of collected Emitter_eqb option_map];
        rewrite ?app_nil_r; reflexivity.
Qed.

(** What [await Promise.all(...)] comes to, by what the process emitted. *)
Lemma awaited_run_events (p : Platform) (trace : list Event) :
  awaited (run_events p trace)
  = match exit_verdict trace, collected Stdout [] trace,
          collected Stderr [] trace with
    | ExitRejected message, _, _ => Threw message
    | ExitResolved code, Some out, Some err =>
        Got code out (toString p err)
    | _, _, _ => StillPending
    end.
Proof.
  destruct (run_from_reachable p trace _ _ listen_reachable)
    as (_ & Hexit & Hout & Herr).
  unfold run_events, awaited. rewrite Hexit, Hout, Herr.
  cbn [listen once on spawned exit_promise stdout_promise stderr_promise
       stdout_buffers stderr_buffers].
  destruct (exit_verdict trace), (collected Stdout [] trace),
    (collected Stderr [] trace); reflexivity.
Qed.

Lemma run_events_reachable (p : Platform) (trace : list Event) :
  exists keep, Reachable keep (run_events p trace).
Proof.
  exact (proj1 (run_from_reachable p trace _ _ listen_reachable)).
Qed.

(** When the [await] is fulfilled, [dispose] has emptied the emitters. *)
Lemma got_leaves_no_listener (p : Platform) (trace : list Event)
      (code : option Z) (out : bytes) (err : jsstring) :
  awaited (run_events p trace) = Got code out err ->
  listeners (run_events p trace) = [].
Proof.
  intros Hgot. destruct (run_events_reachable p trace) as [keep H].
  pose proof (inv_await _ _ H) as Haw. now rewrite Hgot in Haw.
Qed.

(** When the [await] throws, the two ['data'] listeners stay. *)
Lemma threw_leaves_listeners (p : Platform) (trace : list Event)
      (message : jsstring) :
  awaited (run_events p trace) = Threw message ->
  In on_stdout_data (listeners (run_events p trace))
  /\ In on_stderr_data (listeners (run_events p trace)).
Proof.
  intros Hthrew. destruct (run_events_reachable p trace) as [keep H].
  pose proof (inv_await _ _ H) as Haw. rewrite Hthrew in Haw.
  rewrite (inv_listeners _ _ H).
  split; apply filter_In; (split; [cbn; tauto | apply Haw]).
Qed.

Lemma exec_listeners (p : Platform) (trace : list Event) (ratio : nat)
      (this : Svn) (cwd : jsstring) (args : list jsstring)
      (options : ICpOptions) :
  run_listeners (exec p (ChildProcess trace) ratio this cwd args options)
  = listeners (run_events p trace).
Proof.
  unfold exec.
  destruct (awaited (run_events p trace)) as [| |code out err];
    try reflexivity.
  destruct (iconv_decode p out _); reflexivity.
Qed.

(** On the path the code does clean up: when the process has ended and both
    streams are closed, no listener of [exec] is left on them. *)
Lemma exec_disposes_after_exit (p : Platform) (trace : list Event)
      (ratio : nat) (this : Svn) (cwd : jsstring) (args : list jsstring)
      (options : ICpOptions) (code : option Z) (out : bytes)
      (err : jsstring) :
  exits_with p trace code out err ->
  run_listeners (exec p (ChildProcess trace) ratio this cwd args options) = [].
Proof.
  intros (Hexit & Hout & Herr). rewrite exec_listeners.
  destruct (collected Stderr [] trace) as [e|] eqn:E; [|discriminate].
  apply (got_leaves_no_listener p trace code out (toString p e)).
  now rewrite awaited_run_events, Hexit, Hout, E.
Qed.

(** C2, on the launch-failure path.  When the child process emits ['error']
    before any ['exit'], [exec] is rejected with the error as it came, and
    the ['data'] listeners it put on stdout and stderr are still registered:
    the [await] throws before [dispose(disposables)] is reached. *)
Theorem launch_failure_leaves_listeners
        (p : Platform) (trace : list Event) (ratio : nat) (this : Svn)
        (cwd : jsstring) (args : list jsstring) (options : ICpOptions) :
  fails_to_launch trace ->
  (exists message,
      run_result (exec p (ChildProcess trace) ratio this cwd args options)
      = Rejected (SpawnFailure message))
  /\ In on_stdout_data
        (run_listeners (exec p (ChildProcess trace)
                             ratio this cwd args options))
  /\ In on_stderr_data
        (run_listeners (exec p (ChildProcess trace)
                             ratio this cwd args options)).
Proof.
  intros [message Hfail].
  assert (Hthrew : awaited (run_events p trace) = Threw message)
    by now rewrite awaited_run_events, Hfail.
  split.
  - exists message. unfold exec. now rewrite Hthrew.
  - rewrite exec_listeners. exact (threw_leaves_listeners p trace _ Hthrew).
Qed.

Lemma launch_failure_leaves_listeners_witness :
  fails_to_launch Samples.launch_failure
  /\ In on_stdout_data
        (run_listeners (exec Samples.misconfigured
                             (ChildProcess Samples.launch_failure) 0
                             Samples.svn (lit "/wc") [lit "status"]
                             Samples.no_options))
  /\ run_listeners (exec Samples.misconfigured
                         (ChildProcess Samples.launch_failure) 0
                         Samples.svn (lit "/wc") [lit "status"]
                         Samples.no_options)
     = [on_exit; on_stdout_data; on_stdout_close; on_stderr_data;
        on_stderr_close].
Proof.
  assert (H : fails_to_launch Samples.launch_failure)
    by (eexists; reflexivity).
  split; [exact H|]. split.
  - exact (proj1 (proj2 (launch_failure_leaves_listeners
                           Samples.misconfigured Samples.launch_failure 0
                           Samples.svn (lit "/wc") [lit "status"]
                           Samples.no_options H))).
  - reflexivity.
Defined.

(** ** Executor: the displayed stderr, line by line *)




















Lemma take_drop_while_exact (f : char16 -> bool) (u v : jsstring) :
  forallb f u = true ->
  match v with c :: _ => f c = false | [] => True end ->
  take_while f (u ++ v) = u /\ drop_while f (u ++ v) = v.
Proof.
  intros Hu Hv. induction u as [|c u IH]; cbn [app].
  - destruct v as [|c v]; cbn; [auto|]. now rewrite Hv.
  - cbn in Hu. apply andb_true_iff in Hu. destruct Hu as [Hc Hu].
    cbn. rewrite Hc. destruct (IH Hu) as [-> ->]. auto.
Qed.

Lemma skipn_length_app {A : Type} (w s : list A) :
  skipn (length w) (w ++ s) = s.
Proof.
  now rewrite skipn_app, skipn_all, Nat.sub_diag.
Qed.

(** What [strip_line] takes off: ["svn: E"], digits, a colon and spaces, as
    many as there are. *)
Lemma strip_line_prefixed (digits spaces rest : jsstring) :
  digits <> [] -> forallb is_digit digits = true ->
  spaces <> [] -> forallb is_space spaces = true ->
  match rest with c :: _ => is_space c = false | [] => True end ->
  strip_line (lit "svn: E" ++ digits ++ lit ":" ++ spaces ++ rest) = rest.
Proof.
  intros Hd Hdigits Hs Hspaces Hrest.
  unfold strip_line, match_error_prefix.
  rewrite starts_with_app.
  change (skipn 6 (lit "svn: E" ++ digits ++ lit ":" ++ spaces ++ rest))
    with (digits ++ lit ":" ++ spaces ++ rest).
  destruct (take_drop_while_exact is_digit digits
              (lit ":" ++ spaces ++ rest) Hdigits eq_refl) as [-> ->].
  destruct digits as [|d ds]; [contradiction|].
  cbn [lit list_ascii_of_string map app].
  change (N_of_ascii ":" =? 58)%N with true. cbv iota.
  destruct (take_drop_while_exact is_space spaces rest Hspaces Hrest)
    as [-> _].
  destruct spaces as [|sp sps]; [contradiction|].
  set (w := lit "svn: E" ++ (d :: ds) ++ [N_of_ascii ":"] ++ (sp :: sps)).
  replace (6 + length (d :: ds) + 1 + length (sp :: sps)) with (length w).
  - match goal with
    | |- skipn _ ?l = _ => replace l with (w ++ rest)
    end.
    + apply skipn_length_app.
    + unfold w. rewrite <- !app_assoc. reflexivity.
  - unfold w. rewrite !length_app. change (length (lit "svn: E")) with 6.
    cbn [length]. unfold char16. lia.
Qed.

Lemma awaited_got_iff (p : Platform) (trace : list Event) (code : option Z)
      (out : bytes) (err : jsstring) :
  awaited (run_events p trace) = Got code out err
  <-> exits_with p trace code out err.
Proof.
  rewrite awaited_run_events. unfold exits_with.
  destruct (exit_verdict trace), (collected Stdout [] trace),
    (collected Stderr [] trace); cbn [option_map];
    (split; [intros H; try discriminate H; injection H as <- <- <-; auto
            | intros (H1 & H2 & H3); try discriminate;
              injection H1 as <-; injection H2 as <-; injection H3 as <-;
              reflexivity]).
Qed.

Lemma awaited_threw_iff (p : Platform) (trace : list Event)
      (message : jsstring) :
  awaited (run_events p trace) = Threw message
  <-> exit_verdict trace = ExitRejected message.
Proof.
  rewrite awaited_run_events.
  destruct (exit_verdict trace), (collected Stdout [] trace),
    (collected Stderr [] trace);
    (split; intros H; try discriminate H; injection H as <-; reflexivity).
Qed.

Lemma truthy_code_iff (code : option Z) :
  truthy_code code = true <-> exists c, code = Some c /\ c <> 0%Z.
Proof.
  destruct code as [c|]; cbn.
  - rewrite negb_true_iff, Z.eqb_neq. split.
    + intros H. now exists c.
    + now intros (c' & [= <-] & H).
  - split; [discriminate | now intros (c & H & _)].
Qed.



(** C6.  When the argument vector holds ["--xml"], the encoding given to
    [iconv.decode] is ["utf8"], whatever the configured default encoding and
    the detector (both in [p]), the encoding hint of the options and the
    bytes of stdout are: for the resolution itself, and for the decoded
    stdout of every call of [exec] whose process has ended. *)
Theorem xml_is_decoded_as_utf8
        (p : Platform) (trace : list Event) (ratio : nat) (this : Svn)
        (cwd : jsstring) (args : list jsstring) (options : ICpOptions)
        (code : option Z) (out : bytes) (err : jsstring) :
  In (lit "--xml") args ->
  (forall hint, r_encoding (resolve_encoding p ratio args hint out)
                = lit "utf8")
  /\ (exits_with p trace code out err ->
      decoded_stdout (run_result (exec p (ChildProcess trace)
                                       ratio this cwd args options))
      = Some (decode p out (lit "utf8"))).
Proof.
  intros Hxml. split.
  - intros hint. now rewrite resolve_encoding_xml.
  - intros Hexit. apply awaited_got_iff in Hexit.
    now apply exec_xml_decoded_as_utf8 with (code := code) (err := err).
Qed.

Lemma xml_is_decoded_as_utf8_witness :
  In (lit "--xml") [lit "info"; lit "--xml"]
  /\ decoded_stdout
       (run_result (exec Samples.misconfigured (ChildProcess Samples.succeeded)
                         0
                         Samples.svn (lit "/wc") [lit "info"; lit "--xml"]
                         Samples.no_options))
     = Some (decode Samples.misconfigured
               (Samples.ascii_bytes "At revision 7.") (lit "utf8")).
Proof.
  assert (Hin : In (lit "--xml") [lit "info"; lit "--xml"])
    by (right; left; reflexivity).
  split; [exact Hin|].
  apply (proj2 (xml_is_decoded_as_utf8 Samples.misconfigured
                  Samples.succeeded 0 Samples.svn (lit "/wc")
                  [lit "info"; lit "--xml"] Samples.no_options
                  (Some 0%Z) (Samples.ascii_bytes "At revision 7.") []
                  Hin)).
  repeat split.
Defined.





(** ** Dispatch: grouping by repository *)

Import Commands.

Section Grouping.

Variable Repository : Type.
Hypothesis Repository_eq_dec : forall a b : Repository, {a = b} + {a <> b}.
Variable getRepository : Uri -> option Repository.

Local Abbreviation add := (add_to_groups Repository_eq_dec).
Local Abbreviation grouping :=
  (group_resources Repository_eq_dec getRepository).
Local Abbreviation seen := (first_seen Repository_eq_dec).
Local Abbreviation owned := (owned_by Repository_eq_dec getRepository).
Local Abbreviation is_owner := (owner_is Repository_eq_dec getRepository).

Lemma NoDup_remove_all (repo : Repository) (l : list Repository) :
  NoDup l -> NoDup (remove Repository_eq_dec repo l).
Proof.
  induction 1 as [|a l Ha _ IH]; cbn; [constructor|].
  destruct (Repository_eq_dec repo a); [exact IH|].
  constructor; [|exact IH].
  intros Hin. apply in_remove in Hin. tauto.
Qed.

Lemma first_seen_In (repo : Repository) (l : list Repository) :
  In repo (seen l) <-> In repo l.
Proof.
  induction l as [|a l IH]; cbn; [tauto|]. split.
  - intros [->|Hin]; [now left|].
    apply in_remove in Hin. right. now apply IH.
  - intros [->|Hin]; [now left|].
    destruct (Repository_eq_dec a repo) as [->|Hne]; [now left|].
    right. apply in_in_remove; [congruence | now apply IH].
Qed.

Lemma first_seen_NoDup (l : list Repository) : NoDup (seen l).
Proof.
  induction l as [|a l IH]; cbn; constructor.
  - apply remove_In.
  - now apply NoDup_remove_all.
Qed.

Lemma first_seen_snoc_new (repo : Repository) (l : list Repository) :
  ~ In repo l -> seen (l ++ [repo]) = seen l ++ [repo].
Proof.
  induction l as [|a l IH]; cbn; [reflexivity|].
  intros Hout. rewrite IH by tauto. rewrite remove_app. cbn.
  destruct (Repository_eq_dec a repo) as [->|_]; [tauto | reflexivity].
Qed.

Lemma first_seen_snoc_old (repo : Repository) (l : list Repository) :
  In repo l -> seen (l ++ [repo]) = seen l.
Proof.
  induction l as [|a l IH]; cbn; [tauto|].
  intros Hin. destruct (in_dec Repository_eq_dec repo l) as [Hl|Hl].
  - now rewrite IH.
  - destruct Hin as [->|Hin]; [|contradiction].
    rewrite first_seen_snoc_new by exact Hl. rewrite remove_app. cbn.
    destruct (Repository_eq_dec repo repo); [|congruence].
    now rewrite app_nil_r.
Qed.

(** A resource more for a repository that has its group. *)
Lemma add_to_groups_old (f : Repository -> list Uri) (repo : Repository)
      (resource : Uri) (repos : list Repository) :
  NoDup repos -> In repo repos ->
  add repo resource (groups_of f repos)
  = groups_of (fun r => f r ++ if Repository_eq_dec r repo
                               then [resource] else []) repos.
Proof.
  induction 1 as [|a repos Ha Hnd IH]; intros Hin; [destruct Hin|].
  cbn [groups_of map add_to_groups repository resources].
  destruct (Repository_eq_dec a repo) as [->|Hne].
  - f_equal. apply map_ext_in. intros r Hr.
    destruct (Repository_eq_dec r repo) as [->|_]; [contradiction|].
    now rewrite app_nil_r.
  - rewrite app_nil_r. f_equal. apply IH.
    destruct Hin as [->|Hin]; [congruence | exact Hin].
Qed.

(** A resource of a repository that has no group yet. *)
Lemma add_to_groups_new (f : Repository -> list Uri) (repo : Repository)
      (resource : Uri) (repos : list Repository) :
  ~ In repo repos ->
  add repo resource (groups_of f repos)
  = groups_of f repos ++ [{| repository := repo; resources := [resource] |}].
Proof.
  induction repos as [|a repos IH]; intros Hout; [reflexivity|].
  cbn [groups_of map add_to_groups repository resources app].
  destruct (Repository_eq_dec a repo) as [->|Hne].
  - cbn in Hout. tauto.
  - f_equal. apply IH. cbn in Hout. tauto.
Qed.

Lemma owners_snoc (paths : list Uri) (resource : Uri) :
  owners getRepository (paths ++ [resource])
  = owners getRepository paths
      ++ match getRepository resource with
         | Some repo => [repo]
         | None => []
         end.
Proof.
  induction paths as [|u paths IH]; cbn.
  - now destruct (getRepository resource).
  - rewrite IH. now destruct (getRepository u).
Qed.

Lemma owned_by_unknown (repo : Repository) (paths : list Uri) :
  ~ In repo (owners getRepository paths) -> owned repo paths = [].
Proof.
  induction paths as [|u paths IH]; cbn; [reflexivity|].
  unfold owner_is. destruct (getRepository u) as [r|]; cbn.
  - intros Hout. destruct (Repository_eq_dec r repo) as [->|_]; [tauto|].
    apply IH. tauto.
  - exact IH.
Qed.

Lemma owned_by_snoc (r : Repository) (paths : list Uri) (resource : Uri) :
  owned r (paths ++ [resource])
  = owned r paths
      ++ match getRepository resource with
         | Some repo => if Repository_eq_dec r repo then [resource] else []
         | None => []
         end.
Proof.
  unfold owned_by. rewrite filter_app. f_equal. cbn [filter].
  unfold owner_is. destruct (getRepository resource) as [repo|];
    [|reflexivity].
  destruct (Repository_eq_dec repo r) as [Heq|Hne];
    destruct (Repository_eq_dec r repo) as [Heq'|Hne']; congruence.
Qed.

(** The [reduce] builds the groups of the specification: one group for each
    repository, in the order the repositories are first seen, holding the
    resources of that repository in the order they came; the resources
    without a repository are the ones warned about. *)
Lemma group_resources_groups (paths : list Uri) :
  groups (grouping paths)
  = groups_of (fun repo => owned repo paths)
              (seen (owners getRepository paths))
  /\ warned (grouping paths)
     = filter (fun u => negb (resolvable getRepository u)) paths.
Proof.
  unfold group_resources.
  induction paths as [|resource paths [IHg IHw]] using rev_ind;
    [split; reflexivity|].
  rewrite fold_left_app. cbn [fold_left]. unfold group_step at 1 3.
  rewrite owners_snoc, filter_app. cbn [filter]. unfold resolvable at 2.
  destruct (getRepository resource) as [repo|] eqn:Hrepo;
    cbn [groups warned negb].
  - rewrite IHw, app_nil_r. split; [|reflexivity]. rewrite IHg.
    destruct (in_dec Repository_eq_dec repo (owners getRepository paths))
      as [Hin|Hout].
    + rewrite first_seen_snoc_old by exact Hin.
      rewrite add_to_groups_old
        by (apply first_seen_NoDup || now apply first_seen_In).
      apply map_ext. intros r. f_equal.
      now rewrite owned_by_snoc, Hrepo.
    + rewrite first_seen_snoc_new by exact Hout.
      rewrite add_to_groups_new by (now rewrite first_seen_In).
      unfold groups_of. rewrite map_app. cbn [map]. f_equal.
      * apply map_ext_in. intros r Hr. f_equal.
        rewrite owned_by_snoc, Hrepo.
        apply (proj1 (first_seen_In _ _)) in Hr.
        destruct (Repository_eq_dec r repo) as [Heq|_];
          [subst r; contradiction|].
        now rewrite app_nil_r.
      * f_equal. f_equal. rewrite owned_by_snoc, Hrepo.
        rewrite owned_by_unknown by exact Hout.
        now destruct (Repository_eq_dec repo repo).
  - rewrite app_nil_r, IHw. split; [|reflexivity]. rewrite IHg.
    apply map_ext. intros r. f_equal.
    now rewrite owned_by_snoc, Hrepo, app_nil_r.
Qed.

Lemma grouped_add (repo : Repository) (resource : Uri)
      (gs : list (Group Repository)) :
  Permutation (grouped (add repo resource gs)) (grouped gs ++ [resource]).
Proof.
  unfold grouped. induction gs as [|g gs IH]; cbn; [reflexivity|].
  destruct (Repository_eq_dec (repository g) repo); cbn.
  - rewrite <- !app_assoc. apply Permutation_app_head.
    apply Permutation_app_comm.
  - rewrite <- app_assoc. now apply Permutation_app_head.
Qed.

(** Every resource that has a repository is in the groups as often as it
    came, and nothing else is. *)
Lemma grouped_resolvable (paths : list Uri) :
  Permutation (grouped (groups (grouping paths)))
              (filter (resolvable getRepository) paths).
Proof.
  unfold group_resources.
  induction paths as [|resource paths IH] using rev_ind; [reflexivity|].
  rewrite fold_left_app, filter_app. cbn [fold_left filter].
  unfold group_step at 1, resolvable at 2.
  destruct (getRepository resource) as [repo|]; cbn [groups].
  - rewrite grouped_add. now apply Permutation_app_tail.
  - now rewrite app_nil_r.
Qed.

(** C7, as the code has it.  The groups are those of the repositories the
    input resolves to, in the order the repositories are first seen, each
    holding the paths of its repository in input order; so no repository has
    two groups, every path of a group resolves to the group's repository,
    and the groups hold every resolvable path exactly as often as the input
    does.  A path without repository is in no group and is warned about;
    grouping is total.  When the input repeats no path, no path appears
    twice. *)
Theorem grouping_is_a_partition (paths : list Uri) :
  let result := grouping paths in
  groups result
  = groups_of (fun repo => owned repo paths)
              (seen (owners getRepository paths))
  /\ NoDup (map repository (groups result))
  /\ (forall g u, In g (groups result) -> In u (resources g) ->
                  getRepository u = Some (repository g))
  /\ Permutation (grouped (groups result))
                 (filter (resolvable getRepository) paths)
  /\ warned result
     = filter (fun u => negb (resolvable getRepository u)) paths
  /\ (forall u, resolvable getRepository u = false ->
                ~ In u (grouped (groups result)))
  /\ (NoDup paths -> NoDup (grouped (groups result))).
Proof.
  cbv zeta. destruct (group_resources_groups paths) as [Hg Hw].
  pose proof (grouped_resolvable paths) as Hperm.
  repeat split.
  - exact Hg.
  - rewrite Hg. unfold groups_of. rewrite map_map. cbn [repository].
    rewrite map_id. apply first_seen_NoDup.
  - intros g u Hin Hu. rewrite Hg in Hin. unfold groups_of in Hin.
    apply in_map_iff in Hin. destruct Hin as (repo & <- & _).
    cbn [repository resources] in *. unfold owned_by in Hu.
    apply filter_In in Hu. destruct Hu as [_ Hu]. unfold owner_is in Hu.
    destruct (getRepository u) as [r|]; [|discriminate].
    now destruct (Repository_eq_dec r repo) as [->|].
  - exact Hperm.
  - exact Hw.
  - intros u Hu Hin. apply (Permutation_in _ Hperm) in Hin.
    apply filter_In in Hin. destruct Hin as [_ Hin]. congruence.
  - intros Hnd. apply (Permutation_NoDup (Permutation_sym Hperm)).
    now apply NoDup_filter.
Qed.

(** A resource that has a repository is in the group of that repository. *)
Lemma resolved_in_its_group (paths : list Uri) (u : Uri) (repo : Repository) :
  In u paths -> getRepository u = Some repo ->
  In u (owned repo paths)
  /\ In {| repository := repo; resources := owned repo paths |}
        (groups (grouping paths)).
Proof.
  intros Hin Hrepo.
  assert (Hu : In u (owned repo paths)).
  { apply filter_In. split; [exact Hin|]. unfold owner_is. rewrite Hrepo.
    now destruct (Repository_eq_dec repo repo). }
  split; [exact Hu|].
  rewrite (proj1 (group_resources_groups paths)). unfold groups_of.
  apply in_map_iff. exists repo. split; [reflexivity|].
  apply first_seen_In. clear Hu.
  induction paths as [|w paths IH]; [destruct Hin|]. cbn.
  destruct Hin as [->|Hin].
  - rewrite Hrepo. now left.
  - destruct (getRepository w); [right|]; now apply IH.
Qed.

End Grouping.

Lemma grouping_is_a_partition_witness :
  let paths := [Samples.file "/a/x"; Samples.file "/c/y";
                Samples.file "/b/z"; Samples.file "/a/w"] in
  NoDup paths
  /\ groups (group_resources Nat.eq_dec Samples.two_repositories paths)
     = [ {| repository := 1;
            resources := [Samples.file "/a/x"; Samples.file "/a/w"] |};
         {| repository := 2; resources := [Samples.file "/b/z"] |} ]
  /\ NoDup (grouped (groups (group_resources Nat.eq_dec
                               Samples.two_repositories paths))).
Proof.
  cbv zeta.
  assert (Hnd : NoDup [Samples.file "/a/x"; Samples.file "/c/y";
                       Samples.file "/b/z"; Samples.file "/a/w"]).
  { repeat constructor; cbn; intuition discriminate. }
  split; [exact Hnd|]. split; [reflexivity|].
  exact (proj2 (proj2 (proj2 (proj2 (proj2 (proj2
           (grouping_is_a_partition nat Nat.eq_dec Samples.two_repositories
              [Samples.file "/a/x"; Samples.file "/c/y";
               Samples.file "/b/z"; Samples.file "/a/w"])))))) Hnd).
Defined.

(** C7, as the claim has it, at a sample: a path that comes twice is in its
    group twice. *)
Lemma repeated_path_is_grouped_twice :
  let paths := [Samples.file "/a/x"; Samples.file "/a/x"] in
  groups (group_resources Nat.eq_dec Samples.two_repositories paths)
  = [ {| repository := 1;
         resources := [Samples.file "/a/x"; Samples.file "/a/x"] |} ]
  /\ ~ NoDup (grouped (groups (group_resources Nat.eq_dec
                                 Samples.two_repositories paths))).
Proof.
  split; [reflexivity|].
  intros Hnd. inversion Hnd as [|? ? Hout _]. apply Hout. now left.
Qed.

(** ** [Promise.all] *)

Section AllFacts.

Variables T E : Type.

Import PromiseAll.

Local Abbreviation promise := (Promise T E).
Local Abbreviation state := (All T E).

Lemma settle_latched (promises : list promise) (a : state) (index : nat)
      (r : list T + E) :
  result a = Some r -> result (settle promises a index) = Some r.
Proof.
  intros Hr. unfold settle.
  destruct (nth_error promises index) as [[[v|e]|]|]; cbn;
    now rewrite ?Hr.
Qed.

Lemma settle_rejected (promises : list promise) (a : state) (index : nat)
      (e : E) :
  nth_error promises index = Some (Some (Failed e)) ->
  result a = None ->
  result (settle promises a index) = Some (inr e).
Proof.
  intros Hi Hr. unfold settle. rewrite Hi. cbn. now rewrite Hr.
Qed.

Lemma fold_settle_latched (promises : list promise) (schedule : list nat) :
  forall (a : state) (r : list T + E),
    result a = Some r ->
    result (fold_left (settle promises) schedule a) = Some r.
Proof.
  induction schedule as [|i schedule IH]; intros a r Hr; [exact Hr|].
  cbn. apply IH. now apply settle_latched.
Qed.

Lemma complete_hole (slots : list (option T)) (i : nat) :
  nth_error slots i = Some None -> complete slots = None.
Proof.
  revert i. induction slots as [|[v|] slots IH]; intros [|i] H;
    cbn in *; try discriminate; try reflexivity.
  now rewrite (IH i H).
Qed.

Lemma fill_other (slots : list (option T)) (i j : nat) (v : T) :
  i <> j -> nth_error (fill j v slots) i = nth_error slots i.
Proof.
  revert i j. induction slots as [|s slots IH]; intros [|i] [|j] Hne;
    cbn; try reflexivity; try congruence.
  apply IH. congruence.
Qed.

Lemma fill_same (slots : list (option T)) (j : nat) (v : T) :
  j < length slots -> nth_error (fill j v slots) j = Some (Some v).
Proof.
  revert j. induction slots as [|s slots IH]; intros [|j] Hlt;
    cbn in *; try lia; [reflexivity|].
  apply IH. lia.
Qed.

Lemma fill_length (slots : list (option T)) (j : nat) (v : T) :
  length (fill j v slots) = length slots.
Proof.
  revert j. induction slots as [|s slots IH]; intros [|j]; cbn;
    try reflexivity. now rewrite IH.
Qed.

(** The first rejection to settle is what [Promise.all] is rejected with:
    the values that were or will be fulfilled are not handed on. *)
Lemma all_first_rejection (promises : list promise) (pre post : list nat)
      (i : nat) (e : E) :
  nth_error promises i = Some (Some (Failed e)) ->
  (forall j e', In j pre ->
                nth_error promises j <> Some (Some (Failed e'))) ->
  all promises (pre ++ i :: post) = Some (inr e).
Proof.
  intros Hi Hpre. unfold all. rewrite fold_left_app. cbn [fold_left].
  apply fold_settle_latched.
  assert (Hlt : i < length promises)
    by (apply nth_error_Some; congruence).
  assert (Hinv : forall a : state,
             result a = None -> nth_error (values a) i = Some None ->
             result (fold_left (settle promises) pre a) = None
             /\ nth_error (values (fold_left (settle promises) pre a)) i
                = Some None).
  { clear Hlt. induction pre as [|j pre IH]; intros a Hres Hslot;
      [now split|].
    cbn [fold_left]. apply IH.
    - intros k e' Hk. apply Hpre. now right.
    - unfold settle.
      destruct (nth_error promises j) as [[[v|e']|]|] eqn:Hj;
        try exact Hres.
      + cbn. rewrite Hres.
        assert (Hne : i <> j) by congruence.
        rewrite (complete_hole _ i); [reflexivity|].
        now rewrite fill_other.
      + exfalso. apply (Hpre j e'); [now left | exact Hj].
    - unfold settle.
      destruct (nth_error promises j) as [[[v|e']|]|] eqn:Hj;
        try exact Hslot.
      cbn. assert (Hne : i <> j) by congruence. now rewrite fill_other. }
  destruct (Hinv (start (length promises))) as [Hres _].
  - unfold start. cbn. destruct (length promises); [lia | reflexivity].
  - unfold start. cbn. now apply nth_error_repeat.
  - now apply settle_rejected.
Qed.

Lemma fits_fill (slots : list (option T)) (vals : list T) (j : nat)
      (v : T) :
  fits slots vals -> nth_error vals j = Some v ->
  fits (fill j v slots) vals.
Proof.
  intros H. revert j. induction H as [|s w slots vals Hs Hrest IH];
    intros [|j] Hj; cbn in *; try discriminate.
  - injection Hj as ->. constructor; [now right | exact Hrest].
  - constructor; [exact Hs | now apply IH].
Qed.

Lemma fits_complete (slots : list (option T)) (vals vs : list T) :
  fits slots vals -> complete slots = Some vs -> vs = vals.
Proof.
  intros H. revert vs. induction H as [|s w slots vals Hs _ IH];
    intros vs Hc; cbn in Hc.
  - now injection Hc as <-.
  - destruct s as [v|]; [|discriminate].
    destruct (complete slots) as [vs'|]; [|discriminate].
    injection Hc as <-. destruct Hs as [Hs|Hs]; [discriminate|].
    injection Hs as ->. f_equal. now apply IH.
Qed.

Lemma fits_full (slots : list (option T)) (vals : list T) :
  fits slots vals ->
  (forall j, j < length vals -> nth_error slots j <> Some None) ->
  complete slots = Some vals.
Proof.
  intros H. induction H as [|s w slots vals Hs _ IH]; intros Hfull;
    [reflexivity|].
  cbn. destruct s as [v|].
  - rewrite IH.
    + destruct Hs as [Hs|Hs]; [discriminate | now injection Hs as ->].
    + intros j Hj. apply (Hfull (S j)). cbn. lia.
  - exfalso. apply (Hfull 0); [cbn; lia | reflexivity].
Qed.

Lemma fits_start (vals : list T) : fits (repeat None (length vals)) vals.
Proof.
  induction vals as [|v vals IH]; cbn; constructor; auto.
Qed.

Lemma fill_keeps (slots : list (option T)) (j k : nat) (v : T) :
  nth_error slots k <> Some None ->
  nth_error (fill j v slots) k <> Some None.
Proof.
  destruct (Nat.eq_dec k j) as [->|Hne].
  - destruct (Nat.lt_ge_cases j (length slots)) as [Hlt|Hge].
    + now rewrite fill_same.
    + intros _ H.
      assert (Hk : j < length (fill j v slots))
        by (apply nth_error_Some; congruence).
      rewrite fill_length in Hk. lia.
  - now rewrite fill_other.
Qed.

(** When every promise is fulfilled, [Promise.all] is fulfilled with their
    values in the order of the promises, whatever the order they settle
    in. *)
Lemma all_fulfilled (vals : list T) (schedule : list nat) :
  (forall i, i < length vals -> In i schedule) ->
  all (map (fun v => Some (@Resolved T E v)) vals) schedule
  = Some (inl vals).
Proof.
  intros Hcover. unfold all. rewrite length_map.
  set (promises := map (fun v : T => Some (@Resolved T E v)) vals).
  assert (Hinv : forall (todo settled : list nat) (a : state),
             fits (values a) vals ->
             (forall j, In j settled -> nth_error (values a) j <> Some None) ->
             (result a = None -> complete (values a) = None) ->
             (forall r, result a = Some r -> r = inl vals) ->
             let a' := fold_left (settle promises) todo a in
             fits (values a') vals
             /\ (forall j, In j (settled ++ todo) ->
                           nth_error (values a') j <> Some None)
             /\ (result a' = None -> complete (values a') = None)
             /\ (forall r, result a' = Some r -> r = inl vals)).
  { induction todo as [|i todo IH]; intros settled a Hfit Hset Hnone Hsome.
    - cbn. rewrite app_nil_r. auto.
    - cbn [fold_left].
      replace (settled ++ i :: todo) with ((settled ++ [i]) ++ todo)
        by now rewrite <- app_assoc.
      assert (Hstep : settle promises a i
                      = match nth_error vals i with
                        | Some v => on_fulfilled i v a
                        | None => a
                        end).
      { unfold settle, promises. rewrite nth_error_map.
        now destruct (nth_error vals i). }
      rewrite Hstep. clear Hstep.
      destruct (nth_error vals i) as [v|] eqn:Hv.
      + assert (Hfit' : fits (fill i v (values a)) vals)
          by now apply fits_fill.
        assert (Hlen : length (values a) = length vals)
          by (eapply Forall2_length; exact Hfit).
        assert (Hi : i < length vals)
          by (apply nth_error_Some; congruence).
        apply IH; cbn [on_fulfilled values result].
        * exact Hfit'.
        * intros j Hj. apply in_app_or in Hj. destruct Hj as [Hj|[<-|[]]].
          -- now apply fill_keeps, Hset.
          -- rewrite fill_same by lia. discriminate.
        * destruct (result a); [discriminate|].
          now destruct (complete (fill i v (values a))).
        * intros r. destruct (result a) as [r'|] eqn:Hr.
          -- intros [= <-]. now apply Hsome.
          -- destruct (complete (fill i v (values a))) as [vs|] eqn:Hc;
               [|discriminate].
             intros [= <-]. f_equal. now apply (fits_complete _ _ _ Hfit').
      + apply IH; try assumption.
        intros j Hj. apply in_app_or in Hj. destruct Hj as [Hj|[<-|[]]].
        * now apply Hset.
        * apply nth_error_None in Hv.
          assert (Hlen : length (values a) = length vals)
            by (eapply Forall2_length; exact Hfit).
          intros H.
          assert (i < length (values a))
            by (apply nth_error_Some; congruence).
          lia. }
  destruct (Hinv schedule [] (start (length vals)))
    as (Hfit & Hfull & Hnone & Hsome).
  - apply fits_start.
  - intros j [].
  - cbn. destruct vals; [discriminate | reflexivity].
  - cbn. destruct vals; [now intros r [= <-] | discriminate].
  - cbv zeta in *.
    destruct (result (fold_left (settle promises) schedule
                                (start (length vals)))) as [r|] eqn:Hr.
    + f_equal. now apply Hsome.
    + specialize (Hnone eq_refl).
      rewrite (fits_full _ vals Hfit) in Hnone; [discriminate|].
      intros j Hj. apply Hfull. cbn. now apply Hcover.
Qed.

End AllFacts.

(** ** Dispatch: one operation per repository *)

(** C1, as the code has it.  [runByRepository] calls [fn] once for every
    group, in group order, before any of the operations has settled.  When
    every operation is fulfilled, the caller gets the results in group order,
    whatever order they settle in.  When an operation is rejected, the caller
    gets the first rejection to settle, and no result of any group. *)
Theorem runByRepository_all_or_nothing
        (Repository : Type)
        (Repository_eq_dec : forall a b : Repository, {a = b} + {a <> b})
        (getRepository : Uri -> option Repository)
        (T E : Type)
        (fn : Repository -> Target -> PromiseAll.Promise T E)
        (arg : Uri + list Uri) (schedule : list nat) :
  let dispatched :=
    runByRepository Repository_eq_dec getRepository fn arg schedule in
  let paths := match arg with inl uri => [uri] | inr uris => uris end in
  let single := match arg with inl _ => true | inr _ => false end in
  let cs := calls single
              (groups (group_resources Repository_eq_dec getRepository
                                       paths)) in
  d_calls dispatched = cs
  /\ (forall vals,
         map (fun c => fn (fst c) (snd c)) cs
         = map (fun v => Some (PromiseAll.Resolved v)) vals ->
         (forall i, i < length vals -> In i schedule) ->
         d_result dispatched = Some (inl vals))
  /\ (forall pre i post c e,
         schedule = pre ++ i :: post ->
         nth_error cs i = Some c ->
         fn (fst c) (snd c) = Some (PromiseAll.Failed e) ->
         (forall j c' e', In j pre -> nth_error cs j = Some c' ->
                          fn (fst c') (snd c')
                          <> Some (PromiseAll.Failed e')) ->
         d_result dispatched = Some (inr e)
         /\ forall vals, d_result dispatched <> Some (inl vals)).
Proof.
  cbv zeta. unfold runByRepository. cbn [d_calls d_result].
  split; [reflexivity|]. split.
  - intros vals Hvals Hcover. rewrite Hvals. now apply all_fulfilled.
  - intros pre i post c e -> Hc He Hpre.
    assert (Hall : PromiseAll.all
                     (map (fun c => fn (fst c) (snd c))
                          (calls match arg with
                                 | inl _ => true
                                 | inr _ => false
                                 end
                                 (groups
                                    (group_resources
                                       Repository_eq_dec getRepository
                                       match arg with
                                       | inl uri => [uri]
                                       | inr uris => uris
                                       end))))
                     (pre ++ i :: post) = Some (inr e)).
    { apply all_first_rejection.
      - now rewrite nth_error_map, Hc; cbn; rewrite He.
      - intros j e' Hj Hfail. rewrite nth_error_map in Hfail.
        destruct (nth_error _ j) as [c'|] eqn:Hc'; [|discriminate].
        cbn in Hfail. injection Hfail as Hfail.
        now apply (Hpre j c' e' Hj Hc'). }
    rewrite Hall. split; [reflexivity | discriminate].
Qed.

Lemma runByRepository_all_or_nothing_witness :
  d_result (runByRepository Nat.eq_dec Samples.two_repositories
              (fun repo _ => Some (@PromiseAll.Resolved nat jsstring repo))
              (inr [Samples.file "/a/x"; Samples.file "/b/y";
                    Samples.file "/a/z"])
              [1; 0])
  = Some (inl [1; 2])
  /\ d_result (runByRepository Nat.eq_dec Samples.two_repositories
                 Samples.fails_in_second
                 (inr [Samples.file "/a/x"; Samples.file "/b/y"])
                 [0; 1])
     = Some (inr (lit "E155004")).
Proof.
  split.
  - apply (proj1 (proj2 (runByRepository_all_or_nothing
                           nat Nat.eq_dec Samples.two_repositories
                           nat jsstring
                           (fun repo _ => Some (PromiseAll.Resolved repo))
                           (inr [Samples.file "/a/x"; Samples.file "/b/y";
                                 Samples.file "/a/z"])
                           [1; 0])) [1; 2]).
    + reflexivity.
    + intros i Hi. cbn in *. lia.
  - apply (proj2 (proj2 (runByRepository_all_or_nothing
                           nat Nat.eq_dec Samples.two_repositories
                           nat jsstring Samples.fails_in_second
                           (inr [Samples.file "/a/x"; Samples.file "/b/y"])
                           [0; 1]))
             [0] 1 []
             (2, Several [Samples.file "/b/y"]) (lit "E155004")).
    + reflexivity.
    + reflexivity.
    + reflexivity.
    + intros j c' e' [<-|[]] Hc'. cbn in Hc'. injection Hc' as <-.
      discriminate.
Defined.

(** C1, as the claim has it, at a sample: the operation of the first working
    copy is fulfilled with 10, the one of the second is rejected, and the
    caller gets the rejection and not the 10. *)
Lemma rejection_hides_sibling_results :
  let dispatched :=
    runByRepository Nat.eq_dec Samples.two_repositories
      Samples.fails_in_second
      (inr [Samples.file "/a/x"; Samples.file "/b/y"]) [0; 1] in
  map (fun c => Samples.fails_in_second (fst c) (snd c))
      (d_calls dispatched)
  = [Some (PromiseAll.Resolved 10);
     Some (PromiseAll.Failed (lit "E155004"))]
  /\ d_result dispatched = Some (inr (lit "E155004"))
  /\ ~ exists vals, d_result dispatched = Some (inl vals) /\ In 10 vals.
Proof.
  cbv zeta. split; [reflexivity|]. split; [reflexivity|].
  intros (vals & Hres & _). vm_compute in Hres. discriminate.
Qed.

(** ** Commit: rename sources *)

Lemma push_rename_paths_spec (states : list SourceControlResourceState) :
  forall filePaths path,
    In path (push_rename_paths states filePaths)
    <-> In path filePaths
        \/ exists r old, In (OfResource r) states
                         /\ rename_source r = Some old
                         /\ path = fsPath old.
Proof.
  induction states as [|[r|uri] states IH]; intros filePaths path; cbn.
  - split; [tauto | intros [H|(r & old & [] & _)]; exact H].
  - destruct (rename_source r) as [old|] eqn:Hr; rewrite IH; split.
    + rewrite in_app_iff. cbn.
      intros [[H|[<-|[]]]|(r' & old' & H1 & H2 & H3)]; [tauto | |].
      * right. exists r, old. auto.
      * right. exists r', old'. auto.
    + rewrite in_app_iff. cbn.
      intros [H|(r' & old' & [[= <-]|H1] & H2 & H3)]; [tauto | |].
      * left. right. left. congruence.
      * right. exists r', old'. auto.
    + intros [H|(r' & old' & H1 & H2 & H3)]; [tauto|].
      right. exists r', old'. auto.
    + intros [H|(r' & old' & [[= <-]|H1] & H2 & H3)];
        [tauto | congruence |].
      right. exists r', old'. auto.
  - rewrite IH. split.
    + intros [H|(r' & old' & H1 & H2 & H3)]; [tauto|].
      right. exists r', old'. auto.
    + intros [H|(r' & old' & [H1|H1] & H2 & H3)];
        [tauto | discriminate |].
      right. exists r', old'. auto.
Qed.

Lemma push_rename_uris_spec (selection : list Resource) :
  forall uris uri,
    In uri (push_rename_uris selection uris)
    <-> In uri uris
        \/ exists r, In r selection /\ rename_source r = Some uri.
Proof.
  induction selection as [|r selection IH]; intros uris uri; cbn.
  - split; [tauto | intros [H|(r & [] & _)]; exact H].
  - destruct (rename_source r) as [old|] eqn:Hr; rewrite IH; split.
    + rewrite in_app_iff. cbn.
      intros [[H|[<-|[]]]|(r' & H1 & H2)]; [tauto | |].
      * right. exists r. auto.
      * right. exists r'. auto.
    + rewrite in_app_iff. cbn.
      intros [H|(r' & [<-|H1] & H2)]; [tauto | |].
      * left. right. left. congruence.
      * right. exists r'. auto.
    + intros [H|(r' & H1 & H2)]; [tauto|]. right. exists r'. auto.
    + intros [H|(r' & [<-|H1] & H2)]; [tauto | congruence |].
      right. exists r'. auto.
Qed.

Lemma rename_source_added (r : Resource) (old : Uri) :
  type r = ADDED -> renameResourceUri r = Some old ->
  rename_source r = Some old.
Proof.
  intros Ht Hr. unfold rename_source. now rewrite Ht.
Qed.

(** C8.  For every resource of the selection that is added with a rename
    source, the paths a commit dispatches hold its new path and the path of
    its rename source: the file paths [commitWithMessage] gives to
    [commitFiles], and the [Uri]s [commit] gives to [runByRepository], which
    hands both to the same call of [fn] when they belong to the same
    repository. *)
Theorem commit_dispatches_rename_source (r : Resource) (old : Uri) :
  type r = ADDED ->
  renameResourceUri r = Some old ->
  (forall message states,
      truthy message = true ->
      In (OfResource r) states ->
      exists filePaths,
        commitWithMessage message (Some states)
        = CommitFiles message filePaths
        /\ In (fsPath (resourceUri r)) filePaths
        /\ In (fsPath old) filePaths)
  /\ (forall scmResource args selection,
         commit_selection scmResource args = Some selection ->
         In r selection ->
         exists uris,
           commit_uris scmResource args = Some uris
           /\ In (resourceUri r) uris
           /\ In old uris
           /\ forall (Repository : Type)
                     (Repository_eq_dec :
                        forall a b : Repository, {a = b} + {a <> b})
                     (getRepository : Uri -> option Repository)
                     (repo : Repository),
               getRepository (resourceUri r) = Some repo ->
               getRepository old = Some repo ->
               exists g,
                 In g (groups (group_resources Repository_eq_dec
                                               getRepository uris))
                 /\ repository g = repo
                 /\ In (resourceUri r) (resources g)
                 /\ In old (resources g)).
Proof.
  intros Ht Hr. pose proof (rename_source_added r old Ht Hr) as Hsrc.
  split.
  - intros message states Hmsg Hin. unfold commitWithMessage.
    rewrite Hmsg. cbn [negb]. eexists. split; [reflexivity|].
    split; apply push_rename_paths_spec.
    + left. apply in_map_iff. now exists (OfResource r).
    + right. now exists r, old.
  - intros scmResource args selection Hsel Hin.
    unfold commit_uris. rewrite Hsel. eexists. split; [reflexivity|].
    assert (Hnew : In (resourceUri r)
                      (push_rename_uris selection
                                        (map resourceUri selection))).
    { apply push_rename_uris_spec. left. now apply in_map. }
    assert (Hold : In old (push_rename_uris selection
                                            (map resourceUri selection))).
    { apply push_rename_uris_spec. right. now exists r. }
    repeat split; [exact Hnew | exact Hold |].
    intros Repository Repository_eq_dec getRepository repo Hrepo Hrepo'.
    destruct (resolved_in_its_group Repository Repository_eq_dec
                getRepository _ _ repo Hnew Hrepo) as [H1 Hg].
    destruct (resolved_in_its_group Repository Repository_eq_dec
                getRepository _ _ repo Hold Hrepo') as [H2 _].
    eexists. split; [exact Hg|]. cbn [repository resources]. auto.
Qed.

Lemma commit_dispatches_rename_source_witness :
  commitWithMessage (lit "rename") (Some [OfResource Samples.renamed_file])
  = CommitFiles (lit "rename") [lit "/a/new.txt"; lit "/a/old.txt"]
  /\ commit_uris None [State (OfResource Samples.renamed_file)]
     = Some [Samples.file "/a/new.txt"; Samples.file "/a/old.txt"]
  /\ exists uris,
       commit_uris None [State (OfResource Samples.renamed_file)] = Some uris
       /\ In (Samples.file "/a/new.txt") uris
       /\ In (Samples.file "/a/old.txt") uris.
Proof.
  split; [reflexivity|]. split; [reflexivity|].
  destruct (proj2 (commit_dispatches_rename_source
                     Samples.renamed_file (Samples.file "/a/old.txt")
                     eq_refl eq_refl)
              None [State (OfResource Samples.renamed_file)]
              [Samples.renamed_file] eq_refl (or_introl eq_refl))
    as (uris & Huris & Hnew & Hold & _).
  exists uris. auto.
Defined.

(** ** Diff endpoints *)

(** C9, as the code has it.  For a deleted resource compared against
    ["BASE"], [getLeftResource] gives no left endpoint, [getRightResource]
    gives the synthesized [SHOW] reference to the resource at ["BASE"], and
    the title ends in ["(BASE)"]. *)
Theorem deleted_against_base (path : PathModule) (r : Resource) :
  type r = DELETED ->
  getLeftResource r (Some (lit "BASE")) = None
  /\ getRightResource r (Some (lit "BASE"))
     = Some (toSvnUri (resourceUri r) SHOW (lit "BASE"))
  /\ getTitle path r (Some (lit "BASE"))
     = basename path (fsPath (resourceUri r)) ++ lit " (BASE)"
  /\ includes (lit "(BASE)") (getTitle path r (Some (lit "BASE"))) = true.
Proof.
  intros Ht.
  assert (Hsrc : rename_source r = None)
    by (unfold rename_source; now rewrite Ht).
  unfold getLeftResource, getRightResource, getTitle.
  rewrite Hsrc, Ht. repeat split.
  apply includes_iff.
  exists (basename path (fsPath (resourceUri r)) ++ lit " "), [].
  cbn [truthy_opt lit list_ascii_of_string map]. rewrite <- !app_assoc.
  reflexivity.
Qed.

Lemma deleted_against_base_witness :
  getLeftResource Samples.deleted_file (Some (lit "BASE")) = None
  /\ getTitle Samples.posix Samples.deleted_file (Some (lit "BASE"))
     = lit "old.txt (BASE)".
Proof.
  destruct (deleted_against_base Samples.posix Samples.deleted_file eq_refl)
    as (Hleft & _ & Htitle & _).
  split; [exact Hleft|]. rewrite Htitle. vm_compute. reflexivity.
Defined.

(** C9, as the claim has it, at a sample: the left endpoint of a deleted
    file against ["BASE"] is not the synthesized reference; there is none. *)
Lemma deleted_has_no_left_endpoint :
  getLeftResource Samples.deleted_file (Some (lit "BASE"))
  <> Some (toSvnUri (resourceUri Samples.deleted_file) SHOW (lit "BASE"))
  /\ getLeftResource Samples.deleted_file (Some (lit "BASE"))
     <> getRightResource Samples.deleted_file (Some (lit "BASE"))
  /\ getLeftResource Samples.deleted_file (Some (lit "BASE")) = None.
Proof.
  repeat split; discriminate.
Qed.

(* ================================================================== *)
(** * Further properties *)
(* ================================================================== *)

(** ** Classifier: range and soundness *)

Import Launch.

Lemma scan_sound (table : list (jsstring * jsstring))
      (stderr code : jsstring) :
  scan table stderr = Some code ->
  In code (map snd table) /\ includes (token code) stderr = true.
Proof.
  induction table as [|[name c] table IH]; cbn [scan map snd In];
    [discriminate|].
  destruct (includes (token c) stderr) eqn:Hc.
  - intros H. injection H as H. subst c. auto.
  - intros H. destruct (IH H). auto.
Qed.

Lemma getSvnErrorCode_known (stderr code : jsstring) :
  getSvnErrorCode stderr = Some code -> In code known_codes.
Proof.
  unfold getSvnErrorCode.
  destruct (scan svnErrorCodes stderr) as [c|] eqn:Hscan.
  - intros [= <-]. now destruct (scan_sound _ _ _ Hscan).
  - destruct (includes credentials_phrase stderr); [|discriminate].
    change (property (lit "AuthorizationFailed") svnErrorCodes)
      with (Some (lit "E170001")).
    intros [= <-]. vm_compute. tauto.
Qed.

(** X1.  [getSvnErrorCode] returns nothing but the five codes of
    [svnErrorCodes], and a code only for a reason: its token [svn: <code>]
    occurs in stderr, or the code is the one of [AuthorizationFailed] and the
    credential-exhaustion phrase occurs. *)
Theorem getSvnErrorCode_sound (stderr code : jsstring) :
  getSvnErrorCode stderr = Some code ->
  In code known_codes
  /\ (includes (token code) stderr = true
      \/ (code = lit "E170001"
          /\ includes credentials_phrase stderr = true)).
Proof.
  unfold getSvnErrorCode.
  destruct (scan svnErrorCodes stderr) as [c|] eqn:Hscan.
  - intros [= <-]. destruct (scan_sound _ _ _ Hscan). auto.
  - destruct (includes credentials_phrase stderr) eqn:Hphrase;
      [|discriminate].
    change (property (lit "AuthorizationFailed") svnErrorCodes)
      with (Some (lit "E170001")).
    intros [= <-]. split; [now left | right; auto].
Qed.

Lemma getSvnErrorCode_sound_witness :
  getSvnErrorCode (lit "svn: E155036: upgrade your working copy")
  = Some (lit "E155036")
  /\ In (lit "E155036") known_codes.
Proof.
  assert (H : getSvnErrorCode (lit "svn: E155036: upgrade your working copy")
              = Some (lit "E155036")) by (vm_compute; reflexivity).
  split; [exact H|].
  exact (proj1 (getSvnErrorCode_sound _ _ H)).
Defined.

(** X2.  [cpErrorHandler] hands its callback the error as it came unless its
    message holds ["ENOENT"]; then it hands on an [SvnError] around it, tagged
    ["NotASvnRepository"].  That tag is the key of the table, not one of its
    codes: no stderr makes [getSvnErrorCode] return it. *)
Theorem cpErrorHandler_tags_ENOENT (A : Type) (cb : Reason -> A)
        (err : jsstring) :
  (includes (lit "ENOENT") err = false ->
   cpErrorHandler cb err = cb (AsItCame err))
  /\ (includes (lit "ENOENT") err = true ->
      cpErrorHandler cb err
      = cb (Wrapped err (lit "Failed to execute svn (ENOENT)")
                    (lit "NotASvnRepository")))
  /\ property (lit "NotASvnRepository") svnErrorCodes
     = Some (lit "E155007")
  /\ ~ In (lit "NotASvnRepository") known_codes
  /\ forall stderr,
       getSvnErrorCode stderr <> Some (lit "NotASvnRepository").
Proof.
  assert (Hout : ~ In (lit "NotASvnRepository") known_codes).
  { cbn. intros H. repeat (destruct H as [H|H]; [discriminate H|]).
    exact H. }
  unfold cpErrorHandler. repeat split.
  - now intros ->.
  - now intros ->.
  - exact Hout.
  - intros stderr H. apply Hout. exact (getSvnErrorCode_known _ _ H).
Qed.

Lemma cpErrorHandler_tags_ENOENT_witness :
  cpErrorHandler (fun r => r) (lit "spawn svn ENOENT")
  = Wrapped (lit "spawn svn ENOENT") (lit "Failed to execute svn (ENOENT)")
            (lit "NotASvnRepository")
  /\ cpErrorHandler (fun r => r) (lit "spawn svn EACCES")
     = AsItCame (lit "spawn svn EACCES").
Proof.
  split.
  - apply (proj1 (proj2 (cpErrorHandler_tags_ENOENT
                           Reason (fun r => r) (lit "spawn svn ENOENT")))).
    vm_compute. reflexivity.
  - apply (proj1 (cpErrorHandler_tags_ENOENT
                    Reason (fun r => r) (lit "spawn svn EACCES"))).
    vm_compute. reflexivity.
Defined.

(** ** Executor: settling, output and streams *)

(** X3.  [exec] stays unsettled exactly while neither ['error'] nor ['exit']
    has come, or ['exit'] has come and stdout or stderr is not closed yet: it
    waits for the exit code and for both streams, in whatever order they
    come. *)
Theorem exec_waits_for_exit_and_streams
        (p : Platform) (trace : list Event) (ratio : nat) (this : Svn)
        (cwd : jsstring) (args : list jsstring) (options : ICpOptions) :
  run_result (exec p (ChildProcess trace)
                   ratio this cwd args options) = Unsettled
  <-> (exit_verdict trace = ExitPending
       \/ exists code,
           exit_verdict trace = ExitResolved code
           /\ (collected Stdout [] trace = None
               \/ collected Stderr [] trace = None)).
Proof.
  unfold exec. rewrite awaited_run_events.
  destruct (exit_verdict trace) as [|code|message];
    destruct (collected Stdout [] trace) as [out|];
    destruct (collected Stderr [] trace) as [err|];
    try match goal with
        | |- context [iconv_decode ?q ?b ?e] =>
            destruct (iconv_decode q b e)
        end;
    cbn [run_result];
    try (destruct (truthy_code code));
    (split;
     [ intros H; try discriminate H; auto;
       right; exists code; auto
     | intros [H|(c & H & [H'|H'])]; try discriminate; reflexivity ]).
Qed.

Lemma resolve_encoding_output (p : Platform) (ratio : nat)
      (args : list jsstring) (encoding : jsstring) (out : bytes)
      (line : jsstring) :
  In line (r_output (resolve_encoding p ratio args encoding out)) ->
  exists defaultEncoding,
    truthy_opt (default_encoding p) = Some defaultEncoding
    /\ encodingExists p defaultEncoding = false
    /\ line = invalid_encoding_line defaultEncoding.
Proof.
  unfold resolve_encoding, detect_encoding.
  destruct (existsb _ args); [intros []|].
  destruct (truthy_opt (default_encoding p)) as [de|].
  - destruct (encodingExists p de) eqn:He; cbn [negb].
    + destruct (isUtf8 p out); intros [].
    + intros [<-|[]]. now exists de.
  - destruct (g_encoding _); [destruct (_ && _)|]; intros [].
Qed.

(** X4.  With [log: false] neither the echo of the invocation nor stderr is
    emitted on [onOutput]; the one line that can still come is the diagnostic
    for a configured default encoding that iconv does not know. *)
Theorem exec_log_false_is_silent
        (p : Platform) (spawned : Spawned) (ratio : nat) (this : Svn)
        (cwd : jsstring) (args : list jsstring) (options : ICpOptions)
        (line : jsstring) :
  o_log options = Some false ->
  In line (run_output (exec p spawned ratio this cwd args options)) ->
  exists defaultEncoding,
    truthy_opt (default_encoding p) = Some defaultEncoding
    /\ encodingExists p defaultEncoding = false
    /\ line = invalid_encoding_line defaultEncoding.
Proof.
  intros Hlog. unfold exec, log_enabled.
  destruct spawned as [error|trace];
    [destruct (truthy cwd); cbn [o_log]; rewrite Hlog; intros []|].
  destruct (truthy cwd); cbn [o_log]; rewrite Hlog;
    (destruct (awaited (run_events p trace)) as [| |code out err];
     try destruct (iconv_decode p out _);
     cbn [run_output andb app]; try (intros []);
     rewrite ?app_nil_r; apply resolve_encoding_output).
Qed.

Lemma exec_log_false_is_silent_witness :
  run_output (exec Samples.misconfigured (ChildProcess Samples.denied)
                   0 Samples.svn
                   (lit "/wc") [lit "update"]
                   {| o_cwd := None; o_username := None; o_password := None;
                      o_log := Some false; o_encoding := None |})
  = [invalid_encoding_line (lit "latin-42")]
  /\ exists defaultEncoding,
       truthy_opt (default_encoding Samples.misconfigured)
       = Some defaultEncoding
       /\ encodingExists Samples.misconfigured defaultEncoding = false
       /\ invalid_encoding_line (lit "latin-42")
          = invalid_encoding_line defaultEncoding.
Proof.
  split; [reflexivity|].
  apply (exec_log_false_is_silent
           Samples.misconfigured (ChildProcess Samples.denied) 0 Samples.svn
           (lit "/wc") [lit "update"]
           {| o_cwd := None; o_username := None; o_password := None;
              o_log := Some false; o_encoding := None |}
           (invalid_encoding_line (lit "latin-42")) eq_refl).
  left. reflexivity.
Defined.

Lemma collected_until_close (ee : Emitter) (before after : list Event) :
  forall chunks,
    ee <> Process ->
    stays_open ee before ->
    collected ee chunks (before ++ StreamClose ee :: after)
    = Some (concat (chunks ++ chunks_of ee before)).
Proof.
  intros chunks Hee Hopen. revert chunks.
  induction Hopen as [|ev before Hev _ IH]; intros chunks.
  - cbn. assert (He : Emitter_eqb ee ee = true) by now destruct ee.
    now rewrite He, app_nil_r.
  - destruct ev as [m|c|ee' b|ee']; cbn [app collected chunks_of flat_map
                                           chunk_of closes] in *.
    + apply IH.
    + apply IH.
    + destruct (Emitter_eqb ee' ee).
      * rewrite IH. now rewrite <- app_assoc.
      * apply IH.
    + rewrite Hev. apply IH.
Qed.

(** X5.  What [exec] decodes as stdout is the concatenation of the chunks
    stdout emitted before its first ['close'], in their order: what stderr or
    the process emit in between, and what comes after the ['close'], does
    not enter it.  These bytes are given to [iconv.decode] with the resolved
    encoding, and the call carries the text that comes back, none when
    [iconv.decode] throws. *)
Theorem exec_stdout_is_chunks_before_close
        (p : Platform) (before after : list Event) (ratio : nat)
        (this : Svn) (cwd : jsstring) (args : list jsstring)
        (options : ICpOptions) (code : option Z) (out : bytes)
        (err : jsstring) :
  stays_open Stdout before ->
  exits_with p (before ++ StreamClose Stdout :: after) code out err ->
  out = concat (chunks_of Stdout before)
  /\ decoded_stdout
       (run_result
          (exec p (ChildProcess (before ++ StreamClose Stdout :: after))
                ratio this cwd args options))
     = iconv_decode p (concat (chunks_of Stdout before))
         (resolved_encoding p ratio args options
                            (concat (chunks_of Stdout before))).
Proof.
  intros Hopen Hexit.
  assert (Hout : out = concat (chunks_of Stdout before)).
  { destruct Hexit as (_ & Hc & _).
    rewrite collected_until_close in Hc by (discriminate || assumption).
    now injection Hc as <-. }
  split; [exact Hout|]. subst out.
  apply awaited_got_iff in Hexit.
  rewrite (proj1 (exec_got p _ ratio this cwd args options code _ err
                           Hexit)).
  unfold resolved_encoding.
  destruct (iconv_decode p _ _); [|reflexivity].
  destruct (truthy_code code); reflexivity.
Qed.

Lemma exec_stdout_is_chunks_before_close_witness :
  decoded_stdout
    (run_result
       (exec Samples.misconfigured
             (ChildProcess
                ([StreamData Stdout (Samples.ascii_bytes "At ");
                  StreamData Stderr (Samples.ascii_bytes "warning");
                  StreamData Stdout (Samples.ascii_bytes "revision 7.")]
                   ++ StreamClose Stdout
                   :: [StreamData Stdout (Samples.ascii_bytes "late");
                       StreamClose Stderr; ProcessExit (Some 0%Z)]))
             0 Samples.svn (lit "/wc") [lit "info"; lit "--xml"]
             Samples.no_options))
  = Some (lit "At revision 7.").
Proof.
  destruct (exec_stdout_is_chunks_before_close
              Samples.misconfigured
              [StreamData Stdout (Samples.ascii_bytes "At ");
               StreamData Stderr (Samples.ascii_bytes "warning");
               StreamData Stdout (Samples.ascii_bytes "revision 7.")]
              [StreamData Stdout (Samples.ascii_bytes "late");
               StreamClose Stderr; ProcessExit (Some 0%Z)]
              0 Samples.svn (lit "/wc") [lit "info"; lit "--xml"]
              Samples.no_options (Some 0%Z)
              (Samples.ascii_bytes "At revision 7.") (lit "warning"))
    as [_ H].
  - repeat constructor.
  - repeat split.
  - rewrite H. reflexivity.
Defined.

Lemma exit_verdict_emitted (trace : list Event) :
  exit_verdict trace = exit_verdict (emitted_by Process trace).
Proof.
  induction trace as [|[m|c|ee b|ee] trace IH]; cbn; try reflexivity;
    destruct ee; cbn; exact IH.
Qed.

Lemma collected_emitted (ee : Emitter) (trace : list Event) :
  forall chunks,
    collected ee chunks trace = collected ee chunks (emitted_by ee trace).
Proof.
  induction trace as [|[m|c|ee' b|ee'] trace IH]; intros chunks;
    try reflexivity.
  - destruct ee; cbn; apply IH.
  - destruct ee; cbn; apply IH.
  - destruct ee, ee'; cbn; apply IH.
  - destruct ee, ee'; cbn; try apply IH; reflexivity.
Qed.

(** X6.  How the events of the process, of stdout and of stderr interleave
    does not matter: two runs in which each of the three emits the same
    events in the same order settle alike and log the same lines. *)
Theorem exec_ignores_interleaving
        (p : Platform) (trace1 trace2 : list Event) (ratio : nat)
        (this : Svn) (cwd : jsstring) (args : list jsstring)
        (options : ICpOptions) :
  (forall ee, emitted_by ee trace1 = emitted_by ee trace2) ->
  run_result (exec p (ChildProcess trace1) ratio this cwd args options)
  = run_result (exec p (ChildProcess trace2) ratio this cwd args options)
  /\ run_output (exec p (ChildProcess trace1) ratio this cwd args options)
     = run_output (exec p (ChildProcess trace2) ratio this cwd args options).
Proof.
  intros Hsame.
  assert (Ha : awaited (run_events p trace1)
               = awaited (run_events p trace2)).
  { rewrite !awaited_run_events.
    rewrite (exit_verdict_emitted trace1), (exit_verdict_emitted trace2).
    rewrite (collected_emitted Stdout trace1),
      (collected_emitted Stdout trace2),
      (collected_emitted Stderr trace1),
      (collected_emitted Stderr trace2).
    now rewrite !Hsame. }
  unfold exec. rewrite Ha.
  destruct (awaited (run_events p trace2)) as [| |code out err];
    try (split; reflexivity).
  destruct (iconv_decode p out _); split; reflexivity.
Qed.

Lemma exec_ignores_interleaving_witness :
  run_result (exec Samples.misconfigured (ChildProcess Samples.succeeded)
                   0 Samples.svn
                   (lit "/wc") [lit "update"] Samples.no_options)
  = run_result (exec Samples.misconfigured
                     (ChildProcess
                        [ProcessExit (Some 0%Z); StreamClose Stderr;
                         StreamData Stdout
                           (Samples.ascii_bytes "At revision 7.");
                         StreamClose Stdout])
                     0 Samples.svn (lit "/wc") [lit "update"]
                     Samples.no_options).
Proof.
  apply (exec_ignores_interleaving
           Samples.misconfigured Samples.succeeded
           [ProcessExit (Some 0%Z); StreamClose Stderr;
            StreamData Stdout (Samples.ascii_bytes "At revision 7.");
            StreamClose Stdout]
           0 Samples.svn (lit "/wc") [lit "update"] Samples.no_options).
  intros [| |]; reflexivity.
Defined.

(** ** Executor: encoding *)

(** X7.  The encoding [exec] hands to [iconv.decode] is ["utf8"], the
    encoding hint of the options, or a name [iconv.encodingExists] accepts:
    neither the configured default nor the detector's guess is used
    unchecked. *)
Theorem resolved_encoding_is_known
        (p : Platform) (ratio : nat) (args : list jsstring)
        (options : ICpOptions) (out : bytes) :
  let encoding :=
    r_encoding (resolve_encoding p ratio args (encoding_hint options) out) in
  encoding = lit "utf8"
  \/ truthy_opt (o_encoding options) = Some encoding
  \/ encodingExists p encoding = true.
Proof.
  cbv zeta.
  assert (Hhint : encoding_hint options = lit "utf8"
                  \/ truthy_opt (o_encoding options)
                     = Some (encoding_hint options)).
  { unfold encoding_hint.
    destruct (truthy_opt (o_encoding options)); auto. }
  unfold resolve_encoding, detect_encoding.
  destruct (existsb _ args); [now left|].
  destruct (truthy_opt (default_encoding p)) as [de|].
  - destruct (encodingExists p de) eqn:He; cbn [negb r_encoding].
    + destruct (isUtf8 p out); cbn [negb r_encoding]; tauto.
    + tauto.
  - destruct (g_encoding _) as [guess|]; [|cbn; tauto].
    destruct (confident _ && encodingExists p guess) eqn:Hg;
      cbn [r_encoding]; [|tauto].
    apply andb_true_iff in Hg. tauto.
Qed.

(** X8.  The detector is consulted, and its global ratio raised, exactly when
    the arguments hold no ["--xml"] and no default encoding is configured;
    then the ratio is raised by one step, and a guess is taken only above
    the threshold. *)
Theorem detector_runs_only_unconfigured
        (p : Platform) (ratio : nat) (args : list jsstring)
        (hint : jsstring) (out : bytes) :
  let resolution := resolve_encoding p ratio args hint out in
  (r_ratio resolution = S ratio
   <-> (~ In (lit "--xml") args /\ truthy_opt (default_encoding p) = None))
  /\ (r_ratio resolution = ratio \/ r_ratio resolution = S ratio)
  /\ (r_ratio resolution = S ratio ->
      r_encoding resolution <> hint ->
      confident (g_confidence (detect p (S ratio) out)) = true
      /\ g_encoding (detect p (S ratio) out) = Some (r_encoding resolution)).
Proof.
  cbv zeta. unfold resolve_encoding, detect_encoding.
  destruct (existsb (eqb (lit "--xml")) args) eqn:Hxml.
  - cbn [r_ratio r_encoding]. apply existsb_exists in Hxml.
    destruct Hxml as (x & Hx & Hxx). apply eqb_eq in Hxx. subst x.
    repeat split; try (intros; lia); try tauto.
  - assert (Hnot : ~ In (lit "--xml") args).
    { intros Hin. apply existsb_eqb_In in Hin. congruence. }
    destruct (truthy_opt (default_encoding p)) as [de|].
    + assert (Hr : forall r, r = ratio -> r <> S ratio) by (intros; lia).
      destruct (encodingExists p de); cbn [negb r_ratio r_encoding];
        try destruct (isUtf8 p out); cbn [negb r_ratio r_encoding];
        (repeat split; try (intros; lia); try tauto;
         intros [_ H]; discriminate H).
    + destruct (g_encoding (detect p (S ratio) out)) as [guess|];
        [destruct (confident _ && encodingExists p guess) eqn:Hg|];
        cbn [r_ratio r_encoding]; repeat split; auto; try tauto;
        try (intros _ H; now elim H).
      all: apply andb_true_iff in Hg; tauto.
Qed.

(** ** Executor: what is logged and reported *)

(** X9.  Whenever logging is on, the process wrote to stderr and iconv
    knows the encoding stdout is decoded with, the last line [exec] emits on
    [onOutput] is that stderr, after a zero exit code as after any other:
    warnings of a call that is fulfilled are logged too.  When iconv does
    not know the encoding, [iconv.decode] throws before the stderr is
    logged: what is emitted ends with the echo and the diagnostic of the
    resolution, and the call is rejected whatever the exit code. *)
Theorem exec_logs_stderr_last
        (p : Platform) (trace : list Event) (ratio : nat) (this : Svn)
        (cwd : jsstring) (args : list jsstring) (options : ICpOptions)
        (code : option Z) (out : bytes) (err : jsstring) :
  exits_with p trace code out err ->
  log_enabled options = true ->
  truthy err = true ->
  let run := exec p (ChildProcess trace) ratio this cwd args options in
  let encoding := resolved_encoding p ratio args options out in
  (encodingExists p encoding = true ->
   last (run_output run) [] = err ++ [10%N]
   /\ (code = Some 0%Z ->
       run_result run
       = Fulfilled {| exitCode := code; stdout := decode p out encoding;
                      stderr := err |}))
  /\ (encodingExists p encoding = false ->
      run_output run
      = echo_line (if truthy cwd then cwd else lastCwd this) args
          :: r_output (resolve_encoding p ratio (run_args run)
                                        (encoding_hint options) out)
      /\ run_result run = Rejected (DecodeFailure encoding)).
Proof.
  intros Hexit Hlog Herr. cbv zeta. apply awaited_got_iff in Hexit.
  rewrite exec_args.
  destruct (exec_got p trace ratio this cwd args options code out err Hexit)
    as (Hresult & Houtput & _).
  cbv zeta in Hresult, Houtput. rewrite Hresult, Houtput, Hlog, Herr.
  unfold resolved_encoding, iconv_decode. cbn [andb].
  split; intros Hknown; rewrite Hknown.
  - split.
    + rewrite !app_assoc. apply last_last.
    + intros ->. reflexivity.
  - rewrite app_nil_r. split; reflexivity.
Qed.

Lemma exec_logs_stderr_last_witness :
  last (run_output (exec Samples.misconfigured (ChildProcess Samples.denied)
                         0 Samples.svn (lit "/wc") [lit "update"]
                         Samples.no_options)) []
  = lit "svn: E170001: Authorization failed" ++ [10%N]
  /\ run_output (exec Samples.misconfigured (ChildProcess Samples.denied)
                      0 Samples.svn (lit "/wc") [lit "update"]
                      Samples.unknown_hint)
     = [lit "[wc]$ svn update" ++ [10%N];
        invalid_encoding_line (lit "latin-42")].
Proof.
  split.
  - refine (proj1 (proj1 (exec_logs_stderr_last
                            Samples.misconfigured Samples.denied 0
                            Samples.svn (lit "/wc") [lit "update"]
                            Samples.no_options (Some 1%Z) []
                            (lit "svn: E170001: Authorization failed")
                            _ eq_refl eq_refl) eq_refl)).
    repeat split.
  - rewrite (proj1 (proj2 (exec_logs_stderr_last
                             Samples.misconfigured Samples.denied 0
                             Samples.svn (lit "/wc") [lit "update"]
                             Samples.unknown_hint (Some 1%Z) []
                             (lit "svn: E170001: Authorization failed")
                             ltac:(repeat split) eq_refl eq_refl) eq_refl)).
    vm_compute. reflexivity.
Defined.

(** X10.  The command name an [SvnError] of [exec] carries is the first
    argument the caller gave, whatever credentials are pushed behind; only
    with an empty argument vector it is the first pushed flag, if any. *)
Theorem svnCommand_is_first_argument
        (p : Platform) (spawned : Spawned) (ratio : nat) (this : Svn)
        (cwd : jsstring) (args : list jsstring) (options : ICpOptions)
        (e : SvnError) :
  run_result (exec p spawned ratio this cwd args options)
  = Rejected (CommandFailure e) ->
  err_svnCommand e
  = match args with
    | command :: _ => Some command
    | [] =>
        match truthy_opt (o_username options),
              truthy_opt (o_password options) with
        | Some _, _ => Some (lit "--username")
        | None, Some _ => Some (lit "--password")
        | None, None => None
        end
    end.
Proof.
  unfold exec. destruct spawned as [error|trace]; [discriminate|].
  destruct (awaited (run_events p trace)) as [| |code out err];
    cbn [run_result]; try discriminate.
  destruct (iconv_decode p out _); cbn [run_result]; [|discriminate].
  destruct (truthy_code code); [|discriminate].
  intros [= <-]. cbn [err_svnCommand]. unfold push_option.
  destruct (truthy cwd); cbn [o_username o_password];
    destruct (truthy_opt (o_username options)),
      (truthy_opt (o_password options)), args; reflexivity.
Qed.

Lemma svnCommand_is_first_argument_witness :
  exists e,
    run_result (exec Samples.misconfigured (ChildProcess Samples.denied)
                     0 Samples.svn
                     (lit "/wc") [lit "update"]
                     (with_credentials Samples.no_options
                        (Some (lit "me")) (Some (lit "secret"))))
    = Rejected (CommandFailure e)
    /\ err_svnCommand e = Some (lit "update").
Proof.
  eexists. split; [reflexivity|].
  apply (svnCommand_is_first_argument
           Samples.misconfigured (ChildProcess Samples.denied) 0 Samples.svn
           (lit "/wc") [lit "update"]
           (with_credentials Samples.no_options
              (Some (lit "me")) (Some (lit "secret")))).
  reflexivity.
Defined.

Lemma exec_this (p : Platform) (spawned : Spawned) (ratio : nat)
      (this : Svn) (cwd : jsstring) (args : list jsstring)
      (options : ICpOptions) :
  run_this (exec p spawned ratio this cwd args options)
  = if truthy cwd
    then {| svnPath := svnPath this; version := version this;
            lastCwd := cwd |}
    else this.
Proof.
  unfold exec. destruct spawned as [error|trace]; [reflexivity|].
  destruct (awaited (run_events p trace)) as [| |code out err];
    try reflexivity.
  destruct (iconv_decode p out _); reflexivity.
Qed.

(** X11.  The working directory of a call stays with the [Svn] object: the
    next call, when it gives an empty [cwd], echoes the directory of the call
    before, whatever that call came to, and leaves it in place. *)
Theorem empty_cwd_echoes_last_cwd
        (p1 p2 : Platform) (spawned1 spawned2 : Spawned)
        (ratio1 ratio2 : nat)
        (this : Svn) (cwd : jsstring) (args1 args2 : list jsstring)
        (options1 options2 : ICpOptions) :
  truthy cwd = true ->
  log_enabled options2 = true ->
  let first := exec p1 spawned1 ratio1 this cwd args1 options1 in
  let second := exec p2 spawned2 ratio2 (run_this first) [] args2 options2 in
  hd_error (run_output second) = Some (echo_line cwd args2)
  /\ lastCwd (run_this second) = cwd.
Proof.
  intros Hcwd Hlog. cbv zeta.
  rewrite exec_echo_first by exact Hlog.
  rewrite !exec_this, Hcwd. cbn [truthy lastCwd]. auto.
Qed.

Lemma empty_cwd_echoes_last_cwd_witness :
  hd_error
    (run_output
       (exec Samples.misconfigured (ChildProcess Samples.succeeded) 0
             (run_this (exec Samples.misconfigured
                             (ChildProcess Samples.denied) 0
                             Samples.svn (lit "/home/me/wc") [lit "update"]
                             Samples.no_options))
             [] [lit "status"] Samples.no_options))
  = Some (lit "[wc]$ svn status" ++ [10%N]).
Proof.
  rewrite (proj1 (empty_cwd_echoes_last_cwd
                    Samples.misconfigured Samples.misconfigured
                    (ChildProcess Samples.denied)
                    (ChildProcess Samples.succeeded) 0 0 Samples.svn
                    (lit "/home/me/wc") [lit "update"] [lit "status"]
                    Samples.no_options Samples.no_options
                    eq_refl eq_refl)).
  vm_compute. reflexivity.
Defined.

Lemma split_separators_plain (name : jsstring) :
  no_separator name ->
  forall cur in_sep,
    split_separators cur in_sep name = [rev cur ++ name].
Proof.
  induction 1 as [|c name Hc _ IH]; intros cur in_sep; cbn.
  - now rewrite app_nil_r.
  - rewrite Hc, IH. cbn. now rewrite <- app_assoc.
Qed.

Lemma split_separators_nonempty (s : jsstring) :
  forall cur in_sep, split_separators cur in_sep s <> [].
Proof.
  induction s as [|c s IH]; intros cur in_sep; cbn; [discriminate|].
  destruct (is_separator c); [destruct in_sep|]; try apply IH.
  discriminate.
Qed.

Lemma last_cons_nonempty {A : Type} (a : A) (l : list A) (d : A) :
  l <> [] -> last (a :: l) d = last l d.
Proof.
  destruct l; [contradiction | reflexivity].
Qed.

Lemma split_separators_last (pre name : jsstring) (sep : char16) :
  is_separator sep = true -> no_separator name ->
  forall cur in_sep,
    last (split_separators cur in_sep (pre ++ sep :: name)) [] = name.
Proof.
  intros Hsep Hname. induction pre as [|c pre IH]; intros cur in_sep.
  - cbn [app split_separators]. rewrite Hsep.
    rewrite (split_separators_plain name Hname).
    destruct in_sep; reflexivity.
  - cbn [app split_separators].
    destruct (is_separator c); [destruct in_sep|]; try apply IH.
    rewrite last_cons_nonempty by apply split_separators_nonempty.
    apply IH.
Qed.

(** X12.  The name in the brackets of the echo line is the last segment of
    the working directory: what follows its last slash or backslash, the
    whole of it when it has neither, nothing when it ends in one. *)
Theorem echo_names_last_segment (args : list jsstring) :
  (forall pre sep name,
      is_separator sep = true -> no_separator name ->
      echo_line (pre ++ sep :: name) args
      = lit "[" ++ name ++ lit "]$ svn "
            ++ join (lit " ") (map quote_arg args) ++ [10%N])
  /\ (forall cwd,
         no_separator cwd ->
         echo_line cwd args
         = lit "[" ++ cwd ++ lit "]$ svn "
               ++ join (lit " ") (map quote_arg args) ++ [10%N]).
Proof.
  split.
  - intros pre sep name Hsep Hname. unfold echo_line, pop.
    now rewrite split_separators_last.
  - intros cwd Hcwd. unfold echo_line, pop.
    now rewrite split_separators_plain.
Qed.

Lemma echo_names_last_segment_witness :
  echo_line (lit "C:\work\wc") [lit "commit"; lit "-m"; lit "two words"]
  = lit "[wc]$ svn commit -m 'two words'" ++ [10%N].
Proof.
  assert (Hname : no_separator (lit "wc")) by repeat constructor.
  exact (proj1 (echo_names_last_segment
                  [lit "commit"; lit "-m"; lit "two words"])
           (lit "C:\work") 92%N (lit "wc") eq_refl Hname).
Defined.

(** ** Executor: the displayed stderr *)

Lemma replace_prefixes_length (s : jsstring) :
  forall skip bol, length (replace_prefixes skip bol s) <= length s.
Proof.
  induction s as [|c s IH]; intros skip bol; cbn [replace_prefixes];
    [reflexivity|].
  destruct skip as [|k].
  - destruct (if bol then match_error_prefix (c :: s) else None)
      as [[|k]|]; cbn [length].
    + specialize (IH 0 (is_line_terminator c)). lia.
    + specialize (IH k (is_line_terminator c)). lia.
    + specialize (IH 0 (is_line_terminator c)). lia.
  - specialize (IH k (is_line_terminator c)). cbn [length]. lia.
Qed.

Lemma replace_prefixes_without_token (s : jsstring) :
  includes (lit "svn: E") s = false ->
  forall bol, replace_prefixes 0 bol s = s.
Proof.
  induction s as [|c s IH]; intros Hs bol; [reflexivity|].
  cbn [includes] in Hs. apply orb_false_iff in Hs. destruct Hs as [Hc Hs].
  cbn [replace_prefixes]. unfold match_error_prefix. rewrite Hc.
  destruct bol; now rewrite IH.
Qed.

(** X13.  The stderr an [SvnError] displays is never longer than the stderr
    of the process, and a stderr in which ["svn: E"] does not occur is
    displayed as it is. *)
Theorem stderrFormated_keeps_plain_text (stderr : jsstring) :
  length (stderrFormated_of stderr) <= length stderr
  /\ (includes (lit "svn: E") stderr = false ->
      stderrFormated_of stderr = stderr).
Proof.
  split.
  - apply replace_prefixes_length.
  - intros H. now apply replace_prefixes_without_token.
Qed.

Lemma stderrFormated_keeps_plain_text_witness :
  stderrFormated_of (lit "svn: warning: W155010: node not found")
  = lit "svn: warning: W155010: node not found".
Proof.
  apply (proj2 (stderrFormated_keeps_plain_text
                  (lit "svn: warning: W155010: node not found"))).
  vm_compute. reflexivity.
Defined.

(** ** [getRepositoryRoot] *)

Lemma exec_info_xml_result (p : Platform) (trace : list Event) (ratio : nat)
      (this : Svn) (path : jsstring) :
  run_result (exec p (ChildProcess trace)
                   ratio this path [lit "info"; lit "--xml"]
                   default_options)
  = match awaited (run_events p trace) with
    | StillPending => Unsettled
    | Threw message => Rejected (SpawnFailure message)
    | Got code out err =>
        if truthy_code code
        then Rejected (CommandFailure
               {| err_message := lit "Failed to execute svn";
                  err_stdout := decode p out (lit "utf8");
                  err_stderr := err;
                  err_stderrFormated := stderrFormated_of err;
                  err_exitCode := code;
                  err_svnErrorCode := Classifier.getSvnErrorCode err;
                  err_svnCommand := Some (lit "info") |})
        else Fulfilled {| exitCode := code;
                          stdout := decode p out (lit "utf8");
                          stderr := err |}
    end.
Proof.
  destruct (awaited (run_events p trace)) as [| |code out err] eqn:Ha.
  - unfold exec. now rewrite Ha.
  - unfold exec. now rewrite Ha.
  - rewrite (proj1 (exec_got p trace ratio this path
                             [lit "info"; lit "--xml"] default_options
                             code out err Ha)).
    rewrite resolve_encoding_xml by (right; left; reflexivity).
    cbn [r_encoding]. unfold iconv_decode. now rewrite utf8_exists.
Qed.

(** X14.  [getRepositoryRoot] asks for [info --xml] in the given path and
    gives the parser stdout decoded as ["utf8"], whatever encoding is
    configured.  A failed launch, a [cp.spawn] that throws and a rejected
    parse all end in the error ["Unable to find repository root path"]; a
    non-zero exit ends in the [SvnError] of [exec], unchanged; and when the
    parsed info names no working-copy root, the given path itself is the
    root. *)
Theorem getRepositoryRoot_outcomes
        (p : Platform) (parseInfoXml : jsstring -> InfoXml)
        (trace : list Event) (ratio : nat) (this : Svn) (path : jsstring) :
  (fails_to_launch trace ->
   getRepositoryRoot p parseInfoXml (ChildProcess trace) ratio this path
   = RootError (lit "Unable to find repository root path"))
  /\ (forall code out err,
         exits_with p trace (Some code) out err -> code <> 0%Z ->
         exists e,
           getRepositoryRoot p parseInfoXml (ChildProcess trace) ratio this path
           = RootSvnError e
           /\ run_result (exec p (ChildProcess trace) ratio this path
                               [lit "info"; lit "--xml"] default_options)
              = Rejected (CommandFailure e)
           /\ err_svnCommand e = Some (lit "info"))
  /\ (forall out err,
         exits_with p trace (Some 0%Z) out err ->
         getRepositoryRoot p parseInfoXml (ChildProcess trace) ratio this path
         = match parseInfoXml (decode p out (lit "utf8")) with
           | ParseRejected =>
               RootError (lit "Unable to find repository root path")
           | Parsed (Some (c :: root)) => Root (c :: root)
           | Parsed _ => Root path
           end)
  /\ (forall error,
         getRepositoryRoot p parseInfoXml (SpawnThrows error) ratio this path
         = RootError (lit "Unable to find repository root path")).
Proof.
  unfold getRepositoryRoot. rewrite exec_info_xml_result.
  split; [|split; [|split]]; [| | |reflexivity].
  - intros [message Hfail]. apply awaited_threw_iff with (p := p) in Hfail.
    now rewrite Hfail.
  - intros code out err Hexit Hcode. apply awaited_got_iff in Hexit.
    rewrite Hexit.
    replace (truthy_code (Some code)) with true
      by (symmetry; apply truthy_code_iff; now exists code).
    eexists. repeat split.
  - intros out err Hexit. apply awaited_got_iff in Hexit. rewrite Hexit.
    cbn [truthy_code Z.eqb negb stdout].
    destruct (parseInfoXml (decode p out (lit "utf8"))) as [|[[|c root]|]];
      reflexivity.
Qed.

Lemma getRepositoryRoot_outcomes_witness :
  getRepositoryRoot Samples.misconfigured (fun _ => Parsed None)
                    (ChildProcess Samples.succeeded) 0 Samples.svn (lit "/wc")
  = Root (lit "/wc")
  /\ getRepositoryRoot Samples.misconfigured (fun _ => Parsed None)
                       (ChildProcess Samples.launch_failure) 0 Samples.svn
                       (lit "/wc")
     = RootError (lit "Unable to find repository root path").
Proof.
  split.
  - rewrite (proj1 (proj2 (proj2 (getRepositoryRoot_outcomes
                                    Samples.misconfigured
                                    (fun _ => Parsed None)
                                    Samples.succeeded 0 Samples.svn
                                    (lit "/wc"))))
               (Samples.ascii_bytes "At revision 7.") []).
    + reflexivity.
    + repeat split.
  - apply (proj1 (getRepositoryRoot_outcomes
                    Samples.misconfigured (fun _ => Parsed None)
                    Samples.launch_failure 0 Samples.svn (lit "/wc"))).
    eexists. reflexivity.
Defined.

(** ** Dispatch: what [fn] is called with *)

Section DispatchMore.

Variable Repository : Type.
Hypothesis Repository_eq_dec : forall a b : Repository, {a = b} + {a <> b}.
Variable getRepository : Uri -> option Repository.

Lemma owners_In (paths : list Uri) (repo : Repository) :
  In repo (owners getRepository paths) ->
  exists u, In u paths /\ getRepository u = Some repo.
Proof.
  induction paths as [|w paths IH]; cbn; [intros []|].
  destruct (getRepository w) as [r|] eqn:Hw.
  - intros [<-|Hin].
    + exists w. auto.
    + destruct (IH Hin) as (u & Hu & Hr). exists u. auto.
  - intros Hin. destruct (IH Hin) as (u & Hu & Hr). exists u. auto.
Qed.

Lemma owners_unresolvable (paths : list Uri) :
  (forall u, In u paths -> getRepository u = None) ->
  owners getRepository paths = [].
Proof.
  induction paths as [|w paths IH]; intros H; [reflexivity|]. cbn.
  rewrite (H w) by now left. apply IH. intros u Hu. apply H. now right.
Qed.

(** Every group holds a resource, and only resources of its repository. *)
Lemma groups_hold_resources (paths : list Uri) (g : Group Repository) :
  In g (groups (group_resources Repository_eq_dec getRepository paths)) ->
  (exists u rest, resources g = u :: rest)
  /\ Forall (fun u => getRepository u = Some (repository g)) (resources g).
Proof.
  rewrite (proj1 (group_resources_groups Repository Repository_eq_dec
                    getRepository paths)).
  unfold groups_of. intros Hin. apply in_map_iff in Hin.
  destruct Hin as (repo & <- & Hrepo). cbn [resources repository].
  apply first_seen_In in Hrepo. apply owners_In in Hrepo.
  destruct Hrepo as (u & Hu & Hr). split.
  - assert (Hin : In u (owned_by Repository_eq_dec getRepository repo paths)).
    { apply filter_In. split; [exact Hu|]. unfold owner_is. rewrite Hr.
      now destruct (Repository_eq_dec repo repo). }
    destruct (owned_by Repository_eq_dec getRepository repo paths)
      as [|w rest]; [destruct Hin|]. now exists w, rest.
  - apply Forall_forall. intros w Hw. apply filter_In in Hw.
    destruct Hw as [_ Hw]. unfold owner_is in Hw.
    destruct (getRepository w) as [r|]; [|discriminate].
    now destruct (Repository_eq_dec r repo) as [->|].
Qed.

Variables T E : Type.
Variable fn : Repository -> Target -> PromiseAll.Promise T E.

(** X15.  [runByRepository] never calls [fn] with nothing to work on: given
    one [Uri], [fn] gets that [Uri]; given an array, it gets an array that is
    not empty; and what it gets belongs to the repository it gets. *)
Theorem fn_gets_resources_of_its_repository
        (arg : Uri + list Uri) (schedule : list nat)
        (repo : Repository) (target : Target) :
  In (repo, target)
     (d_calls (runByRepository Repository_eq_dec getRepository fn arg
                               schedule)) ->
  match arg, target with
  | inl uri, Single resource =>
      resource = Some uri /\ getRepository uri = Some repo
  | inr _, Several resources =>
      resources <> []
      /\ Forall (fun u => getRepository u = Some repo) resources
  | _, _ => False
  end.
Proof.
  unfold runByRepository. cbn [d_calls]. unfold calls.
  intros Hin. apply in_map_iff in Hin. destruct Hin as (g & Hg & Hin).
  destruct (groups_hold_resources _ g Hin) as ((u & rest & Hres) & Hall).
  destruct arg as [uri|uris]; injection Hg as <- <-.
  - rewrite Hres in *. cbn [hd_error].
    unfold group_resources in Hin. cbn [fold_left] in Hin.
    unfold group_step in Hin.
    destruct (getRepository uri) as [r|] eqn:Hr; cbn in Hin;
      [|destruct Hin].
    destruct Hin as [<-|[]]. cbn in Hres. injection Hres as <- <-. auto.
  - split; [now rewrite Hres | exact Hall].
Qed.

Lemma all_of_none (schedule : list nat) :
  @PromiseAll.all T E [] schedule = Some (inl []).
Proof.
  unfold PromiseAll.all. cbn [length PromiseAll.start].
  induction schedule as [|i schedule IH]; [reflexivity|].
  cbn [fold_left]. unfold PromiseAll.settle at 2.
  now destruct i.
Qed.

(** X16.  When no path of a batch has a repository, [fn] is not called, every
    path is warned about, and the promise [runByRepository] returns is
    fulfilled with the empty array: the batch does not fail. *)
Theorem unresolvable_batch_is_fulfilled
        (arg : Uri + list Uri) (schedule : list nat) :
  let paths := match arg with inl uri => [uri] | inr uris => uris end in
  (forall u, In u paths -> getRepository u = None) ->
  let dispatched :=
    runByRepository Repository_eq_dec getRepository fn arg schedule in
  d_calls dispatched = []
  /\ d_warned dispatched = paths
  /\ d_result dispatched = Some (inl []).
Proof.
  cbv zeta. intros Hnone. unfold runByRepository.
  cbn [d_calls d_warned d_result].
  destruct (group_resources_groups Repository Repository_eq_dec
              getRepository
              match arg with inl uri => [uri] | inr uris => uris end)
    as [Hg Hw].
  rewrite Hg, Hw, (owners_unresolvable _ Hnone). cbn [first_seen groups_of
                                                       map calls].
  repeat split.
  - clear Hg Hw.
    induction (match arg with inl uri => [uri] | inr uris => uris end)
      as [|w paths IH]; [reflexivity|].
    cbn [filter]. unfold resolvable at 1. rewrite (Hnone w) by now left.
    cbn [negb]. f_equal. apply IH. intros u Hu. apply Hnone. now right.
  - apply all_of_none.
Qed.

End DispatchMore.

Lemma fn_gets_resources_of_its_repository_witness :
  d_calls (runByRepository Nat.eq_dec Samples.two_repositories
             Samples.fails_in_second (inl (Samples.file "/b/y")) [])
  = [(2, Single (Some (Samples.file "/b/y")))]
  /\ Samples.two_repositories (Samples.file "/b/y") = Some 2.
Proof.
  split; [reflexivity|].
  exact (proj2 (fn_gets_resources_of_its_repository
                  nat Nat.eq_dec Samples.two_repositories nat jsstring
                  Samples.fails_in_second (inl (Samples.file "/b/y")) []
                  2 (Single (Some (Samples.file "/b/y")))
                  (or_introl eq_refl))).
Defined.

Lemma unresolvable_batch_is_fulfilled_witness :
  d_result (runByRepository Nat.eq_dec Samples.two_repositories
              Samples.fails_in_second
              (inr [Samples.file "/c/x"; Samples.file "/d/y"]) [1; 0])
  = Some (inl [])
  /\ d_warned (runByRepository Nat.eq_dec Samples.two_repositories
                 Samples.fails_in_second
                 (inr [Samples.file "/c/x"; Samples.file "/d/y"]) [1; 0])
     = [Samples.file "/c/x"; Samples.file "/d/y"].
Proof.
  destruct (unresolvable_batch_is_fulfilled
              nat Nat.eq_dec Samples.two_repositories nat jsstring
              Samples.fails_in_second
              (inr [Samples.file "/c/x"; Samples.file "/d/y"]) [1; 0])
    as (_ & Hw & Hr).
  - intros u [<-|[<-|[]]]; reflexivity.
  - split; [exact Hr | exact Hw].
Defined.

(** ** Opening a resource *)

Import Workflows.

Lemma has_left_iff (resource : Resource) (against : option jsstring) :
  has_left resource = true
  <-> exists target,
      getLeftResource resource against
      = Some (toSvnUri target SHOW (or_empty against))
      /\ (rename_source resource = Some target
          \/ rename_source resource = None
             /\ target = resourceUri resource).
Proof.
  unfold has_left, getLeftResource.
  destruct (rename_source resource) as [old|].
  - split; [|reflexivity]. intros _. exists old. auto.
  - destruct (type resource); split;
      try discriminate; try reflexivity;
      try (intros _; eexists; split; [reflexivity | right; auto]);
      intros (target & Hl & _); discriminate.
Qed.

Lemma has_left_right (resource : Resource) (against : option jsstring) :
  has_left resource = true ->
  getRightResource resource against = Some (resourceUri resource).
Proof.
  unfold has_left, rename_source, getRightResource.
  destruct (type resource); cbn; try reflexivity;
    destruct (renameResourceUri resource); discriminate.
Qed.

Lemma no_left_iff (resource : Resource) (against : option jsstring) :
  has_left resource = false <-> getLeftResource resource against = None.
Proof.
  unfold has_left, getLeftResource.
  destruct (rename_source resource) as [old|]; [split; discriminate|].
  destruct (type resource); split; try discriminate; reflexivity.
Qed.

(** X17.  [_openResource] opens a diff exactly for a resource that is added
    with a rename source, conflicted, modified or replaced, and whose working
    file is not a directory.  The diff then has the working file on the
    right, the svn SHOW reference of the rename source (or of the file
    itself) at [against] on the left, and the title of [getTitle]. *)
Theorem diff_is_opened_against_the_working_file
        (Selection : Type) (toString : Uri -> jsstring)
        (isDirectory : jsstring -> option bool) (path : PathModule)
        (activeTextEditor : option (Uri * Selection)) (resource : Resource)
        (against : option jsstring)
        (preview preserveFocus preserveSelection : option bool)
        (left right : Uri) (title : jsstring) :
  (exists opts,
      _openResource toString isDirectory path activeTextEditor resource
                    against preview preserveFocus preserveSelection
      = VscodeDiff left right title opts)
  <-> has_left resource = true
      /\ isDirectory (fsPath (resourceUri resource)) = Some false
      /\ left = toSvnUri match rename_source resource with
                         | Some old => old
                         | None => resourceUri resource
                         end SHOW (or_empty against)
      /\ right = resourceUri resource
      /\ title = getTitle path resource against.
Proof.
  unfold _openResource. split.
  - intros (opts & Hopen).
    destruct (getLeftResource resource against) as [l|] eqn:Hl.
    + assert (Hhas : has_left resource = true).
      { destruct (has_left resource) eqn:Hh; [reflexivity|].
        apply (no_left_iff resource against) in Hh. congruence. }
      rewrite (has_left_right resource against Hhas) in Hopen.
      destruct (isDirectory (fsPath (resourceUri resource))) as [[|]|];
        try discriminate.
      injection Hopen as <- <- <- _.
      apply (has_left_iff resource against) in Hhas as Hsrc.
      destruct Hsrc as (target & Hl' & Hsrc). rewrite Hl in Hl'.
      injection Hl' as ->.
      repeat split; try assumption.
      destruct Hsrc as [->|[-> ->]]; reflexivity.
    + destruct (getRightResource resource against) as [r|];
        [|discriminate].
      destruct (isDirectory (fsPath r)) as [[|]|]; discriminate.
  - intros (Hhas & Hdir & -> & -> & ->).
    rewrite (has_left_right resource against Hhas), Hdir.
    apply (has_left_iff resource against) in Hhas.
    destruct Hhas as (target & -> & Hsrc). eexists.
    destruct Hsrc as [->|[-> ->]]; reflexivity.
Qed.

(** X18.  A resource with nothing to compare against (deleted, missing,
    added without a rename source, ignored, unversioned) is never diffed.
    [_openResource] shows it on its own exactly when [fs.statSync] finds its
    path and finds no directory there: a deleted or missing resource as the
    svn SHOW reference of the file at [against], the others as the working
    file.  When [fs.statSync] throws, as it does for a file that is not on
    disk, nothing is shown. *)
Theorem lone_resource_is_shown
        (Selection : Type) (toString : Uri -> jsstring)
        (isDirectory : jsstring -> option bool) (path : PathModule)
        (activeTextEditor : option (Uri * Selection)) (resource : Resource)
        (against : option jsstring)
        (preview preserveFocus preserveSelection : option bool) :
  has_left resource = false ->
  let opened :=
    _openResource toString isDirectory path activeTextEditor resource
                  against preview preserveFocus preserveSelection in
  (forall left right title opts,
      opened <> VscodeDiff left right title opts)
  /\ (forall uri,
         (exists opts, opened = ShowTextDocument uri opts)
         <-> isDirectory (fsPath (resourceUri resource)) = Some false
             /\ match type resource with
                | DELETED | MISSING =>
                    uri = toSvnUri (resourceUri resource) SHOW
                                   (or_empty against)
                | ADDED | IGNORED | UNVERSIONED => uri = resourceUri resource
                | _ => False
                end)
  /\ (opened = StatThrew
      <-> isDirectory (fsPath (resourceUri resource)) = None
          /\ forall name, type resource <> OTHER name).
Proof.
  intros Hhas. cbv zeta. unfold _openResource.
  rewrite (proj1 (no_left_iff resource against) Hhas).
  unfold has_left, rename_source in Hhas. unfold getRightResource.
  destruct (type resource) eqn:Htype; cbn in Hhas; try discriminate Hhas;
    cbn [fsPath toSvnUri];
    destruct (isDirectory (fsPath (resourceUri resource)))
      as [[|]|] eqn:Hdir;
    (split; [intros left right title opts; discriminate|]);
    (split;
     [ intros uri; split;
       [ intros (opts & H);
         solve [ discriminate H
               | injection H as <- _; split; reflexivity ]
       | intros (H & Huri);
         solve [ discriminate H
               | contradiction
               | subst uri; eexists; reflexivity ] ]
     | split;
       [ intros H;
         solve [ discriminate H
               | split; [reflexivity | intros name; discriminate] ]
       | intros (H & Hname);
         solve [ discriminate H
               | reflexivity
               | exfalso; eapply Hname; reflexivity ] ] ]).
Qed.

Lemma lone_resource_is_shown_witness :
  _openResource (Selection := unit) fsPath (fun _ => None) Samples.posix
                None Samples.deleted_file (Some (lit "BASE")) None
                (Some true) (Some false)
  = StatThrew
  /\ exists opts,
      _openResource (Selection := unit) fsPath (fun _ => Some false)
                    Samples.posix None Samples.deleted_file
                    (Some (lit "BASE")) None (Some true) (Some false)
      = ShowTextDocument
          (toSvnUri (resourceUri Samples.deleted_file) SHOW (lit "BASE"))
          opts.
Proof.
  split.
  - apply (proj2 (proj2 (lone_resource_is_shown
                           unit fsPath (fun _ => None) Samples.posix None
                           Samples.deleted_file (Some (lit "BASE")) None
                           (Some true) (Some false) eq_refl))).
    split; [reflexivity | discriminate].
  - apply (proj1 (proj2 (lone_resource_is_shown
                           unit fsPath (fun _ => Some false) Samples.posix
                           None Samples.deleted_file (Some (lit "BASE"))
                           None (Some true) (Some false) eq_refl))).
    split; reflexivity.
Defined.

(** X19.  [openHEADFile] and [openResourceHead] agree: for a working file
    that is not a directory, [openHEADFile] opens a HEAD version exactly when
    [openResourceHead] opens a diff, and what it opens is the left side of
    that diff; otherwise it warns that the HEAD version is not available. *)
Theorem openHEADFile_opens_left_side_of_head_diff
        (Selection : Type) (toString : Uri -> jsstring)
        (isDirectory : jsstring -> option bool) (path : PathModule)
        (join : jsstring -> jsstring -> jsstring)
        (activeTextEditor : option (Uri * Selection)) (resource : Resource) :
  isDirectory (fsPath (resourceUri resource)) = Some false ->
  (forall HEAD,
      (exists title,
          openHEADFile path join (Some resource) = VscodeOpen HEAD title)
      <-> (exists right title opts,
              openResourceHead toString isDirectory path activeTextEditor
                               resource
              = VscodeDiff HEAD right title opts))
  /\ ((exists warning,
          openHEADFile path join (Some resource) = NotAvailable warning)
      <-> forall left right title opts,
          openResourceHead toString isDirectory path activeTextEditor
                           resource
          <> VscodeDiff left right title opts).
Proof.
  intros Hdir. unfold openHEADFile, openResourceHead, _openResource.
  destruct (getLeftResource resource (Some (lit "HEAD"))) as [l|] eqn:Hl.
  - assert (Hhas : has_left resource = true).
    { destruct (has_left resource) eqn:Hh; [reflexivity|].
      apply (no_left_iff resource (Some (lit "HEAD"))) in Hh. congruence. }
    rewrite (has_left_right resource _ Hhas), Hdir. split.
    + intros HEAD. split.
      * intros (title & H). injection H as <- _. now eexists _, _, _.
      * intros (right & title & opts & H). injection H as <- _ _ _.
        now eexists.
    + split.
      * intros (warning & H). discriminate.
      * intros H. exfalso. eapply H. reflexivity.
  - split.
    + intros HEAD. split.
      * intros (title & H). discriminate.
      * intros (right & title & opts & H).
        destruct (getRightResource resource (Some (lit "HEAD"))) as [r|];
          [|discriminate].
        destruct (isDirectory (fsPath r)) as [[|]|]; discriminate.
    + split.
      * intros _ left right title opts.
        destruct (getRightResource resource (Some (lit "HEAD"))) as [r|];
          [|discriminate].
        destruct (isDirectory (fsPath r)) as [[|]|]; discriminate.
      * intros _. now eexists.
Qed.

Lemma openHEADFile_opens_left_side_of_head_diff_witness :
  (exists title,
      openHEADFile Samples.posix (fun dir name => dir ++ lit "/" ++ name)
                   (Some Samples.renamed_file)
      = VscodeOpen (toSvnUri (Samples.file "/a/old.txt") SHOW (lit "HEAD"))
                   title)
  /\ (exists warning,
         openHEADFile Samples.posix (fun dir name => dir ++ lit "/" ++ name)
                      (Some Samples.deleted_file)
         = NotAvailable warning).
Proof.
  split.
  - apply (proj1 (openHEADFile_opens_left_side_of_head_diff
                    unit fsPath (fun _ => Some false) Samples.posix
                    (fun dir name => dir ++ lit "/" ++ name) None
                    Samples.renamed_file eq_refl)).
    now eexists _, _, _.
  - apply (proj2 (openHEADFile_opens_left_side_of_head_diff
                    unit fsPath (fun _ => Some false) Samples.posix
                    (fun dir name => dir ++ lit "/" ++ name) None
                    Samples.deleted_file eq_refl)).
    intros left right title opts. discriminate.
Defined.

(** ** [resolveAll] *)

Lemma resolve_each_calls
      (answer : nat -> option jsstring)
      (resolve : list jsstring -> jsstring -> jsstring + jsstring)
      (conflicts : list jsstring) :
  forall n k,
    k <= length conflicts ->
    (forall i, i < k -> answer (n + i) <> None) ->
    (k < length conflicts -> answer (n + k) = None) ->
    map fst (resolve_calls (resolve_each answer resolve n conflicts))
    = map (fun conflict => [conflict]) (firstn k conflicts)
    /\ map Some (map snd (resolve_calls
                            (resolve_each answer resolve n conflicts)))
       = map answer (seq n k).
Proof.
  induction conflicts as [|conflict rest IH]; intros n k Hk Hans Hstop.
  - destruct k; [now split | cbn in Hk; lia].
  - cbn [resolve_each resolve_calls].
    destruct k as [|k].
    + assert (Hn : answer n = None).
      { rewrite <- (Nat.add_0_r n). apply Hstop. cbn. lia. }
      rewrite Hn. now split.
    + destruct (answer n) as [label|] eqn:Hn.
      * destruct (IH (S n) k) as [Hfiles Hlabels].
        -- cbn in Hk. lia.
        -- intros i Hi. replace (S n + i) with (n + S i) by lia.
           apply Hans. lia.
        -- intros Hlt. replace (S n + k) with (n + S k) by lia.
           apply Hstop. cbn. lia.
        -- destruct (resolve [conflict] label);
             cbn [resolve_calls map fst snd firstn seq];
             now rewrite Hfiles, Hlabels, Hn.
      * exfalso. apply (Hans 0); [lia|]. now rewrite Nat.add_0_r.
Qed.

(** X20.  [resolveAll] resolves the conflicts one by one, in their order,
    each in a call of its own with the option picked for it, up to the first
    prompt that is dismissed: at most [k] prompts being answered, the calls
    of [repository.resolve] are those for the first [k] conflicts.  A call
    that fails does not end the loop: the calls do not depend on what
    [resolve] gives. *)
Theorem resolveAll_resolves_until_dismissed
        (answer : nat -> option jsstring)
        (resolve : list jsstring -> jsstring -> jsstring + jsstring)
        (conflicts : list jsstring) (k : nat) :
  k <= length conflicts ->
  (forall i, i < k -> answer i <> None) ->
  (k < length conflicts -> answer k = None) ->
  map fst (resolve_calls (resolveAll answer resolve conflicts))
  = map (fun conflict => [conflict]) (firstn k conflicts)
  /\ map Some (map snd (resolve_calls (resolveAll answer resolve conflicts)))
     = map answer (seq 0 k).
Proof.
  intros Hk Hans Hstop. unfold resolveAll.
  assert (Hcalls :
            resolve_calls
              (match conflicts with
               | [] => [ShowInformationMessage (lit "No Conflicts")]
               | _ :: _ => []
               end ++ resolve_each answer resolve 0 conflicts)
            = resolve_calls (resolve_each answer resolve 0 conflicts))
    by now destruct conflicts.
  rewrite Hcalls. now apply resolve_each_calls.
Qed.

Lemma resolveAll_resolves_until_dismissed_witness :
  map fst
      (resolve_calls
         (resolveAll
            (fun n => match n with
                      | 0 => Some (lit "working")
                      | 1 => Some (lit "base")
                      | _ => None
                      end)
            (fun _ _ => inr (lit "svn: E155015"))
            [lit "/a/x"; lit "/a/y"; lit "/a/z"]))
  = [[lit "/a/x"]; [lit "/a/y"]].
Proof.
  refine (proj1 (resolveAll_resolves_until_dismissed
                   (fun n => match n with
                             | 0 => Some (lit "working")
                             | 1 => Some (lit "base")
                             | _ => None
                             end)
                   (fun _ _ => inr (lit "svn: E155015"))
                   [lit "/a/x"; lit "/a/y"; lit "/a/z"] 2 _ _ _)).
  - cbn. lia.
  - intros [|[|i]] Hi; [discriminate | discriminate | lia].
  - reflexivity.
Defined.

(** ** Committing *)

Lemma push_rename_paths_app (states : list SourceControlResourceState) :
  forall filePaths,
    push_rename_paths states filePaths = filePaths ++ rename_paths states.
Proof.
  induction states as [|[r|uri] states IH]; intros filePaths;
    cbn [push_rename_paths rename_paths flat_map].
  - now rewrite app_nil_r.
  - fold (rename_paths states).
    destruct (rename_source r) as [old|]; rewrite IH.
    + now rewrite <- app_assoc.
    + reflexivity.
  - fold (rename_paths states). now rewrite IH.
Qed.

Lemma push_rename_uris_app (selection : list Resource) :
  forall uris,
    push_rename_uris selection uris = uris ++ rename_uris selection.
Proof.
  induction selection as [|r selection IH]; intros uris;
    cbn [push_rename_uris rename_uris flat_map].
  - now rewrite app_nil_r.
  - fold (rename_uris selection).
    destruct (rename_source r) as [old|]; rewrite IH.
    + now rewrite <- app_assoc.
    + reflexivity.
Qed.

(** X21.  [commitWithMessage] clears the message of the input box exactly
    when the commit went through: a changelist was chosen and
    [repository.commitFiles] returned, called with the message and with the
    paths of the chosen states, in their order, followed by their rename
    sources.  In every other case the message is still in the input box, and
    [commitFiles] is not called with anything else. *)
Theorem message_is_cleared_iff_committed
        (message : jsstring)
        (choice : option (list SourceControlResourceState))
        (commitFiles : jsstring -> list jsstring -> jsstring + jsstring) :
  message <> [] ->
  let run := commitWithMessage_run message choice commitFiles in
  (inputBox run = []
   <-> exists states result,
       choice = Some states
       /\ commitFiles message
                      (map (fun state => fsPath (state_uri state)) states
                       ++ rename_paths states)
          = inl result)
  /\ (inputBox run = [] \/ inputBox run = message)
  /\ (forall message' filePaths,
         In (CommitFilesCall message' filePaths) (effects run) ->
         message' = message
         /\ exists states,
            choice = Some states
            /\ filePaths
               = map (fun state => fsPath (state_uri state)) states
                 ++ rename_paths states).
Proof.
  intros Hmessage. cbv zeta. unfold commitWithMessage_run, commitWithMessage.
  destruct message as [|c message]; [contradiction|]. cbn [truthy negb].
  destruct choice as [states|].
  - rewrite push_rename_paths_app.
    destruct (commitFiles (c :: message) _) as [result|error] eqn:Hcommit;
      cbn [inputBox effects]; repeat split.
    + intros _. now exists states, result.
    + now left.
    + destruct H as [H|[H|[H|[]]]]; try discriminate. now injection H.
    + destruct H as [H|[H|[H|[]]]]; try discriminate.
      injection H as _ <-. now exists states.
    + discriminate.
    + intros (states' & result & Hs & Hr). injection Hs as <-. congruence.
    + now right.
    + destruct H as [H|[H|[H|[]]]]; try discriminate. now injection H.
    + destruct H as [H|[H|[H|[]]]]; try discriminate.
      injection H as _ <-. now exists states.
  - cbn [inputBox effects]. repeat split.
    + discriminate.
    + intros (states & result & Hs & _). discriminate.
    + now right.
    + destruct H as [H|[]]. discriminate.
    + destruct H as [H|[]]. discriminate.
Qed.

Lemma message_is_cleared_iff_committed_witness :
  inputBox (commitWithMessage_run
              (lit "rename") (Some [OfResource Samples.renamed_file])
              (fun _ _ => inr (lit "svn: E155011")))
  = [] \/
  inputBox (commitWithMessage_run
              (lit "rename") (Some [OfResource Samples.renamed_file])
              (fun _ _ => inr (lit "svn: E155011")))
  = lit "rename".
Proof.
  refine (proj1 (proj2 (message_is_cleared_iff_committed
                          (lit "rename")
                          (Some [OfResource Samples.renamed_file])
                          (fun _ _ => inr (lit "svn: E155011")) _))).
  discriminate.
Defined.

(** X22.  The [Uri]s [commit] hands to [runByRepository] are those of the
    selected resources, in selection order, followed by the rename sources
    of the selection, in selection order: nothing else is committed, and a
    rename source never comes before a selected file. *)
Theorem commit_sends_selection_then_rename_sources
        (scmResource : option Resource) (resources : list CommandArg) :
  commit_uris scmResource resources
  = option_map (fun selection =>
                  map resourceUri selection ++ rename_uris selection)
               (commit_selection scmResource resources).
Proof.
  unfold commit_uris.
  destruct (commit_selection scmResource resources) as [selection|];
    [|reflexivity].
  cbn [option_map]. now rewrite push_rename_uris_app.
Qed.

(** ** [revertChange] *)

Lemma firstn_min {A : Type} (l : list A) (i : nat) :
  firstn (Nat.min i (length l)) l = firstn i l.
Proof.
  destruct (Nat.le_gt_cases i (length l)) as [H|H].
  - now rewrite Nat.min_l.
  - rewrite Nat.min_r by lia. rewrite firstn_all.
    symmetry. apply firstn_all2. lia.
Qed.

Lemma skipn_min {A : Type} (l : list A) (i : nat) :
  skipn (Nat.min i (length l)) l = skipn i l.
Proof.
  destruct (Nat.le_gt_cases i (length l)) as [H|H].
  - now rewrite Nat.min_l.
  - rewrite Nat.min_r by lia. rewrite skipn_all.
    symmetry. apply skipn_all2. lia.
Qed.

(** X23.  When an editor shows the document, [revertChange] gives
    [revertChanges] every change but the one at [index], in their order (so
    that this one is reverted); an [index] past the last change drops none.
    When no visible editor shows the document, nothing is reverted. *)
Theorem revertChange_drops_the_indexed_change
        (A : Type) (visibleTextEditors : list jsstring) (uri : jsstring)
        (changes : list A) (index : nat) :
  revertChange visibleTextEditors uri changes (Z.of_nat index)
  = if existsb (eqb uri) visibleTextEditors
    then Some (firstn index changes ++ skipn (S index) changes)
    else None.
Proof.
  unfold revertChange.
  assert (Hfilter : match filter (eqb uri) visibleTextEditors with
                    | [] => false
                    | _ :: _ => true
                    end = existsb (eqb uri) visibleTextEditors).
  { induction visibleTextEditors as [|e editors IH]; [reflexivity|].
    cbn [filter existsb]. now destruct (eqb uri e). }
  rewrite <- Hfilter.
  destruct (filter (eqb uri) visibleTextEditors); [reflexivity|].
  f_equal. unfold slice, slice_from, relative_index.
  replace (Z.of_nat index + 1)%Z with (Z.of_nat (S index)) by lia.
  destruct (Z.ltb_spec (Z.of_nat index) 0); [lia|].
  destruct (Z.ltb_spec (Z.of_nat (S index)) 0); [lia|].
  cbn [Z.ltb Z.compare Z.to_nat Nat.min skipn].
  rewrite !Nat2Z.id, Nat.sub_0_r, firstn_min, skipn_min. reflexivity.
Qed.

(** ** [branch] *)

Lemma match_unsafe_positive (at_start : bool) (c : char16) (s : jsstring) :
  match_unsafe at_start (c :: s) <> Some 0.
Proof.
  unfold match_unsafe.
  repeat match goal with
         | |- context [if ?cond then _ else _] => destruct cond
         end; discriminate.
Qed.

Lemma match_unsafe_None (at_start : bool) (c : char16) (s : jsstring) :
  match_unsafe at_start (c :: s) = None ->
  is_unsafe c = false /\ (at_start = true -> c <> 46%N).
Proof.
  unfold match_unsafe, is_unsafe, head_is. intros H.
  destruct at_start; cbn [andb] in H |- *;
    repeat match type of H with
           | (if ?cond then _ else _) = None =>
               destruct cond eqn:?; [discriminate|]
           end;
    (split;
     [|intros Hs Hc; subst c;
       try discriminate Hs;
       match goal with
       | Hd : (46 =? 46)%N = false |- _ => discriminate Hd
       end]);
    repeat match goal with
           | Hc : _ = false |- _ => rewrite Hc; clear Hc
           end; reflexivity.
Qed.

Lemma replace_unsafe_nonempty (at_start : bool) (s : jsstring) :
  s <> [] -> replace_unsafe 0 at_start s <> [].
Proof.
  destruct s as [|c s]; [contradiction|]. intros _.
  cbn [replace_unsafe].
  destruct (match_unsafe at_start (c :: s)) as [[|k]|]; discriminate.
Qed.

(** Code units that come out as they are stood side by side in the input,
    at a place where the pattern does not match. *)
Lemma starts_as_it_is (w : jsstring) :
  w <> [] -> ~ In 45%N w ->
  forall (s : jsstring) (at_start : bool),
    starts_with w (replace_unsafe 0 at_start s) = true ->
    starts_with w s = true /\ match_unsafe at_start s = None.
Proof.
  induction w as [|a w IH]; [contradiction|]. intros _ Hdash s at_start.
  destruct s as [|c s]; [discriminate|]. cbn [replace_unsafe].
  destruct (match_unsafe at_start (c :: s)) as [[|k]|] eqn:Hm.
  - now destruct (match_unsafe_positive at_start c s).
  - cbn [starts_with]. intros H. apply andb_true_iff in H.
    destruct H as [H _]. apply N.eqb_eq in H. subst a.
    destruct Hdash. now left.
  - cbn [starts_with]. intros H. apply andb_true_iff in H.
    destruct H as [Ha Hw]. rewrite Ha. split; [|reflexivity].
    destruct w as [|b w]; [reflexivity|].
    apply (IH ltac:(discriminate) ltac:(intros Hin; apply Hdash; now right)
              s false Hw).
Qed.

Lemma replaced_everywhere (w : jsstring) :
  w <> [] -> ~ In 45%N w ->
  (forall at_start s,
      starts_with w s = true -> match_unsafe at_start s <> None) ->
  forall (s : jsstring) (skip : nat) (at_start : bool),
    includes w (replace_unsafe skip at_start s) = false.
Proof.
  intros Hw Hdash Hmatch.
  induction s as [|c s IH]; intros skip at_start.
  - destruct w; [contradiction|]. now destruct skip.
  - cbn [replace_unsafe]. destruct skip as [|skip]; [|apply IH].
    destruct (starts_with w (replace_unsafe 0 at_start (c :: s))) eqn:Hs.
    + destruct (starts_as_it_is w Hw Hdash _ _ Hs) as [Hin Hnone].
      now destruct (Hmatch at_start (c :: s) Hin).
    + cbn [replace_unsafe] in Hs.
      destruct (match_unsafe at_start (c :: s)) as [[|k]|];
        cbn [includes]; rewrite Hs, IH; reflexivity.
Qed.

Lemma whole_as_it_is (w : jsstring) :
  w <> [] -> ~ In 45%N w ->
  forall (s : jsstring) (at_start : bool),
    replace_unsafe 0 at_start s = w ->
    s = w /\ match_unsafe at_start s = None.
Proof.
  induction w as [|a w IH]; [contradiction|]. intros _ Hdash s at_start.
  destruct s as [|c s]; [discriminate|]. cbn [replace_unsafe].
  destruct (match_unsafe at_start (c :: s)) as [[|k]|] eqn:Hm.
  - now destruct (match_unsafe_positive at_start c s).
  - intros H. injection H as <- _. destruct Hdash. now left.
  - intros H. injection H as <- Hrest. split; [|reflexivity]. f_equal.
    destruct w as [|b w].
    + destruct s as [|d s]; [reflexivity|].
      now destruct (replace_unsafe_nonempty false (d :: s)).
    + apply (IH ltac:(discriminate) ltac:(intros Hin; apply Hdash; now right)
                s false Hrest).
Qed.

Lemma never_at_the_end (w : jsstring) :
  w <> [] -> ~ In 45%N w ->
  (forall at_start, match_unsafe at_start w <> None) ->
  forall (s : jsstring) (skip : nat) (at_start : bool) (pre : jsstring),
    replace_unsafe skip at_start s <> pre ++ w.
Proof.
  intros Hw Hdash Hmatch.
  induction s as [|c s IH]; intros skip at_start pre.
  - destruct skip; cbn; intros H; symmetry in H;
      apply app_eq_nil in H; destruct H as [_ H]; contradiction.
  - cbn [replace_unsafe]. destruct skip as [|skip]; [|apply IH].
    intros H. destruct pre as [|d pre].
    + change (replace_unsafe 0 at_start (c :: s) = w) in H.
      destruct (whole_as_it_is w Hw Hdash _ _ H) as [<- Hnone].
      now destruct (Hmatch at_start).
    + destruct (match_unsafe at_start (c :: s)) as [[|k]|];
        injection H as _ H; now apply IH in H.
Qed.

Lemma head_is_starts_with (a : char16) (s : jsstring) :
  starts_with [a] s = head_is a s.
Proof.
  destruct s as [|c s]; [reflexivity|]. cbn.
  rewrite andb_true_r. apply N.eqb_sym.
Qed.

Lemma replace_unsafe_units (s : jsstring) :
  forall (skip : nat) (at_start : bool),
    existsb is_unsafe (replace_unsafe skip at_start s) = false.
Proof.
  induction s as [|c s IH]; intros skip at_start;
    [now destruct skip|].
  cbn [replace_unsafe]. destruct skip as [|skip]; [|apply IH].
  destruct (match_unsafe at_start (c :: s)) as [[|k]|] eqn:Hm.
  - now destruct (match_unsafe_positive at_start c s).
  - cbn [existsb]. now rewrite IH.
  - cbn [existsb]. apply match_unsafe_None in Hm. destruct Hm as [-> _].
    now rewrite IH.
Qed.

(** X24.  The name [branch] gives to [repository.branch] is never empty and
    holds no white space and none of [~ ^ : \ *]; it does not start with a
    dot, holds no [..], no [/.] and no [.lock/], and does not end with a
    dot, a slash or [.lock]. *)
Theorem branch_name_is_safe (result : jsstring) :
  result <> [] ->
  exists name,
    branch (Some result) = Some name
    /\ name <> []
    /\ existsb is_unsafe name = false
    /\ head_is 46%N name = false
    /\ includes (lit "..") name = false
    /\ includes (lit "/.") name = false
    /\ includes (lit ".lock/") name = false
    /\ forall pre,
        name <> pre ++ lit "."
        /\ name <> pre ++ lit "/"
        /\ name <> pre ++ lit ".lock".
Proof.
  intros Hresult. exists (replace_unsafe 0 true result).
  split; [now destruct result|].
  split; [now apply replace_unsafe_nonempty|].
  split; [apply replace_unsafe_units|].
  split.
  { destruct result as [|c s]; [contradiction|]. cbn [replace_unsafe].
    destruct (match_unsafe true (c :: s)) as [[|k]|] eqn:Hm;
      [now destruct (match_unsafe_positive true c s) | reflexivity |].
    apply match_unsafe_None in Hm. destruct Hm as [_ Hc].
    cbn [head_is]. apply N.eqb_neq. now apply Hc. }
  assert (Hin : forall w,
             w <> [] -> ~ In 45%N w ->
             (forall at_start s,
                 starts_with w s = true ->
                 match_unsafe at_start s <> None) ->
             includes w (replace_unsafe 0 true result) = false)
    by (intros w H1 H2 H3; now apply replaced_everywhere).
  assert (Hend : forall w pre,
             w <> [] -> ~ In 45%N w ->
             (forall at_start, match_unsafe at_start w <> None) ->
             replace_unsafe 0 true result <> pre ++ w)
    by (intros w pre H1 H2 H3; now apply never_at_the_end).
  repeat split.
  - apply Hin; [discriminate | cbn; intros [H|[H|[]]]; discriminate |].
    intros at_start s Hs. unfold match_unsafe. rewrite Hs.
    repeat match goal with
           | |- context [if ?cond then _ else _] => destruct cond
           end; discriminate.
  - apply Hin; [discriminate | cbn; intros [H|[H|[]]]; discriminate |].
    intros at_start s Hs. unfold match_unsafe. rewrite Hs.
    repeat match goal with
           | |- context [if ?cond then _ else _] => destruct cond
           end; discriminate.
  - apply Hin; [discriminate | cbn; intuition discriminate |].
    intros at_start s Hs. unfold match_unsafe. rewrite Hs.
    repeat match goal with
           | |- context [if ?cond then _ else _] => destruct cond
           end; discriminate.
  - apply Hend; [discriminate | cbn; intuition discriminate |].
    intros [|]; vm_compute; discriminate.
  - apply Hend; [discriminate | cbn; intuition discriminate |].
    intros [|]; vm_compute; discriminate.
  - apply Hend; [discriminate | cbn; intuition discriminate |].
    intros [|]; vm_compute; discriminate.
Qed.

Lemma branch_name_is_safe_witness :
  exists name,
    branch (Some (lit ".my branch/..")) = Some name
    /\ name = lit "-my-branch--".
Proof.
  destruct (branch_name_is_safe (lit ".my branch/..") ltac:(discriminate))
    as (name & Hname & _).
  exists name. split; [exact Hname|].
  vm_compute in Hname. now injection Hname as <-.
Defined.

(** ** [SwitchBranchItem] *)

Lemma split_on_plain (sep : char16) (t : jsstring) :
  ~ In sep t -> forall cur, split_on sep cur t = [rev cur ++ t].
Proof.
  induction t as [|c t IH]; intros Hsep cur; cbn [split_on].
  - now rewrite app_nil_r.
  - destruct (N.eqb_spec c sep) as [->|_]; [destruct Hsep; now left|].
    rewrite IH by (intros Hin; apply Hsep; now right).
    cbn [rev]. now rewrite <- app_assoc.
Qed.

Lemma split_on_separator (sep : char16) (t s : jsstring) :
  ~ In sep t ->
  forall cur,
    split_on sep cur (t ++ sep :: s) = (rev cur ++ t) :: split_on sep [] s.
Proof.
  induction t as [|c t IH]; intros Hsep cur; cbn [split_on app].
  - now rewrite N.eqb_refl, app_nil_r.
  - destruct (N.eqb_spec c sep) as [->|_]; [destruct Hsep; now left|].
    rewrite IH by (intros Hin; apply Hsep; now right).
    cbn [rev]. now rewrite <- app_assoc.
Qed.

(** Splitting undoes joining, for parts that do not hold the separator. *)
Lemma split_on_join (sep : char16) (parts : list jsstring) :
  parts <> [] -> Forall (fun part => ~ In sep part) parts ->
  split_on sep [] (join [sep] parts) = parts.
Proof.
  induction parts as [|p parts IH]; [contradiction|]. intros _ Hparts.
  inversion Hparts as [|? ? Hp Hrest]; subst.
  destruct parts as [|q parts].
  - cbn [join]. now rewrite split_on_plain.
  - change (join [sep] (p :: q :: parts))
      with (p ++ sep :: join [sep] (q :: parts)).
    rewrite split_on_separator by exact Hp. cbn [rev app]. f_equal.
    apply IH; [discriminate | exact Hrest].
Qed.

(** X25.  For a [ref] made of parts joined by slashes, a [SwitchBranchItem]
    has the first part as its description, and as its label the second part
    when there is one that is not empty, the first part otherwise; parts
    further down are not shown. *)
Theorem switch_branch_item_shows_tree_and_name (parts : list jsstring) :
  parts <> [] -> Forall (fun part => ~ In 47%N part) parts ->
  let item := newSwitchBranchItem (join (lit "/") parts) in
  ref item = join (lit "/") parts
  /\ Workflows.description item = nth 0 parts []
  /\ Workflows.label item
     = match nth_error parts 1 with
       | Some (c :: name) => c :: name
       | _ => nth 0 parts []
       end.
Proof.
  intros Hparts Hplain. cbv zeta.
  unfold Workflows.label, Workflows.description, newSwitchBranchItem.
  cbv zeta. change (lit "/") with (@cons char16 47%N (@nil char16)).
  rewrite (split_on_join 47%N parts Hparts Hplain).
  destruct parts as [|tree [|[|c name] rest]]; [contradiction| | |];
    cbn; auto.
Qed.

Lemma switch_branch_item_shows_tree_and_name_witness :
  Workflows.description
    (newSwitchBranchItem (lit "branches/feature/deep")) = lit "branches"
  /\ Workflows.label
       (newSwitchBranchItem (lit "branches/feature/deep")) = lit "feature".
Proof.
  refine (proj2 (switch_branch_item_shows_tree_and_name
                   [lit "branches"; lit "feature"; lit "deep"] _ _)).
  - discriminate.
  - repeat constructor; cbn; intuition discriminate.
Defined.

(** ** The property picks *)

(** X26.  Whenever a property pick sets a property, it sets the property it
    is labelled with, on the file it was run for, to a value that is not
    empty: [ON] for [executable], [CRLF] or [LF] for [eol-style], and for
    [mime-type] what was entered, which [Mime.getType] knows.  The [ignore]
    pick sets no property. *)
Theorem propset_gets_a_value_and_the_path
        (path : Commands.PathModule)
        (getType : jsstring -> option jsstring)
        (inputBox : option jsstring)
        (quickPick : option PropertyPickList.EOLItem)
        (pick : PropertyPickList.PropertyPick) (fsPath : jsstring)
        (name : jsstring) (args : list jsstring) :
  PropertyPickList.run path getType inputBox quickPick pick fsPath
  = PropertyPickList.Propset name args ->
  name = PropertyPickList.label pick
  /\ exists value,
      args = [value; fsPath]
      /\ value <> []
      /\ match pick with
         | PropertyPickList.PropertyExecutablePick => value = lit "ON"
         | PropertyPickList.PropertyIgnorePick => False
         | PropertyPickList.PropertyMimeTypePick =>
             inputBox = Some value
             /\ exists known, getType value = Some known /\ known <> []
         | PropertyPickList.PropertyEOLStylePick =>
             value = lit "CRLF" \/ value = lit "LF"
         end.
Proof.
  unfold PropertyPickList.run. destruct pick.
  - intros H. injection H as <- <-. split; [reflexivity|].
    exists (lit "ON"). repeat split. discriminate.
  - discriminate.
  - destruct inputBox as [[|c mimeType]|]; cbn [truthy_opt];
      try discriminate.
    destruct (getType (c :: mimeType)) as [[|d known]|] eqn:Hknown;
      cbn [truthy_opt]; try discriminate.
    intros H. injection H as <- <-. split; [reflexivity|].
    exists (c :: mimeType). repeat split; [discriminate|].
    exists (d :: known). split; [exact Hknown | discriminate].
  - destruct quickPick as [choice|]; [|discriminate].
    intros H. injection H as <- <-. split; [reflexivity|].
    exists (PropertyPickList.eol_label choice).
    destruct choice; repeat split; try discriminate; auto.
Qed.

Lemma propset_gets_a_value_and_the_path_witness :
  lit "mime-type"
  = PropertyPickList.label PropertyPickList.PropertyMimeTypePick
  /\ exists value,
      [lit "text/plain"; lit "/a/x.txt"] = [value; lit "/a/x.txt"]
      /\ value <> [].
Proof.
  destruct (propset_gets_a_value_and_the_path
              Samples.posix
              (fun t => if eqb t (lit "text/plain")
                        then Some (lit "text/plain") else None)
              (Some (lit "text/plain")) None
              PropertyPickList.PropertyMimeTypePick (lit "/a/x.txt")
              (lit "mime-type") [lit "text/plain"; lit "/a/x.txt"]
              eq_refl)
    as (Hname & value & Hargs & Hvalue & _).
  split; [exact Hname|]. exists value. split; [exact Hargs | exact Hvalue].
Defined.

(** ** [createCommand] *)

(** X27.  A command created for a repository never throws and its promise
    never rejects.  It runs the method with the repository of the first
    argument, else the only open one, else the picked one, put in front of
    the arguments, and is fulfilled with what the method gives.  When the
    method throws or its promise rejects, or when picking a repository
    rejects, the error is written to the console and the promise is
    fulfilled with [undefined]; when no repository is picked the method is
    not run and the promise is fulfilled with [undefined]; while the pick or
    the method is pending, so is the command.  A command created without
    the repository option throws exactly when its method throws. *)
Theorem repository_command_never_fails
        (Repository Arg Value Err : Type)
        (getRepository : option Arg -> option Repository)
        (repositories : list Repository)
        (pickRepository : Settled Err (option Repository))
        (of_repository : Repository -> Arg)
        (method : list Arg -> Applied Err (option Value))
        (args : list Arg) :
  (exists called,
      createCommand getRepository repositories pickRepository of_repository
                    method true args
      = inr called
      /\ (forall reason, promise called <> Rejected reason)
      /\ match repositoryPromise getRepository repositories pickRepository
                                 args with
         | Pending => promise called = Pending /\ console called = []
         | Rejected reason =>
             promise called = Fulfilled None /\ console called = [reason]
         | Fulfilled None =>
             promise called = Fulfilled None /\ console called = []
         | Fulfilled (Some repository) =>
             match method (of_repository repository :: args) with
             | Throws err | Returns (Rejected err) =>
                 promise called = Fulfilled None /\ console called = [err]
             | Returns (Fulfilled value) =>
                 promise called = Fulfilled value /\ console called = []
             | Returns Pending =>
                 promise called = Pending /\ console called = []
             end
         end)
  /\ repositoryPromise getRepository repositories pickRepository args
     = match getRepository (hd_error args), repositories with
       | Some repository, _ => Fulfilled (Some repository)
       | None, [only] => Fulfilled (Some only)
       | None, _ => pickRepository
       end
  /\ (forall err,
         createCommand getRepository repositories pickRepository
                       of_repository method false args
         = inl err
         <-> method args = Throws err).
Proof.
  split; [|split].
  - unfold createCommand. cbn [negb]. eexists. split; [reflexivity|].
    unfold caught. cbn [promise console].
    destruct (repositoryPromise getRepository repositories pickRepository
                                args) as [|[repository|]|reason];
      cbn [then_ catch_].
    + split; [discriminate | split; reflexivity].
    + destruct (method (of_repository repository :: args))
        as [err|[|value|err]]; cbn [catch_];
        (split; [discriminate | split; reflexivity]).
    + split; [discriminate | split; reflexivity].
    + split; [discriminate | split; reflexivity].
  - unfold repositoryPromise.
    destruct (getRepository (hd_error args)); [reflexivity|].
    destruct repositories as [|only [|another rest]]; reflexivity.
  - intros err. unfold createCommand. cbn [negb].
    destruct (method args) as [err'|result]; split; intros H;
      try discriminate H; injection H as <-; reflexivity.
Qed.

(** ** [addFile] *)

Lemma all_without_rejection (T E : Type)
      (promises : list (PromiseAll.Promise T E)) (schedule : list nat) :
  (forall i e,
      nth_error promises i <> Some (Some (PromiseAll.Failed e))) ->
  PromiseAll.all promises schedule = None
  \/ exists values, PromiseAll.all promises schedule = Some (inl values).
Proof.
  intros Hnone. unfold PromiseAll.all.
  assert (Hinv : forall a : PromiseAll.All T E,
             (PromiseAll.result a = None
              \/ exists values, PromiseAll.result a = Some (inl values)) ->
             PromiseAll.result
               (fold_left (PromiseAll.settle promises) schedule a) = None
             \/ exists values,
                 PromiseAll.result
                   (fold_left (PromiseAll.settle promises) schedule a)
                 = Some (inl values)).
  { induction schedule as [|i schedule IH]; intros a Ha; [exact Ha|].
    cbn [fold_left]. apply IH. unfold PromiseAll.settle.
    destruct (nth_error promises i) as [[[v|e]|]|] eqn:Hi; try exact Ha.
    - unfold PromiseAll.on_fulfilled. cbn [PromiseAll.result].
      destruct Ha as [->|(values & ->)]; [|right; now exists values].
      destruct (PromiseAll.complete _) as [vs|]; [right; now exists vs|].
      now left.
    - now destruct (Hnone i e). }
  apply Hinv. unfold PromiseAll.start. cbn [PromiseAll.result].
  destruct (length promises); [right; now exists []|now left].
Qed.

(** X28.  [addFile] does not reject because adding failed in a repository:
    its callback catches the error of [repository.addFiles], so the promise
    of [runByRepository] is never rejected, and once [addFiles] has settled
    for every group, it is fulfilled, one [undefined] per group, whichever
    of them failed.  It returns without dispatching exactly when there is
    no selection. *)
Theorem addFile_never_rejects
        (Repository : Type)
        (Repository_eq_dec : forall a b : Repository, {a = b} + {a <> b})
        (getRepository : Uri -> option Repository)
        (addFiles : Repository -> list jsstring -> option (jsstring + jsstring))
        (scmResource : option Resource) (resourceStates : list CommandArg)
        (schedule : list nat) :
  (addFile Repository_eq_dec getRepository addFiles scmResource
           resourceStates schedule = None
   <-> getResourceStates scmResource resourceStates = [])
  /\ match addFile Repository_eq_dec getRepository addFiles scmResource
                   resourceStates schedule with
     | None => True
     | Some dispatched =>
         (d_result dispatched = None
          \/ exists values, d_result dispatched = Some (inl values))
         /\ ((forall repository paths, addFiles repository paths <> None) ->
             (forall i, i < length (d_calls dispatched) -> In i schedule) ->
             d_result dispatched
             = Some (inl (map (fun _ => tt) (d_calls dispatched))))
     end.
Proof.
  unfold addFile. cbv zeta.
  destruct (getResourceStates scmResource resourceStates)
    as [|resource selection]; [split; [tauto | exact I]|].
  split; [split; discriminate|].
  unfold runByRepository. cbn [d_result d_calls].
  set (gs := groups (group_resources Repository_eq_dec getRepository
                       (map resourceUri (resource :: selection)))).
  unfold calls. rewrite map_map. cbn [fst snd]. split.
  - apply all_without_rejection. intros i e Hi.
    apply nth_error_In in Hi. apply in_map_iff in Hi.
    destruct Hi as (g & Hg & _). unfold addFile_fn in Hg.
    destruct (addFiles (repository g) (map fsPath (resources g)));
      discriminate.
  - intros Hsettles Hcover. rewrite length_map in Hcover.
    rewrite map_map.
    replace (map (fun g => addFile_fn addFiles (repository g)
                             (Several (resources g))) gs)
      with (map (fun v : unit => Some (@PromiseAll.Resolved unit jsstring v))
                (map (fun _ => tt) gs)).
    + apply all_fulfilled. now rewrite length_map.
    + rewrite map_map. apply map_ext. intros g. unfold addFile_fn.
      destruct (addFiles (repository g) (map fsPath (resources g)))
        eqn:Hadd; [reflexivity|]. now destruct (Hsettles _ _ Hadd).
Qed.
